(** * consul-replicate: the configuration layer ([config.go])

    A shallow embedding of [Config] with its [Copy], [Merge], [Finalize],
    [DefaultConfig] and [TestConfig] operations over an explicit typed heap
    (every field of [Config] is a Go pointer), of [stringFromEnv], of the
    normalizer [flattenKeys], of the legacy-key handling and strict binding
    performed by [Parse], of the loaders [FromFile] and [FromPath] over a
    file system, and of [regexpMatch]. *)

From stdpp Require Import gmap strings list fin_maps.

Set Warnings "-register-all".

(** ** Go pointers and the typed heap *)

Definition loc := positive.

(** A Go pointer [*V]: either [nil] or the address of a [V] object. *)
Inductive ptr (V : Type) : Type :=
| nil
| addr (l : loc).
Arguments nil {V}.
Arguments addr {V} l%_positive.

Definition is_nil {V} (p : ptr V) : bool :=
  match p with nil => true | addr _ => false end.

Global Instance ptr_eq_dec {V} : EqDecision (ptr V).
Proof. solve_decision. Defined.

(** [os.Signal] values are [syscall.Signal] numbers; [time.Duration] is a
    count of nanoseconds. *)
Record Signal := Sig { signum : Z }.
Record Duration := Nanoseconds { nanoseconds : Z }.

Definition SIGHUP : Signal := Sig 1.
Definition SIGINT : Signal := Sig 2.
Definition Second : Z := 1000000000.

Definition DefaultLogLevel : string := "WARN".
Definition DefaultMaxStale : Duration := Nanoseconds (2 * Second).
Definition DefaultReloadSignal : Signal := SIGHUP.
Definition DefaultKillSignal : Signal := SIGINT.
Definition DefaultStatusDir : string := "service/consul-replicate/statuses".

(** The three operations every nested entity type provides, on the
    contents of a (non-nil) entity. *)
Class Stanza (V : Type) := {
  stanza_default : V;
  stanza_merge : V → V → V;
  stanza_finalize : V → V
}.

(** The generic tree produced by the markup decoder: Go's [interface{}]
    holding [nil], a scalar, a [[]interface{}], a [map[string]interface{}]
    or a [[]map[string]interface{}] (the shape of every block).  The
    decoder builds a tree: no map is reachable along two paths, so that
    rewriting a map in place is rewriting the value at its place. *)
Inductive value :=
| VNil
| VBool (b : bool)
| VInt (z : Z)
| VFloat (bits : Z)
| VString (s : string)
| VList (l : list value)
| VMap (m : gmap string value)
| VMaps (l : list (gmap string value)).

(** ** The normalizer: [flattenKeys] *)

(** [mapKey := k; if parent != "" { mapKey = parent + "." + k }] *)
Definition mapKeyOf (parent k : string) : string :=
  if decide (parent ≠ "") then parent +:+ "." +:+ k else k.

(** What the [switch] of [flatten] stores back under a key whose dotted
    path [mapKey] is in [keyMap]: the last map of a non-empty
    [[]map[string]interface{}], flattened with [mapKey] as parent; [nil]
    for an empty one; a map, flattened in place; anything else as it is.
    The local [fix] walks to the last element of the slice. *)
Fixpoint flattenValue (keyMap : gset string) (mapKey : string) (v : value)
    {struct v} : value :=
  let flatten (m : gmap string value) : gmap string value :=
    map_imap (λ k v',
      let mapKey' := mapKeyOf mapKey k in
      Some (if decide (mapKey' ∈ keyMap)
            then flattenValue keyMap mapKey' v' else v')) m in
  match v with
  | VMaps typed =>
      (fix last (l : list (gmap string value)) (acc : value) : value :=
         match l with
         | [] => acc
         | m :: l' => last l' (VMap (flatten m))
         end) typed VNil
  | VMap typed => VMap (flatten typed)
  | _ => v
  end.

(** The closure [flatten]: every key of [m] whose dotted path is in
    [keyMap] gets its value rewritten, the others are skipped. *)
Definition flatten (keyMap : gset string) (m : gmap string value)
    (parent : string) : gmap string value :=
  map_imap (λ k v,
    let mapKey := mapKeyOf parent k in
    Some (if decide (mapKey ∈ keyMap)
          then flattenValue keyMap mapKey v else v)) m.

Definition flattenKeys (m : gmap string value) (keys : list string)
  : gmap string value :=
  flatten (list_to_set keys) m "".

(** The value [flatten] leaves under a key whose dotted path [mapKey] is
    in [keyMap], in terms of the slice's last element. *)
Definition flattened (keyMap : gset string) (mapKey : string) (v : value)
  : value :=
  match v with
  | VMaps typed =>
      match last typed with
      | Some x => VMap (flatten keyMap x mapKey)
      | None => VNil
      end
  | VMap typed => VMap (flatten keyMap typed mapKey)
  | _ => v
  end.

(** ** The legacy keys handled by [Parse] *)

(** The warnings [Parse] logs: "auth is now a child stanza inside
    consul ...", "path is no longer a key in the configuration ...",
    "retry is now a child stanza for consul ...", "ssl is now a child
    stanza for consul ...", "token is now a child stanza inside consul
    ...". *)
Inductive warning := WarnAuth | WarnPath | WarnRetry | WarnSsl | WarnToken.

Global Instance warning_eq_dec : EqDecision warning.
Proof. solve_decision. Defined.

(** [consul, ok := parsed["consul"].(map[string]interface{});
     if !ok { consul = map[string]interface{}{} }] *)
Definition consulOf (parsed : gmap string value) : gmap string value :=
  match parsed !! "consul" with
  | Some (VMap consul) => consul
  | _ => ∅
  end.

(** [if x, ok := parsed[key]; ok { log...; consul[key] = wrap(x);
     parsed["consul"] = consul; delete(parsed, key) }] *)
Definition relocate (key : string) (w : warning) (wrap : value → value)
    (st : gmap string value * list warning)
  : gmap string value * list warning :=
  match st.1 !! key with
  | Some x =>
      let consul := <[key := wrap x]> (consulOf st.1) in
      (delete key (<["consul" := VMap consul]> st.1), st.2 ++ [w])
  | None => st
  end.

(** [if _, ok := parsed["path"]; ok { log...; delete(parsed, "path") }] *)
Definition dropPath (st : gmap string value * list warning)
  : gmap string value * list warning :=
  match st.1 !! "path" with
  | Some _ => (delete "path" st.1, st.2 ++ [WarnPath])
  | None => st
  end.

(** [r := map[string]interface{}{"backoff": retry, "max_backoff": retry}] *)
Definition retryBlock (retry : value) : value :=
  VMap (<["backoff" := retry]> (<["max_backoff" := retry]> ∅)).

(** The keys [Parse] flattens, and the deprecated ones it flattens next. *)
Definition stanzaKeys : list string :=
  ["consul"; "consul.auth"; "consul.retry"; "consul.ssl";
   "consul.transport"; "syslog"; "wait"].

Definition deprecatedKeys : list string := ["auth"; "ssl"].

(** The deprecated top-level keys that [Parse] removes from the mapping. *)
Definition legacyKeys : list string :=
  ["auth"; "path"; "retry"; "ssl"; "token"].

(** The part of [Parse] between the markup decoder and the binder. *)
Definition normalize (parsed : gmap string value)
  : gmap string value * list warning :=
  let parsed := flattenKeys parsed stanzaKeys in
  let parsed := flattenKeys parsed deprecatedKeys in
  let st := (parsed, []) in
  let st := relocate "auth" WarnAuth id st in
  let st := dropPath st in
  let st := relocate "retry" WarnRetry retryBlock st in
  let st := relocate "ssl" WarnSsl id st in
  relocate "token" WarnToken id st.

(** The warning that goes with each deprecated key, in the order in which
    [Parse] handles the keys, and the keys it moves under consul. *)
Definition legacyWarnings : list (string * warning) :=
  [("auth", WarnAuth); ("path", WarnPath); ("retry", WarnRetry);
   ("ssl", WarnSsl); ("token", WarnToken)].

Definition relocatedKeys : list string := ["auth"; "retry"; "ssl"; "token"].

(** The consul value of the mapping is a map, with [r] under [name]. *)
Definition hasConsul (st : gmap string value * list warning) (name : string)
    (r : value) : Prop :=
  ∃ consul, st.1 !! "consul" = Some (VMap consul) ∧ consul !! name = Some r.

(** The consul map of the mapping has the entries of [c0] under the keys
    that [Parse] does not relocate. *)
Definition consulAgrees (c0 : gmap string value)
    (st : gmap string value * list warning) : Prop :=
  ∀ k, k ∉ relocatedKeys → consulOf st.1 !! k = c0 !! k.

Definition consulIsMap (st : gmap string value * list warning) : Prop :=
  ∃ consul, st.1 !! "consul" = Some (VMap consul).

(** [flat keyMap mapKey v]: the value [v], found under the dotted path
    [mapKey], is no sequence of mappings, and when it is a mapping, neither
    is any value in it whose dotted path is in [keyMap], at any depth. *)
Fixpoint flat (keyMap : gset string) (mapKey : string) (v : value) : bool :=
  match v with
  | VMaps _ => false
  | VMap m =>
      map_fold (λ k v' b,
        (if decide (mapKeyOf mapKey k ∈ keyMap)
         then flat keyMap (mapKeyOf mapKey k) v' else true) && b) true m
  | _ => true
  end.

Definition flatMap (keyMap : gset string) (parent : string)
    (m : gmap string value) : bool :=
  map_fold (λ k v' b,
    (if decide (mapKeyOf parent k ∈ keyMap)
     then flat keyMap (mapKeyOf parent k) v' else true) && b) true m.

(** The number of mappings in a value, the measure of the recursion of
    [flatten]. *)
Fixpoint value_size (v : value) : nat :=
  match v with
  | VMap m => S (map_fold (λ _ v' n, value_size v' + n) 0 m)
  | VMaps l =>
      S (foldr (λ m n, S (map_fold (λ _ v' n, value_size v' + n) 0 m) + n) 0 l)
  | _ => 0
  end.

(** ** [regexpMatch] *)

(** The loop [for i, n := range match[0] { if names[i] != "" {
    m[names[i]] = n } }] from the index [i] on.  [names[i]] is an index
    expression on a slice: it panics when [i] is out of range, which is the
    result [None]. *)
Fixpoint regexpGroups (names : list string) (i : nat) (groups : list string)
    (m : gmap string string) : option (gmap string string) :=
  match groups with
  | [] => Some m
  | n :: rest =>
      match names !! i with
      | None => None
      | Some name =>
          regexpGroups names (S i) rest
            (if decide (name ≠ "") then <[name := n]> m else m)
      end
  end.

Section Regexp.

(** [*regexp.Regexp] with the two methods that [regexpMatch] calls. *)
Context {Regexp : Type}.
Variable SubexpNames : Regexp → list string.
Variable FindAllStringSubmatch : Regexp → string → Z → list (list string).

(** regexpMatch matches the given regexp and extracts the match groups
    into a named map. *)
Definition regexpMatch (re : Regexp) (q : string)
  : option (gmap string string) :=
  let names := SubexpNames re in
  let matches := FindAllStringSubmatch re q (-1) in
  match matches with
  | [] => Some ∅
  | first :: _ => regexpGroups names 0 first ∅
  end.

End Regexp.

(** The groups of a match that have a name, with their names. *)
Definition namedGroups (names groups : list string) : list (string * string) :=
  filter (λ p, p.1 ≠ "") (zip names groups).

(** ** The binder: field tags and errors *)

Inductive structField :=
| FConsul | FDestinationConsul | FExcludes | FKillSignal | FLogLevel
| FMaxStale | FPidFile | FPrefixes | FReloadSignal | FStatusDir | FSyslog
| FWait.

(** The [mapstructure:"..."] tags of [Config]. *)
Definition mapstructure_tag (f : structField) : string :=
  match f with
  | FConsul => "consul"
  | FDestinationConsul => "consul"
  | FExcludes => "exclude"
  | FKillSignal => "kill_signal"
  | FLogLevel => "log_level"
  | FMaxStale => "max_stale"
  | FPidFile => "pid_file"
  | FPrefixes => "prefix"
  | FReloadSignal => "reload_signal"
  | FStatusDir => "status_dir"
  | FSyslog => "syslog"
  | FWait => "wait"
  end.

Definition structFields : list structField :=
  [FConsul; FDestinationConsul; FExcludes; FKillSignal; FLogLevel;
   FMaxStale; FPidFile; FPrefixes; FReloadSignal; FStatusDir; FSyslog;
   FWait].

(** One error of the decoder: a value that does not convert to its
    field's type, or the keys that no field used. *)
Inductive bind_error :=
| FieldError (name : string)
| InvalidKeys (keys : gset string).

(** The errors of [Parse]: "error decoding config", "error converting
    config", "mapstructure decode failed". *)
Inductive error :=
| DecodeError
| ConvertError
| BindError (errs : list bind_error).

(** The conversion of a generic value to a field's type: the decode hooks
    composed in [Parse] followed by the decoder's own conversion. *)
Class Decodable (V : Type) := decodeValue : value → option V.

(** Modelled from the spec: the "known destination fields" of the typed
    binder "at any nesting level".  The destination of a value is a field
    that a scalar or a conversion rule fills, a struct with its tagged
    fields, or a sequence of destinations of one kind. *)
Inductive schema :=
| Leaf
| Struct (fields : list (string * schema))
| Slice (elem : schema).

(** Modelled from the spec: the destination that a type is for the
    binder.  The scalars of [Config] are leaves. *)
Class Schema (V : Type) := schemaOf : schema.
Global Arguments schemaOf V {_}.

Global Instance stringSchema : Schema string := Leaf.
Global Instance signalSchema : Schema Signal := Leaf.
Global Instance durationSchema : Schema Duration := Leaf.

(** An error of the loader: an error of the operating system, an error of
    [Parse], or "unknown filetype" with the mode's text; and the error
    under the messages that [errors.Wrap] has put around it, the outermost
    first. *)
Inductive cause (oserror : Type) :=
| OsError (e : oserror)
| ParseError (e : error)
| UnknownFiletype (mode : string).
Arguments OsError {oserror} e.
Arguments ParseError {oserror} e.
Arguments UnknownFiletype {oserror} mode.

Definition load_error (oserror : Type) : Type := list string * cause oserror.

Definition Wrap {oserror} (err : load_error oserror) (message : string)
  : load_error oserror :=
  (message :: err.1, err.2).

(** One call that [filepath.Walk] makes to its function: the path, and
    either the error it passes or whether [info.IsDir()]. *)
Record visit (oserror : Type) := mkVisit {
  visit_path : string;
  visit_info : oserror + bool
}.
Arguments mkVisit {oserror} visit_path visit_info.
Arguments visit_path {oserror} v.
Arguments visit_info {oserror} v.

Section Model.

(** The nested entity types.  [ConsulConfig], [SyslogConfig] and
    [WaitConfig] belong to the consul-template [config] package;
    [ExcludeConfigs] and [PrefixConfigs] to files of this program other
    than [config.go]. *)
Context {ConsulConfig ExcludeConfigs PrefixConfigs SyslogConfig WaitConfig : Type}.
Context {consulStanza : Stanza ConsulConfig}
        {excludesStanza : Stanza ExcludeConfigs}
        {prefixesStanza : Stanza PrefixConfigs}
        {syslogStanza : Stanza SyslogConfig}
        {waitStanza : Stanza WaitConfig}.

(** Config is used to configure Consul ENV. *)
Record Config := mkConfig {
  Consul : ptr ConsulConfig;
  DestinationConsul : ptr ConsulConfig;
  Excludes : ptr ExcludeConfigs;
  KillSignal : ptr Signal;
  LogLevel : ptr string;
  MaxStale : ptr Duration;
  PidFile : ptr string;
  Prefixes : ptr PrefixConfigs;
  ReloadSignal : ptr Signal;
  StatusDir : ptr string;
  Syslog : ptr SyslogConfig;
  Wait : ptr WaitConfig
}.

(** [var o Config]: the zero value. *)
Definition zeroConfig : Config :=
  mkConfig nil nil nil nil nil nil nil nil nil nil nil nil.

(** Field assignments [c.F = p]. *)
Definition with_Consul (p : ptr ConsulConfig) (c : Config) : Config :=
  match c with
  | mkConfig _ dest excl kill level stale pid pref reload status sys wait =>
      mkConfig p dest excl kill level stale pid pref reload status sys wait
  end.
Definition with_DestinationConsul (p : ptr ConsulConfig) (c : Config) : Config :=
  match c with
  | mkConfig consul _ excl kill level stale pid pref reload status sys wait =>
      mkConfig consul p excl kill level stale pid pref reload status sys wait
  end.
Definition with_Excludes (p : ptr ExcludeConfigs) (c : Config) : Config :=
  match c with
  | mkConfig consul dest _ kill level stale pid pref reload status sys wait =>
      mkConfig consul dest p kill level stale pid pref reload status sys wait
  end.
Definition with_KillSignal (p : ptr Signal) (c : Config) : Config :=
  match c with
  | mkConfig consul dest excl _ level stale pid pref reload status sys wait =>
      mkConfig consul dest excl p level stale pid pref reload status sys wait
  end.
Definition with_LogLevel (p : ptr string) (c : Config) : Config :=
  match c with
  | mkConfig consul dest excl kill _ stale pid pref reload status sys wait =>
      mkConfig consul dest excl kill p stale pid pref reload status sys wait
  end.
Definition with_MaxStale (p : ptr Duration) (c : Config) : Config :=
  match c with
  | mkConfig consul dest excl kill level _ pid pref reload status sys wait =>
      mkConfig consul dest excl kill level p pid pref reload status sys wait
  end.
Definition with_PidFile (p : ptr string) (c : Config) : Config :=
  match c with
  | mkConfig consul dest excl kill level stale _ pref reload status sys wait =>
      mkConfig consul dest excl kill level stale p pref reload status sys wait
  end.
Definition with_Prefixes (p : ptr PrefixConfigs) (c : Config) : Config :=
  match c with
  | mkConfig consul dest excl kill level stale pid _ reload status sys wait =>
      mkConfig consul dest excl kill level stale pid p reload status sys wait
  end.
Definition with_ReloadSignal (p : ptr Signal) (c : Config) : Config :=
  match c with
  | mkConfig consul dest excl kill level stale pid pref _ status sys wait =>
      mkConfig consul dest excl kill level stale pid pref p status sys wait
  end.
Definition with_StatusDir (p : ptr string) (c : Config) : Config :=
  match c with
  | mkConfig consul dest excl kill level stale pid pref reload _ sys wait =>
      mkConfig consul dest excl kill level stale pid pref reload p sys wait
  end.
Definition with_Syslog (p : ptr SyslogConfig) (c : Config) : Config :=
  match c with
  | mkConfig consul dest excl kill level stale pid pref reload status _ wait =>
      mkConfig consul dest excl kill level stale pid pref reload status p wait
  end.
Definition with_Wait (p : ptr WaitConfig) (c : Config) : Config :=
  match c with
  | mkConfig consul dest excl kill level stale pid pref reload status sys _ =>
      mkConfig consul dest excl kill level stale pid pref reload status sys p
  end.

(** The heap: one region per Go type that the configuration points to.
    Go is type safe, so a [*string] never addresses a [ConsulConfig]. *)
Record heap := mkHeap {
  configs : gmap loc Config;
  consuls : gmap loc ConsulConfig;
  excludes : gmap loc ExcludeConfigs;
  prefixes : gmap loc PrefixConfigs;
  syslogs : gmap loc SyslogConfig;
  waits : gmap loc WaitConfig;
  strings : gmap loc string;
  signals : gmap loc Signal;
  durations : gmap loc Duration
}.

Definition emptyHeap : heap := mkHeap ∅ ∅ ∅ ∅ ∅ ∅ ∅ ∅ ∅.

(** [heap_incl h h']: every object of [h] is an object of [h'], with the
    same contents ([h'] only has more objects). *)
Definition heap_incl (h h' : heap) : Prop :=
  configs h ⊆ configs h' ∧ consuls h ⊆ consuls h' ∧
  excludes h ⊆ excludes h' ∧ prefixes h ⊆ prefixes h' ∧
  syslogs h ⊆ syslogs h' ∧ waits h ⊆ waits h' ∧
  strings h ⊆ strings h' ∧ signals h ⊆ signals h' ∧
  durations h ⊆ durations h'.

(** [heap_grow l h h']: from [h] to [h'] no object disappears, scalar
    objects keep their contents and so does every [Config] other than
    the one at [l]. *)
Definition heap_grow (l : loc) (h h' : heap) : Prop :=
  (∀ l' cv, l' ≠ l → configs h !! l' = Some cv → configs h' !! l' = Some cv) ∧
  dom (consuls h) ⊆ dom (consuls h') ∧
  dom (excludes h) ⊆ dom (excludes h') ∧
  dom (prefixes h) ⊆ dom (prefixes h') ∧
  dom (syslogs h) ⊆ dom (syslogs h') ∧
  dom (waits h) ⊆ dom (waits h') ∧
  strings h ⊆ strings h' ∧ signals h ⊆ signals h' ∧
  durations h ⊆ durations h'.

(** [heap_step l h h']: as [heap_incl], except that the [Config] at [l]
    may have been assigned to. *)
Definition heap_step (l : loc) (h h' : heap) : Prop :=
  (∀ l' cv, l' ≠ l → configs h !! l' = Some cv → configs h' !! l' = Some cv) ∧
  consuls h ⊆ consuls h' ∧
  excludes h ⊆ excludes h' ∧ prefixes h ⊆ prefixes h' ∧
  syslogs h ⊆ syslogs h' ∧ waits h ⊆ waits h' ∧
  strings h ⊆ strings h' ∧ signals h ⊆ signals h' ∧
  durations h ⊆ durations h'.

(** The region of the heap holding the objects of type [V]. *)
Class Region (V : Type) := {
  region : heap → gmap loc V;
  set_region : gmap loc V → heap → heap;
  region_set : ∀ m h, region (set_region m h) = m;
  set_region_set : ∀ m m' h, set_region m' (set_region m h) = set_region m' h;
  set_region_incl : ∀ m h h',
    heap_incl h h' → region h ⊆ m → heap_incl h (set_region m h');
  region_incl : ∀ h h', heap_incl h h' → region h ⊆ region h'
}.

Local Ltac region_laws :=
  first
    [ reflexivity
    | intros ? [] [] (?&?&?&?&?&?&?&?&?) ?; repeat split; done
    | intros ?? H; apply H
    | intros ?? (?&?&?&?&?&?&?&?&?); done ].

#[global, refine] Instance configRegion : Region Config := {|
  region := configs;
  set_region m h := mkHeap m (consuls h) (excludes h) (prefixes h)
    (syslogs h) (waits h) (strings h) (signals h) (durations h) |}.
Proof. all: region_laws. Defined.
#[global, refine] Instance consulRegion : Region ConsulConfig := {|
  region := consuls;
  set_region m h := mkHeap (configs h) m (excludes h) (prefixes h)
    (syslogs h) (waits h) (strings h) (signals h) (durations h) |}.
Proof. all: region_laws. Defined.
#[global, refine] Instance excludesRegion : Region ExcludeConfigs := {|
  region := excludes;
  set_region m h := mkHeap (configs h) (consuls h) m (prefixes h)
    (syslogs h) (waits h) (strings h) (signals h) (durations h) |}.
Proof. all: region_laws. Defined.
#[global, refine] Instance prefixesRegion : Region PrefixConfigs := {|
  region := prefixes;
  set_region m h := mkHeap (configs h) (consuls h) (excludes h) m
    (syslogs h) (waits h) (strings h) (signals h) (durations h) |}.
Proof. all: region_laws. Defined.
#[global, refine] Instance syslogRegion : Region SyslogConfig := {|
  region := syslogs;
  set_region m h := mkHeap (configs h) (consuls h) (excludes h) (prefixes h)
    m (waits h) (strings h) (signals h) (durations h) |}.
Proof. all: region_laws. Defined.
#[global, refine] Instance waitRegion : Region WaitConfig := {|
  region := waits;
  set_region m h := mkHeap (configs h) (consuls h) (excludes h) (prefixes h)
    (syslogs h) m (strings h) (signals h) (durations h) |}.
Proof. all: region_laws. Defined.
#[global, refine] Instance stringRegion : Region string := {|
  region := strings;
  set_region m h := mkHeap (configs h) (consuls h) (excludes h) (prefixes h)
    (syslogs h) (waits h) m (signals h) (durations h) |}.
Proof. all: region_laws. Defined.
#[global, refine] Instance signalRegion : Region Signal := {|
  region := signals;
  set_region m h := mkHeap (configs h) (consuls h) (excludes h) (prefixes h)
    (syslogs h) (waits h) (strings h) m (durations h) |}.
Proof. all: region_laws. Defined.
#[global, refine] Instance durationRegion : Region Duration := {|
  region := durations;
  set_region m h := mkHeap (configs h) (consuls h) (excludes h) (prefixes h)
    (syslogs h) (waits h) (strings h) (signals h) m |}.
Proof. all: region_laws. Defined.

(** The regions of the objects a [Config] points to: assigning to a
    [Config] leaves them alone. *)
Class Pointee (V : Type) `{Region V} := {
  config_frame : ∀ (m : gmap loc Config) h,
    region (set_region m h) = region h;
  pointee_frame : ∀ (m : gmap loc V) h, configs (set_region m h) = configs h;
  region_step : ∀ l h h', heap_step l h h' → region h ⊆ region h'
}.

Local Ltac pointee_laws :=
  split;
  [reflexivity|reflexivity|intros ??? (?&?&?&?&?&?&?&?&?); assumption].

Global Instance consulPointee : Pointee ConsulConfig.
Proof. pointee_laws. Qed.
Global Instance excludesPointee : Pointee ExcludeConfigs.
Proof. pointee_laws. Qed.
Global Instance prefixesPointee : Pointee PrefixConfigs.
Proof. pointee_laws. Qed.
Global Instance syslogPointee : Pointee SyslogConfig.
Proof. pointee_laws. Qed.
Global Instance waitPointee : Pointee WaitConfig.
Proof. pointee_laws. Qed.
Global Instance stringPointee : Pointee string.
Proof. pointee_laws. Qed.
Global Instance signalPointee : Pointee Signal.
Proof. pointee_laws. Qed.
Global Instance durationPointee : Pointee Duration.
Proof. pointee_laws. Qed.

(** The regions of the nested entities, whose objects [Finalize] updates
    in place, and those of the scalars, which are never written to. *)
Class StanzaRegion (V : Type) `{Region V} := {
  set_region_grow : ∀ l (m : gmap loc V) h,
    dom (region h) ⊆ dom m → heap_grow l h (set_region m h);
  grow_dom : ∀ l h h', heap_grow l h h' → dom (region h) ⊆ dom (region h')
}.

Class ScalarRegion (V : Type) `{Region V} := {
  grow_incl : ∀ l h h', heap_grow l h h' → region h ⊆ region h'
}.

Local Ltac stanza_laws :=
  split;
  [intros ??? Hd; split; [intros ????; assumption|repeat split; done]
  |intros ??? (?&?&?&?&?&?&?&?&?); assumption].

Global Instance consulStanzaRegion : StanzaRegion ConsulConfig.
Proof. stanza_laws. Qed.
Global Instance excludesStanzaRegion : StanzaRegion ExcludeConfigs.
Proof. stanza_laws. Qed.
Global Instance prefixesStanzaRegion : StanzaRegion PrefixConfigs.
Proof. stanza_laws. Qed.
Global Instance syslogStanzaRegion : StanzaRegion SyslogConfig.
Proof. stanza_laws. Qed.
Global Instance waitStanzaRegion : StanzaRegion WaitConfig.
Proof. stanza_laws. Qed.

Local Ltac scalar_laws :=
  split; intros ??? (?&?&?&?&?&?&?&?&?); assumption.

Global Instance stringScalarRegion : ScalarRegion string.
Proof. scalar_laws. Qed.
Global Instance signalScalarRegion : ScalarRegion Signal.
Proof. scalar_laws. Qed.
Global Instance durationScalarRegion : ScalarRegion Duration.
Proof. scalar_laws. Qed.

(** Writing to the region of [V] and writing to the [Config]s commute,
    and writing a region's own content back changes nothing. *)
Class RegionFrame (V : Type) `{Region V} := {
  set_region_comm : ∀ (m : gmap loc V) (c : gmap loc Config) h,
    set_region m (set_region c h) = set_region c (set_region m h);
  set_region_id : ∀ h, set_region (region h) h = h
}.

Local Ltac frame_laws := split; [reflexivity|intros []; reflexivity].

Global Instance consulRegionFrame : RegionFrame ConsulConfig.
Proof. frame_laws. Qed.
Global Instance excludesRegionFrame : RegionFrame ExcludeConfigs.
Proof. frame_laws. Qed.
Global Instance prefixesRegionFrame : RegionFrame PrefixConfigs.
Proof. frame_laws. Qed.
Global Instance syslogRegionFrame : RegionFrame SyslogConfig.
Proof. frame_laws. Qed.
Global Instance waitRegionFrame : RegionFrame WaitConfig.
Proof. frame_laws. Qed.
Global Instance stringRegionFrame : RegionFrame string.
Proof. frame_laws. Qed.
Global Instance signalRegionFrame : RegionFrame Signal.
Proof. frame_laws. Qed.
Global Instance durationRegionFrame : RegionFrame Duration.
Proof. frame_laws. Qed.

(** ** Computations on the heap *)

(** A run either returns a result with the new heap, or stops with Go's
    nil-pointer-dereference panic, or meets an address that holds no
    object (which a garbage-collected heap never contains). *)
Inductive outcome (A : Type) : Type :=
| Done (a : A) (h : heap)
| NilDeref
| Dangling.
Arguments Done {A} a h.
Arguments NilDeref {A}.
Arguments Dangling {A}.

Definition M (A : Type) : Type := heap → outcome A.

Global Instance M_ret : MRet M := λ A a h, Done a h.
Global Instance M_bind : MBind M := λ A B f m h,
  match m h with
  | Done a h' => f a h'
  | NilDeref => NilDeref
  | Dangling => Dangling
  end.

(** [*p] *)
Definition load {V} `{Region V} (p : ptr V) : M V := λ h,
  match p with
  | nil => NilDeref
  | addr l =>
      match region h !! l with
      | Some v => Done v h
      | None => Dangling
      end
  end.

(** [*p = v] *)
Definition store {V} `{Region V} (p : ptr V) (v : V) : M unit := λ h,
  match p with
  | nil => NilDeref
  | addr l =>
      match region h !! l with
      | Some _ => Done tt (set_region (<[l:=v]> (region h)) h)
      | None => Dangling
      end
  end.

(** [&v] for a value that escapes: a new object at an unused address. *)
Definition new {V} `{Region V} (v : V) : M (ptr V) := λ h,
  let l := fresh (dom (region h)) in
  Done (addr l) (set_region (<[l:=v]> (region h)) h).

(** [config.String], [config.Signal], [config.TimeDuration]. *)
Definition config_String (s : string) : M (ptr string) := new s.
Definition config_Signal (s : Signal) : M (ptr Signal) := new s.
Definition config_TimeDuration (d : Duration) : M (ptr Duration) := new d.

(** ** The nested entities' operations *)

(** Modelled from the spec: the [Copy], [Merge], [Finalize] methods and
    the [Default...] constructors of the nested entity types, which are
    not part of [config.go].  "Each nested entity type provides the same
    three operations": [Copy] returns an independent copy and [nil] on a
    [nil] receiver; [Merge] on a [nil] receiver returns the other side's
    copy ([nil] when both are [nil]), otherwise a copy of the receiver
    overwritten by the other side; [Finalize] mutates the receiver in
    place.  What merging and finalizing do to the contents is left to the
    [Stanza] instance. *)
Definition stanzaCopy {V} `{Region V} (c : ptr V) : M (ptr V) :=
  match c with
  | nil => mret nil
  | addr _ => v ← load c; new v
  end.

Definition stanzaMerge {V} `{Region V} `{Stanza V} (c o : ptr V) : M (ptr V) :=
  match c, o with
  | nil, nil => mret nil
  | nil, addr _ => stanzaCopy o
  | addr _, nil => stanzaCopy c
  | addr _, addr _ =>
      r ← stanzaCopy c;
      rv ← load r;
      ov ← load o;
      store r (stanza_merge rv ov);;
      mret r
  end.

Definition stanzaFinalize {V} `{Region V} `{Stanza V} (c : ptr V) : M unit :=
  v ← load c; store c (stanza_finalize v).

Definition stanzaDefault {V} `{Region V} `{Stanza V} : M (ptr V) :=
  new stanza_default.

(** ** [Config]'s operations *)

(** [c.F] and [c.F = p] through a [*Config]. *)
Definition field {A} (c : ptr Config) (F : Config → A) : M A :=
  cv ← load c; mret (F cv).

Definition assign {A} (c : ptr Config) (with_F : A → Config → Config) (p : A)
  : M unit :=
  cv ← load c; store c (with_F p cv).

(** [if p != nil { o.F = p.Copy() }] on the local [o]. *)
Definition copyInto {V} `{Region V} (p : ptr V)
    (with_F : ptr V → Config → Config) (o : Config) : M Config :=
  if is_nil p then mret o else q ← stanzaCopy p; mret (with_F q o).

(** Copy returns a deep copy of the current configuration.  The receiver
    is dereferenced by the first field access, also when it is [nil]. *)
Definition Copy (c : ptr Config) : M (ptr Config) :=
  let o := zeroConfig in
  cv ← load c;
  o ← copyInto (Consul cv) with_Consul o;
  o ← copyInto (Excludes cv) with_Excludes o;
  let o := with_KillSignal (KillSignal cv) o in
  let o := with_LogLevel (LogLevel cv) o in
  let o := with_MaxStale (MaxStale cv) o in
  let o := with_PidFile (PidFile cv) o in
  o ← copyInto (Prefixes cv) with_Prefixes o;
  let o := with_ReloadSignal (ReloadSignal cv) o in
  let o := with_StatusDir (StatusDir cv) o in
  o ← copyInto (Syslog cv) with_Syslog o;
  o ← copyInto (Wait cv) with_Wait o;
  new o.

(** [if o.F != nil { r.F = r.F.Merge(o.F) }] *)
Definition mergeField {V} `{Region V} `{Stanza V} (r o : ptr Config)
    (F : Config → ptr V) (with_F : ptr V → Config → Config) : M unit :=
  oF ← field o F;
  if is_nil oF then mret tt
  else rF ← field r F; m ← stanzaMerge rF oF; assign r with_F m.

(** [if o.F != nil { r.F = o.F }] *)
Definition overwriteField {V} (r o : ptr Config)
    (F : Config → ptr V) (with_F : ptr V → Config → Config) : M unit :=
  oF ← field o F;
  if is_nil oF then mret tt else assign r with_F oF.

Definition Merge (c o : ptr Config) : M (ptr Config) :=
  match c, o with
  | nil, nil => mret nil
  | nil, addr _ => Copy o
  | addr _, nil => Copy c
  | addr _, addr _ =>
      r ← Copy c;
      mergeField r o Consul with_Consul;;
      mergeField r o Excludes with_Excludes;;
      overwriteField r o KillSignal with_KillSignal;;
      overwriteField r o LogLevel with_LogLevel;;
      overwriteField r o MaxStale with_MaxStale;;
      overwriteField r o PidFile with_PidFile;;
      mergeField r o Prefixes with_Prefixes;;
      overwriteField r o ReloadSignal with_ReloadSignal;;
      overwriteField r o StatusDir with_StatusDir;;
      mergeField r o Syslog with_Syslog;;
      mergeField r o Wait with_Wait;;
      mret r
  end.

(** DefaultConfig returns the default configuration struct. *)
Definition DefaultConfig : M (ptr Config) :=
  consul ← stanzaDefault;
  destination ← stanzaDefault;
  excl ← stanzaDefault;
  pref ← stanzaDefault;
  status ← config_String DefaultStatusDir;
  sys ← stanzaDefault;
  wait ← stanzaDefault;
  new (mkConfig consul destination excl nil nil nil nil pref nil status sys wait).

(** The process environment ([os.Getenv] returns the empty string for an
    unset variable) and [strings.TrimSpace]. *)
Variable TrimSpace : string → string.

Fixpoint stringFromEnv (Getenv : string → string) (list : list string)
    (def : string) : M (ptr string) :=
  match list with
  | [] => config_String def
  | s :: rest =>
      let v := Getenv s in
      if decide (v ≠ "") then config_String (TrimSpace v)
      else stringFromEnv Getenv rest def
  end.

(** [if c.F == nil { c.F = <default> }] *)
Definition defaultField {V} (c : ptr Config) (F : Config → ptr V)
    (with_F : ptr V → Config → Config) (mk : M (ptr V)) : M unit :=
  cF ← field c F;
  if is_nil cF then p ← mk; assign c with_F p else mret tt.

(** [if c.F == nil { c.F = Default() }; c.F.Finalize()] *)
Definition finalizeField {V} `{Region V} `{Stanza V} (c : ptr Config)
    (F : Config → ptr V) (with_F : ptr V → Config → Config) : M unit :=
  defaultField c F with_F stanzaDefault;;
  cF ← field c F;
  stanzaFinalize cF.

(** Finalize ensures all configuration options have the default values,
    so it is safe to dereference the pointers later down the line. *)
Definition Finalize (Getenv : string → string) (c : ptr Config) : M unit :=
  match c with
  | nil => mret tt
  | addr _ =>
      finalizeField c Consul with_Consul;;
      finalizeField c Excludes with_Excludes;;
      defaultField c KillSignal with_KillSignal (config_Signal DefaultKillSignal);;
      defaultField c LogLevel with_LogLevel
        (stringFromEnv Getenv ["CR_LOG"; "CONSUL_REPLICATE_LOG"] DefaultLogLevel);;
      defaultField c MaxStale with_MaxStale (config_TimeDuration DefaultMaxStale);;
      finalizeField c Prefixes with_Prefixes;;
      defaultField c PidFile with_PidFile (config_String "");;
      defaultField c ReloadSignal with_ReloadSignal (config_Signal DefaultReloadSignal);;
      defaultField c StatusDir with_StatusDir (config_String DefaultStatusDir);;
      finalizeField c Syslog with_Syslog;;
      finalizeField c Wait with_Wait
  end.

(** TestConfig returns a default, finalized config, with the provided
    configuration taking precedence. *)
Definition TestConfig (Getenv : string → string) (c : ptr Config) : M (ptr Config) :=
  d0 ← DefaultConfig;
  d ← Merge d0 c;
  Finalize Getenv d;;
  mret d.

(** ** [Parse]: binding the normalized mapping *)

(** The conversions of the values of each type of field, the tagged
    fields of the nested entity types (declared with the types, outside
    [config.go]), the key comparison of the decoder ([strings.EqualFold])
    and the markup decoder ([hcl.Decode]) are those of the libraries
    [Parse] calls. *)
Context {consulDecode : Decodable ConsulConfig}
        {excludesDecode : Decodable ExcludeConfigs}
        {prefixesDecode : Decodable PrefixConfigs}
        {syslogDecode : Decodable SyslogConfig}
        {waitDecode : Decodable WaitConfig}
        {stringDecode : Decodable string}
        {signalDecode : Decodable Signal}
        {durationDecode : Decodable Duration}.
Context {consulSchema : Schema ConsulConfig}
        {excludesSchema : Schema ExcludeConfigs}
        {prefixesSchema : Schema PrefixConfigs}
        {syslogSchema : Schema SyslogConfig}
        {waitSchema : Schema WaitConfig}.
Variable EqualFold : string → string → bool.
Variable hclDecode : string → option value.

(** Modelled from the spec: the struct decoding of the [mapstructure]
    decoder that [Parse] creates with [ErrorUnused: true], which is not
    part of [config.go].  "Binding is strict: any key present in the
    generic mapping that does not correspond to a known destination field
    at any nesting level is a fatal BindError naming the offending key
    path."  A field takes the value under the key equal to its tag or,
    failing that, under a key that [EqualFold] matches with the tag; a
    [nil] value leaves the field unset; the keys that no field took are
    reported, at the top level and, by [invalidKeys], in every mapping
    bound to a nested struct. *)
Definition lookupKey (name : string) (parsed : gmap string value)
  : option (string * value) :=
  match parsed !! name with
  | Some v => Some (name, v)
  | None => List.find (λ kv, EqualFold kv.1 name) (map_to_list parsed)
  end.

(** [k] corresponds to a field of [Config]: it is a field's tag, or
    [EqualFold] matches it with one. *)
Definition knownKey (k : string) : bool :=
  existsb (λ f, bool_decide (k = mapstructure_tag f)
                || EqualFold k (mapstructure_tag f)) structFields.

(** Modelled from the spec: [k] corresponds to one of the fields [fields]
    of a struct, as [knownKey] for the fields of [Config]. *)
Definition knownField (fields : list (string * schema)) (k : string) : bool :=
  existsb (λ f, bool_decide (k = f.1) || EqualFold k f.1) fields.

(** Modelled from the spec: the keys that no field takes in the value
    [v] bound to the destination [s] under the dotted path [name], at
    every depth.  In a mapping bound to a struct, each field takes a key
    as at the top level and binds its value under the field's dotted path,
    and the keys left over are reported by their dotted paths; the
    elements of a sequence are bound under the path of the sequence.
    Other values hold no keys to report. *)
Fixpoint invalidKeys (s : schema) (name : string) (v : value) {struct s}
  : list bind_error :=
  match s, v with
  | Struct fields, VMap m =>
      let '(used, errs) :=
        foldr (λ f '(used, errs),
                 match lookupKey f.1 m with
                 | Some (k, v') =>
                     (k :: used, invalidKeys f.2 (mapKeyOf name f.1) v' ++ errs)
                 | None => (used, errs)
                 end) ([], []) fields in
      let unused : gset string := dom m ∖ list_to_set used in
      if decide (unused = ∅) then errs
      else errs ++ [InvalidKeys (set_map (mapKeyOf name) unused)]
  | Slice elem, VList l => l ≫= invalidKeys elem name
  | Slice elem, VMaps l => l ≫= λ m, invalidKeys elem name (VMap m)
  | _, _ => []
  end.

(** The destination of each field of [Config], by the field's type, and
    [Config] itself with the tags of its fields. *)
Definition fieldSchema (f : structField) : schema :=
  match f with
  | FConsul | FDestinationConsul => schemaOf ConsulConfig
  | FExcludes => schemaOf ExcludeConfigs
  | FPrefixes => schemaOf PrefixConfigs
  | FSyslog => schemaOf SyslogConfig
  | FWait => schemaOf WaitConfig
  | FKillSignal | FReloadSignal => schemaOf Signal
  | FLogLevel | FPidFile | FStatusDir => schemaOf string
  | FMaxStale => schemaOf Duration
  end.

Definition configSchema : schema :=
  Struct ((λ f, (mapstructure_tag f, fieldSchema f)) <$> structFields).

(** Modelled from the spec: the binding of one field.  A value with keys
    that no field takes at some depth is not converted, and its invalid
    keys are reported; the conversion sees only values without such
    keys. *)
Definition bindField {V} `{Region V} `{Decodable V} `{Schema V}
    (f : structField)
    (with_F : ptr V → Config → Config) (parsed : gmap string value)
    (b : Config * list string * list bind_error)
  : M (Config * list string * list bind_error) :=
  let '(c, used, errs) := b in
  match lookupKey (mapstructure_tag f) parsed with
  | None => mret b
  | Some (k, VNil) => mret (c, k :: used, errs)
  | Some (k, v) =>
      match invalidKeys (schemaOf V) (mapstructure_tag f) v with
      | [] =>
          match decodeValue v with
          | Some x => p ← new x; mret (with_F p c, k :: used, errs)
          | None =>
              mret (c, k :: used, errs ++ [FieldError (mapstructure_tag f)])
          end
      | nested => mret (c, k :: used, errs ++ nested)
      end
  end.

(** Modelled from the spec: the fields are bound in the order of the
    struct, then the top-level keys that no field took are reported; any
    error fails the binding. *)
Definition Decode (parsed : gmap string value) : M (error + ptr Config) :=
  b ← bindField FConsul with_Consul parsed (zeroConfig, [], []);
  b ← bindField FDestinationConsul with_DestinationConsul parsed b;
  b ← bindField FExcludes with_Excludes parsed b;
  b ← bindField FKillSignal with_KillSignal parsed b;
  b ← bindField FLogLevel with_LogLevel parsed b;
  b ← bindField FMaxStale with_MaxStale parsed b;
  b ← bindField FPidFile with_PidFile parsed b;
  b ← bindField FPrefixes with_Prefixes parsed b;
  b ← bindField FReloadSignal with_ReloadSignal parsed b;
  b ← bindField FStatusDir with_StatusDir parsed b;
  b ← bindField FSyslog with_Syslog parsed b;
  b ← bindField FWait with_Wait parsed b;
  let '(c, used, errs) := b in
  let unused : gset string := dom parsed ∖ list_to_set used in
  let errs := if decide (unused = ∅) then errs
              else errs ++ [InvalidKeys unused] in
  match errs with
  | [] => p ← new c; mret (inr p)
  | _ => mret (inl (BindError errs))
  end.

(** [Parse] from the decoded mapping on: normalize, then bind. *)
Definition ParseMap (parsed : gmap string value)
  : M ((error + ptr Config) * list warning) :=
  let '(parsed, log) := normalize parsed in
  r ← Decode parsed;
  mret (r, log).

(** Parse parses the given string contents as a config. *)
Definition Parse (s : string) : M ((error + ptr Config) * list warning) :=
  match hclDecode s with
  | None => mret (inl DecodeError, [])
  | Some (VMap parsed) => ParseMap parsed
  | Some _ => mret (inl ConvertError, [])
  end.

(** ** Loading files and directories *)

(** The file system as the loader sees it: [os.Stat] (with the mode of the
    [FileInfo]), [os.IsNotExist], the three methods of [FileMode] that are
    used, the error of [os.ReadDir] if any, [os.ReadFile], and the calls
    that [filepath.Walk] makes to its function, in order, as long as the
    function returns nil.  The file system does not change during a call:
    the two calls of [os.Stat] in [FromPath] give the same result. *)
Context {oserror FileMode : Type}.
Variable IsNotExist : oserror → bool.
Variable Stat : string → oserror + FileMode.
Variable IsDir : FileMode → bool.
Variable IsRegular : FileMode → bool.
Variable modeString : FileMode → string.
Variable ReadDir : string → option oserror.
Variable ReadFile : string → oserror + string.
Variable walkVisits : string → list (visit oserror).

(** FromFile reads the configuration file at the given path and returns a
    new Config struct with the data populated. *)
Definition FromFile (path : string)
  : M ((load_error oserror + ptr Config) * list warning) :=
  match ReadFile path with
  | inl err => mret (inl (Wrap ([], OsError err) ("from file: " +:+ path)), [])
  | inr c =>
      '(r, log) ← Parse c;
      match r with
      | inl err =>
          mret (inl (Wrap ([], ParseError err) ("from file: " +:+ path)), log)
      | inr config => mret (inr config, log)
      end
  end.

(** The function that [FromPath] passes to [filepath.Walk], on the
    captured variable [c]: it returns the error it was called with, does
    nothing for a directory, and otherwise parses the file and merges it
    into [c]. *)
Definition walkFn (path : string) (info : oserror + bool) (c : ptr Config)
  : M (option (load_error oserror) * ptr Config * list warning) :=
  match info with
  | inl err => mret (Some ([], OsError err), c, [])
  | inr true => mret (None, c, [])
  | inr false =>
      '(r, log) ← FromFile path;
      match r with
      | inl err => mret (Some err, c, log)
      | inr newConfig => c' ← Merge c newConfig; mret (None, c', log)
      end
  end.

(** [filepath.Walk] on the calls it makes: it stops at the first call
    that returns an error, and returns that error.  ([walkFn] never
    returns [filepath.SkipDir].) *)
Fixpoint Walk (visits : list (visit oserror)) (c : ptr Config)
    (log : list warning)
  : M (option (load_error oserror) * ptr Config * list warning) :=
  match visits with
  | [] => mret (None, c, log)
  | v :: rest =>
      '(err, c, log') ← walkFn (visit_path v) (visit_info v) c;
      match err with
      | Some e => mret (Some e, c, log ++ log')
      | None => Walk rest c (log ++ log')
      end
  end.

(** FromPath iterates and merges all configuration files in a given
    directory, returning the resulting config. *)
Definition FromPath (path : string)
  : M ((load_error oserror + ptr Config) * list warning) :=
  match Stat path with
  | inl err =>
      if IsNotExist err
      then mret (inl (Wrap ([], OsError err) ("missing file/folder: " +:+ path)), [])
      else mret (inl (Wrap ([], OsError err) ("failed stating file: " +:+ path)), [])
  | inr stat =>
      if IsDir stat then
        match ReadDir path with
        | Some err =>
            mret (inl (Wrap ([], OsError err) ("failed listing dir: " +:+ path)), [])
        | None =>
            '(err, c, log) ← Walk (walkVisits path) nil [];
            match err with
            | Some e => mret (inl (Wrap e "walk error"), log)
            | None => mret (inr c, log)
            end
        end
      else if IsRegular stat then FromFile path
      else mret (inl ([], UnknownFiletype (modeString stat)), [])
  end.

(** ** Vocabulary of the specifications *)

(** [p] is nil or addresses an object of the heap. *)
Definition valid {V} `{Region V} (h : heap) (p : ptr V) : bool :=
  match p with
  | nil => true
  | addr l => bool_decide (is_Some (region h !! l))
  end.

(** The object behind [p], when there is one. *)
Definition deref {V} `{Region V} (h : heap) (p : ptr V) : option V :=
  match p with
  | nil => None
  | addr l => region h !! l
  end.

(** [p] is nil or an address that [h] does not use: an object allocated
    after [h]. *)
Definition fresh_in {V} `{Region V} (h : heap) (p : ptr V) : Prop :=
  match p with
  | nil => True
  | addr l => region h !! l = None
  end.

(** The nested entities of a [Config] are objects of the heap. *)
Definition closed (h : heap) (cv : Config) : bool :=
  valid h (Consul cv) && valid h (Excludes cv) && valid h (Prefixes cv) &&
  valid h (Syslog cv) && valid h (Wait cv).

(** What [Merge] leaves behind a nested field: the receiver's contents
    overwritten by the argument's, by the entity's own merge. *)
Definition merged {V} `{Stanza V} (c o : option V) : option V :=
  match c, o with
  | Some a, Some b => Some (stanza_merge a b)
  | Some a, None => Some a
  | None, _ => o
  end.

(** Right bias on a pointer field: the argument's pointer when present. *)
Definition pick {V} (c o : ptr V) : ptr V := if is_nil o then c else o.

(** [r] is what an entity's [Copy] returns for [p]: nil for nil,
    otherwise a new object with the contents of [p]'s. *)
Definition copy_of {V} `{Region V} (h h' : heap) (p r : ptr V) : Prop :=
  deref h' r = deref h p ∧ fresh_in h r ∧ is_nil r = is_nil p.

(** [r] is what an entity's [Merge] returns for [c] and [o]. *)
Definition merge_of {V} `{Region V} `{Stanza V} (h h' : heap) (c o r : ptr V)
  : Prop :=
  deref h' r = merged (deref h c) (deref h o) ∧ fresh_in h r ∧
  is_nil r = is_nil c && is_nil o.

(** What [Copy] builds from the receiver [cv]. *)
Definition copied (h h' : heap) (cv o : Config) : Prop :=
  KillSignal o = KillSignal cv ∧ LogLevel o = LogLevel cv ∧
  MaxStale o = MaxStale cv ∧ PidFile o = PidFile cv ∧
  ReloadSignal o = ReloadSignal cv ∧ StatusDir o = StatusDir cv ∧
  copy_of h h' (Consul cv) (Consul o) ∧
  copy_of h h' (Excludes cv) (Excludes o) ∧
  copy_of h h' (Prefixes cv) (Prefixes o) ∧
  copy_of h h' (Syslog cv) (Syslog o) ∧
  copy_of h h' (Wait cv) (Wait o).

(** What [Merge] builds from the receiver [cv] and the argument [ov]. *)
Definition merged_config (h h' : heap) (cv ov r : Config) : Prop :=
  KillSignal r = pick (KillSignal cv) (KillSignal ov) ∧
  LogLevel r = pick (LogLevel cv) (LogLevel ov) ∧
  MaxStale r = pick (MaxStale cv) (MaxStale ov) ∧
  PidFile r = pick (PidFile cv) (PidFile ov) ∧
  ReloadSignal r = pick (ReloadSignal cv) (ReloadSignal ov) ∧
  StatusDir r = pick (StatusDir cv) (StatusDir ov) ∧
  merge_of h h' (Consul cv) (Consul ov) (Consul r) ∧
  merge_of h h' (Excludes cv) (Excludes ov) (Excludes r) ∧
  merge_of h h' (Prefixes cv) (Prefixes ov) (Prefixes r) ∧
  merge_of h h' (Syslog cv) (Syslog ov) (Syslog r) ∧
  merge_of h h' (Wait cv) (Wait ov) (Wait r).

(** Assigning through [p] in [h'] changes no object of [h]. *)
Definition independent {V} `{Region V} (h h' : heap) (p : ptr V) : Prop :=
  ∀ (x : V) h'', store p x h' = Done tt h'' → heap_incl h h''.

(** The string that [stringFromEnv] returns a pointer to. *)
Fixpoint envString (Getenv : string → string) (list : list string)
    (def : string) : string :=
  match list with
  | [] => def
  | s :: rest =>
      let v := Getenv s in
      if decide (v ≠ "") then TrimSpace v else envString Getenv rest def
  end.

(** What [Finalize] leaves in a field that held [p]: a non-nil pointer,
    and [p] itself when [p] was not nil. *)
Definition kept {V} (p r : ptr V) : Prop :=
  is_nil r = false ∧ (is_nil p = false → r = p).

(** ... and, for a scalar field that was nil, a new object holding the
    default [d]. *)
Definition defaulted {V} `{Region V} (h h' : heap) (d : V) (p r : ptr V)
  : Prop :=
  kept p r ∧ (is_nil p = true → fresh_in h r ∧ deref h' r = Some d).

(** What [Finalize] makes of the [Config] [cv]. *)
Definition finalized (Getenv : string → string) (h h' : heap)
    (cv cv' : Config) : Prop :=
  DestinationConsul cv' = DestinationConsul cv ∧
  kept (Consul cv) (Consul cv') ∧
  kept (Excludes cv) (Excludes cv') ∧
  kept (Prefixes cv) (Prefixes cv') ∧
  kept (Syslog cv) (Syslog cv') ∧
  kept (Wait cv) (Wait cv') ∧
  defaulted h h' DefaultKillSignal (KillSignal cv) (KillSignal cv') ∧
  defaulted h h'
    (envString Getenv ["CR_LOG"; "CONSUL_REPLICATE_LOG"] DefaultLogLevel)
    (LogLevel cv) (LogLevel cv') ∧
  defaulted h h' DefaultMaxStale (MaxStale cv) (MaxStale cv') ∧
  defaulted h h' "" (PidFile cv) (PidFile cv') ∧
  defaulted h h' DefaultReloadSignal (ReloadSignal cv) (ReloadSignal cv') ∧
  defaulted h h' DefaultStatusDir (StatusDir cv) (StatusDir cv').

(** What [Finalize] does to the objects [m] of a nested entity type
    through the field that held [p]: the field holds [p'], the address of
    the object of [p], or of a new object with the default contents when
    [p] was nil, and that object has been finalized; [m'] are the objects
    afterwards. *)
Definition finalizedStanza {V} `{Stanza V} (m m' : gmap loc V) (p p' : ptr V)
  : Prop :=
  ∃ q v, p' = addr q ∧ m' = <[q := stanza_finalize v]> m ∧
    match p with
    | nil => m !! q = None ∧ v = stanza_default
    | addr q0 => q = q0 ∧ m !! q = Some v
    end.

(** What [Finalize] does to the objects [m] of a scalar type through the
    field that held [p]: nothing when [p] was not nil, and otherwise the
    field holds the address of a new object holding [d]. *)
Definition defaultedScalar {V} (d : V) (m m' : gmap loc V) (p p' : ptr V)
  : Prop :=
  match p with
  | nil => ∃ q, p' = addr q ∧ m !! q = None ∧ m' = <[q := d]> m
  | addr _ => p' = p ∧ m' = m
  end.

(** The whole effect of [Finalize] on the heap, for the [Config] [cv] at
    [l]: the [Config] becomes [cv'], with the same DestinationConsul; each
    nested entity type has one object finalized; the strings are defaulted
    through LogLevel, then PidFile, then StatusDir, the signals through
    KillSignal, then ReloadSignal, the durations through MaxStale. *)
Definition finalizeEffect (Getenv : string → string) (l : loc) (h h' : heap)
    (cv cv' : Config) : Prop :=
  configs h' = <[l := cv']> (configs h) ∧
  DestinationConsul cv' = DestinationConsul cv ∧
  finalizedStanza (consuls h) (consuls h') (Consul cv) (Consul cv') ∧
  finalizedStanza (excludes h) (excludes h') (Excludes cv) (Excludes cv') ∧
  finalizedStanza (prefixes h) (prefixes h') (Prefixes cv) (Prefixes cv') ∧
  finalizedStanza (syslogs h) (syslogs h') (Syslog cv) (Syslog cv') ∧
  finalizedStanza (waits h) (waits h') (Wait cv) (Wait cv') ∧
  (∃ s1 s2,
     defaultedScalar
       (envString Getenv ["CR_LOG"; "CONSUL_REPLICATE_LOG"] DefaultLogLevel)
       (strings h) s1 (LogLevel cv) (LogLevel cv') ∧
     defaultedScalar "" s1 s2 (PidFile cv) (PidFile cv') ∧
     defaultedScalar DefaultStatusDir s2 (strings h')
       (StatusDir cv) (StatusDir cv')) ∧
  (∃ g1,
     defaultedScalar DefaultKillSignal (signals h) g1
       (KillSignal cv) (KillSignal cv') ∧
     defaultedScalar DefaultReloadSignal g1 (signals h')
       (ReloadSignal cv) (ReloadSignal cv')) ∧
  defaultedScalar DefaultMaxStale (durations h) (durations h')
    (MaxStale cv) (MaxStale cv').

(** The fields of the [Config] behind [c] as [Merge] sees them: a nil
    [*Config] has no field present. *)
Definition configOf (h : heap) (c : ptr Config) : option Config :=
  match c with
  | nil => Some zeroConfig
  | addr l => configs h !! l
  end.

(** [p] is the address of an object allocated after [h], holding [d]. *)
Definition newObject {V} `{Region V} (h h' : heap) (d : V) (p : ptr V)
  : Prop :=
  is_nil p = false ∧ fresh_in h p ∧ deref h' p = Some d.

(** What [TestConfig] leaves in a nested field for the argument's [p]: a
    new object holding the finalized merge of the default contents with
    the contents of [p]'s object, or the finalized default contents when
    [p] is nil. *)
Definition overDefault {V} `{Region V} `{Stanza V} (h h' : heap)
    (p r : ptr V) : Prop :=
  is_nil r = false ∧ fresh_in h r ∧
  deref h' r =
    Some (stanza_finalize
            match deref h p with
            | Some v => stanza_merge stanza_default v
            | None => stanza_default
            end).

(** [offending s name v path]: in the value [v], bound to the destination
    [s] under the dotted path [name], [path] is the dotted path of a key
    that corresponds to no field, at some depth: a key of a mapping bound
    to a struct that none of the struct's fields matches, or such a key in
    the value that one of the fields takes, or in an element of a
    sequence. *)
Inductive offending : schema → string → value → string → Prop :=
| offending_key fields name m k :
    k ∈ dom m → knownField fields k = false →
    offending (Struct fields) name (VMap m) (mapKeyOf name k)
| offending_field fields name m f k v path :
    f ∈ fields → lookupKey f.1 m = Some (k, v) →
    offending f.2 (mapKeyOf name f.1) v path →
    offending (Struct fields) name (VMap m) path
| offending_element elem name l v path :
    v ∈ l → offending elem name v path →
    offending (Slice elem) name (VList l) path
| offending_block elem name l m path :
    m ∈ l → offending elem name (VMap m) path →
    offending (Slice elem) name (VMaps l) path.

(** The errors [errs] hold what [invalidKeys] reports for the value that
    the field [f] takes in [parsed]. *)
Definition nestedErrors (parsed : gmap string value) (errs : list bind_error)
    (f : structField) : Prop :=
  ∀ k v e, lookupKey (mapstructure_tag f) parsed = Some (k, v) →
    e ∈ invalidKeys (fieldSchema f) (mapstructure_tag f) v → e ∈ errs.

(** A run of [m] from [h] returns, and its result and heap satisfy [Q]. *)
Definition wp {A} (m : M A) (h : heap) (Q : A → heap → Prop) : Prop :=
  match m h with
  | Done a h' => Q a h'
  | _ => False
  end.

End Model.

Arguments Done {_ _ _ _ _ _} a h.
Arguments NilDeref {_ _ _ _ _ _}.
Arguments Dangling {_ _ _ _ _ _}.

(** ** A concrete instance

    Modelled from the spec: small nested entity types after the spec's
    data model (connection parameters; an enabled flag and a facility;
    min/max timers; a set of key-prefix patterns; prefix jobs with a
    source and an optional destination), each field "independently
    present-or-absent", merged field by field with the right-hand side
    winning, the collections "wholesale-replaced", and finalized by
    filling the absent fields.  The theorems below hold for every
    instance; this one is where they are run. *)
Module Sample.

Definition right {A} (a b : option A) : option A :=
  match b with Some _ => b | None => a end.

Definition filled {A} (d : A) (a : option A) : option A :=
  match a with Some _ => a | None => Some d end.

Record ConsulConfig := mkConsul {
  Address : option string;
  Token : option string
}.

Record SyslogConfig := mkSyslog {
  Enabled : option bool;
  Facility : option string
}.

Record WaitConfig := mkWait {
  Min : option Duration;
  Max : option Duration
}.

Definition ExcludeConfigs := list string.

Record PrefixConfig := mkPrefix {
  Source : string;
  Destination : option string
}.

Definition PrefixConfigs := list PrefixConfig.

Global Instance consulStanza : Stanza ConsulConfig := {|
  stanza_default := mkConsul None None;
  stanza_merge a b :=
    mkConsul (right (Address a) (Address b)) (right (Token a) (Token b));
  stanza_finalize a := mkConsul (filled "" (Address a)) (filled "" (Token a))
|}.

Global Instance syslogStanza : Stanza SyslogConfig := {|
  stanza_default := mkSyslog None None;
  stanza_merge a b :=
    mkSyslog (right (Enabled a) (Enabled b)) (right (Facility a) (Facility b));
  stanza_finalize a :=
    mkSyslog (filled false (Enabled a)) (filled "LOCAL0" (Facility a))
|}.

Global Instance waitStanza : Stanza WaitConfig := {|
  stanza_default := mkWait None None;
  stanza_merge a b := mkWait (right (Min a) (Min b)) (right (Max a) (Max b));
  stanza_finalize a :=
    mkWait (filled (Nanoseconds 0) (Min a)) (filled (Nanoseconds 0) (Max a))
|}.

Global Instance excludesStanza : Stanza ExcludeConfigs := {|
  stanza_default := [];
  stanza_merge a b := b;
  stanza_finalize a := a
|}.

Global Instance prefixesStanza : Stanza PrefixConfigs := {|
  stanza_default := [];
  stanza_merge a b := b;
  stanza_finalize a :=
    (λ p, mkPrefix (Source p) (filled (Source p) (Destination p))) <$> a
|}.

(** Conversions of generic values, enough to run the binder. *)
Definition asString (v : value) : option string :=
  match v with VString s => Some s | _ => None end.

Global Instance stringDecode : Decodable string := asString.

Global Instance signalDecode : Decodable Signal := λ v,
  match v with
  | VString "SIGHUP" => Some SIGHUP
  | VString "SIGINT" => Some SIGINT
  | _ => None
  end.

Global Instance durationDecode : Decodable Duration := λ v,
  match v with VInt n => Some (Nanoseconds n) | _ => None end.

(** The tagged fields of the nested entity types; a mapping with any
    other key is not converted. *)
Definition consulFields : list (string * schema) :=
  [("address", Leaf); ("token", Leaf);
   ("auth", Struct [("enabled", Leaf); ("username", Leaf); ("password", Leaf)]);
   ("retry", Struct [("enabled", Leaf); ("attempts", Leaf);
                     ("backoff", Leaf); ("max_backoff", Leaf)]);
   ("ssl", Struct [("enabled", Leaf); ("verify", Leaf); ("cert", Leaf);
                   ("key", Leaf); ("ca_cert", Leaf)]);
   ("transport", Struct [("dial_timeout", Leaf); ("max_idle_conns", Leaf)])].

Definition syslogFields : list (string * schema) :=
  [("enabled", Leaf); ("facility", Leaf)].

Definition waitFields : list (string * schema) :=
  [("min", Leaf); ("max", Leaf)].

Definition prefixFields : list (string * schema) :=
  [("source", Leaf); ("destination", Leaf)].

Global Instance consulSchema : Schema ConsulConfig := Struct consulFields.
Global Instance syslogSchema : Schema SyslogConfig := Struct syslogFields.
Global Instance waitSchema : Schema WaitConfig := Struct waitFields.
Global Instance excludesSchema : Schema ExcludeConfigs := Slice Leaf.
Global Instance prefixesSchema : Schema PrefixConfigs :=
  Slice (Struct prefixFields).

Definition onlyKeys (fields : list (string * schema)) (m : gmap string value)
  : bool :=
  bool_decide (dom m ⊆ list_to_set fields.*1).

Global Instance consulDecode : Decodable ConsulConfig := λ v,
  match v with
  | VString s => Some (mkConsul (Some s) None)
  | VMap m =>
      if onlyKeys consulFields m
      then Some (mkConsul (m !! "address" ≫= asString)
                          (m !! "token" ≫= asString))
      else None
  | _ => None
  end.

Global Instance syslogDecode : Decodable SyslogConfig := λ v,
  match v with
  | VMap m =>
      if onlyKeys syslogFields m
      then Some (mkSyslog
                   (m !! "enabled" ≫= λ e,
                      match e with VBool b => Some b | _ => None end)
                   (m !! "facility" ≫= asString))
      else None
  | _ => None
  end.

Global Instance waitDecode : Decodable WaitConfig := λ v,
  match v with
  | VMap m =>
      if onlyKeys waitFields m
      then Some (mkWait (m !! "min" ≫= decodeValue) (m !! "max" ≫= decodeValue))
      else None
  | _ => None
  end.

Global Instance excludesDecode : Decodable ExcludeConfigs := λ v,
  match v with
  | VString s => Some [s]
  | VList l => mapM asString l
  | _ => None
  end.

Global Instance prefixesDecode : Decodable PrefixConfigs := λ v,
  match v with
  | VString s => Some [mkPrefix s None]
  | VMaps l =>
      mapM (λ m, if onlyKeys prefixFields m
                 then s ← m !! "source" ≫= asString;
                      Some (mkPrefix s (m !! "destination" ≫= asString))
                 else None) l
  | _ => None
  end.

(** [strings.TrimSpace] and [strings.EqualFold] on ASCII strings. *)
Fixpoint trimLeft (s : string) : string :=
  match s with
  | String.String a s' => if Ascii.is_space a then trimLeft s' else s
  | EmptyString => EmptyString
  end.

Definition TrimSpace (s : string) : string :=
  String.rev (trimLeft (String.rev (trimLeft s))).

Definition lower (a : Ascii.ascii) : Ascii.ascii :=
  let n := Ascii.N_of_ascii a in
  if (65 <=? n)%N && (n <=? 90)%N then Ascii.ascii_of_N (n + 32) else a.

Fixpoint EqualFold (s t : string) : bool :=
  match s, t with
  | EmptyString, EmptyString => true
  | String.String a s', String.String b t' =>
      bool_decide (lower a = lower b) && EqualFold s' t'
  | _, _ => false
  end.

(** A regular expression with the two named groups key and value around
    an equals sign, as the library reports it: its group names, and its one
    match on a string with an equals sign (the whole match, then the two
    groups). *)
Fixpoint splitEq (s : string) : option (string * string) :=
  match s with
  | EmptyString => None
  | String.String a s' =>
      if Ascii.eqb a (Ascii.ascii_of_nat 61) then Some (EmptyString, s')
      else match splitEq s' with
           | Some (k, v) => Some (String.String a k, v)
           | None => None
           end
  end.

Definition SubexpNames (re : unit) : list string := [""; "key"; "value"].

Definition FindAllStringSubmatch (re : unit) (q : string) (n : Z)
  : list (list string) :=
  match splitEq q with
  | Some (k, v) => [[q; k; v]]
  | None => []
  end.

(** The environment with only [name] set, to [v]. *)
Definition env (name v : string) : string → string :=
  λ s, if decide (s = name) then v else "".

(** A small file system: the directory /etc/replicate.d with the one file
    base.hcl, the empty directory /etc/empty.d, and the directory
    /etc/locked.d whose first file cannot be read; and the markup decoder
    on the text of base.hcl. *)
Inductive oserror := ENOENT | EACCES.

Inductive FileMode := ModeDir | ModeRegular | ModeDevice.

Definition IsNotExist (err : oserror) : bool :=
  match err with ENOENT => true | EACCES => false end.

Definition IsDir (m : FileMode) : bool :=
  match m with ModeDir => true | _ => false end.

Definition IsRegular (m : FileMode) : bool :=
  match m with ModeRegular => true | _ => false end.

Definition modeString (m : FileMode) : string :=
  match m with
  | ModeDir => "drwxr-xr-x"
  | ModeRegular => "-rw-r--r--"
  | ModeDevice => "Drw-r--r--"
  end.

Definition directories : list string :=
  ["/etc/replicate.d"; "/etc/empty.d"; "/etc/locked.d"].

Definition files : list string :=
  ["/etc/replicate.d/base.hcl"; "/etc/locked.d/a.hcl"; "/etc/locked.d/b.hcl"].

Definition Stat (path : string) : oserror + FileMode :=
  if decide (path ∈ directories) then inr ModeDir
  else if decide (path ∈ files) then inr ModeRegular
  else inl ENOENT.

Definition ReadDir (path : string) : option oserror :=
  if decide (path ∈ directories) then None else Some ENOENT.

Definition baseText : string := "consul = consul-a:8500, log_level = INFO".

Definition ReadFile (path : string) : oserror + string :=
  if decide (path = "/etc/replicate.d/base.hcl") then inr baseText
  else if decide (path ∈ files) then inl EACCES
  else inl ENOENT.

Definition walkVisits (path : string) : list (visit oserror) :=
  if decide (path = "/etc/replicate.d") then
    [mkVisit "/etc/replicate.d" (inr true);
     mkVisit "/etc/replicate.d/base.hcl" (inr false)]
  else if decide (path = "/etc/empty.d") then
    [mkVisit "/etc/empty.d" (inr true)]
  else if decide (path = "/etc/locked.d") then
    [mkVisit "/etc/locked.d" (inr true);
     mkVisit "/etc/locked.d/a.hcl" (inr false);
     mkVisit "/etc/locked.d/b.hcl" (inr false)]
  else [mkVisit path (inl ENOENT)].

Definition hclDecode (s : string) : option value :=
  if decide (s = baseText)
  then Some (VMap {[ "consul" := VString "consul-a:8500";
                     "log_level" := VString "INFO" ]})
  else None.

End Sample.

Abbreviation sampleConfig :=
  (@Config Sample.ConsulConfig Sample.ExcludeConfigs Sample.PrefixConfigs
     Sample.SyslogConfig Sample.WaitConfig).
Abbreviation sampleHeap :=
  (@heap Sample.ConsulConfig Sample.ExcludeConfigs Sample.PrefixConfigs
     Sample.SyslogConfig Sample.WaitConfig).
Abbreviation sampleM :=
  (@M Sample.ConsulConfig Sample.ExcludeConfigs Sample.PrefixConfigs
     Sample.SyslogConfig Sample.WaitConfig).
Abbreviation sampleSchema :=
  (@configSchema Sample.ConsulConfig Sample.ExcludeConfigs
     Sample.PrefixConfigs Sample.SyslogConfig Sample.WaitConfig
     Sample.consulSchema Sample.excludesSchema Sample.prefixesSchema
     Sample.syslogSchema Sample.waitSchema).

(** Two configurations and an empty one on a heap, programs that assign
    through the result of [Copy] and of [Merge], and decoded mappings. *)
Definition sample_consulA : Sample.ConsulConfig :=
  Sample.mkConsul (Some "consul-a:8500") None.

Definition sample_consulB : Sample.ConsulConfig :=
  Sample.mkConsul None (Some "abc").

(** [&Config{Consul: ..., LogLevel: String("INFO")}] *)
Definition sample_configA : sampleConfig :=
  mkConfig (addr 1) nil nil nil (addr 1) nil nil nil nil nil nil nil.

(** [&Config{Consul: ..., DestinationConsul: ..., PidFile: String(...)}] *)
Definition sample_configB : sampleConfig :=
  mkConfig (addr 2) (addr 1) nil nil nil nil (addr 2) nil nil nil nil nil.

Definition sample_heap : sampleHeap :=
  mkHeap {[ 1%positive := sample_configA; 2%positive := sample_configB;
            3%positive := zeroConfig ]}
         {[ 1%positive := sample_consulA; 2%positive := sample_consulB ]}
         ∅ ∅ ∅ ∅
         {[ 1%positive := "INFO"; 2%positive := "/var/run/replicate.pid" ]}
         ∅ ∅.

(** [r := a.Copy(); *r.LogLevel = "ERR"; return *a.LogLevel] *)
Definition sample_assign_through_copy : sampleM string :=
  r ← Copy (addr 1);
  rc ← load r;
  store (LogLevel rc) "ERR";;
  ac ← load (addr 1);
  load (LogLevel ac).

(** [r := a.Merge(&Config{}); *r.LogLevel = "ERR"; return *a.LogLevel] *)
Definition sample_assign_through_merge : sampleM string :=
  r ← Merge (addr 1) (addr 3);
  rc ← load r;
  store (LogLevel rc) "ERR";;
  ac ← load (addr 1);
  load (LogLevel ac).

Definition sample_bogus : gmap string value := {[ "bogus" := VInt 1 ]}.

(** [consul { address = "consul-a:8500"  bogus = 1 }] *)
Definition sample_nested_bogus : gmap string value :=
  {[ "consul" := VMaps [ {[ "address" := VString "consul-a:8500";
                            "bogus" := VInt 1 ]} ] ]}.

Definition sample_path : gmap string value :=
  {[ "path" := VString "/etc/replicate.d" ]}.

Definition sample_retry : gmap string value :=
  {[ "retry" := VString "10s";
     "consul" := VMaps [ {[ "address" := VString "consul-a:8500" ]} ] ]}.

Definition sample_nested : gmap string value :=
  {[ "consul" :=
       VMap {[ "retry" := VMaps [ {[ "backoff" := VString "1s" ]} ] ]} ]}.

(** [token = "abc"] beside [consul { token = "old" }], and beside
    [consul = "consul-a:8500"]. *)
Definition sample_token : gmap string value :=
  {[ "token" := VString "abc";
     "consul" := VMaps [ {[ "token" := VString "old";
                            "address" := VString "consul-a:8500" ]} ] ]}.

Definition sample_scalar_consul : gmap string value :=
  {[ "token" := VString "abc"; "consul" := VString "consul-a:8500" ]}.

(** The configuration that [Parse] builds from the text of base.hcl, and
    the heap it leaves. *)
Definition sample_parsed_config : sampleConfig :=
  mkConfig (addr 1) (addr 2) nil nil (addr 1) nil nil nil nil nil nil nil.

Definition sample_parsed_heap : sampleHeap :=
  match Parse Sample.EqualFold Sample.hclDecode Sample.baseText emptyHeap with
  | Done _ h => h
  | _ => emptyHeap
  end.

Abbreviation sampleFromPath :=
  (FromPath Sample.EqualFold Sample.hclDecode Sample.IsNotExist Sample.Stat
     Sample.IsDir Sample.IsRegular Sample.modeString Sample.ReadDir
     Sample.ReadFile Sample.walkVisits).

(** * Properties *)

Section Properties.

Context {ConsulConfig ExcludeConfigs PrefixConfigs SyslogConfig WaitConfig : Type}.
Context {consulStanza : Stanza ConsulConfig}
        {excludesStanza : Stanza ExcludeConfigs}
        {prefixesStanza : Stanza PrefixConfigs}
        {syslogStanza : Stanza SyslogConfig}
        {waitStanza : Stanza WaitConfig}.

Abbreviation Config := (@Config ConsulConfig ExcludeConfigs PrefixConfigs SyslogConfig WaitConfig).
Abbreviation heap := (@heap ConsulConfig ExcludeConfigs PrefixConfigs SyslogConfig WaitConfig).
Abbreviation M := (@M ConsulConfig ExcludeConfigs PrefixConfigs SyslogConfig WaitConfig).
Abbreviation Region := (@Region ConsulConfig ExcludeConfigs PrefixConfigs SyslogConfig WaitConfig).
Abbreviation Pointee := (@Pointee ConsulConfig ExcludeConfigs PrefixConfigs SyslogConfig WaitConfig).
Abbreviation StanzaRegion := (@StanzaRegion ConsulConfig ExcludeConfigs PrefixConfigs SyslogConfig WaitConfig).
Abbreviation ScalarRegion := (@ScalarRegion ConsulConfig ExcludeConfigs PrefixConfigs SyslogConfig WaitConfig).
Abbreviation RegionFrame := (@RegionFrame ConsulConfig ExcludeConfigs PrefixConfigs SyslogConfig WaitConfig).

Context {consulDecode : Decodable ConsulConfig}
        {excludesDecode : Decodable ExcludeConfigs}
        {prefixesDecode : Decodable PrefixConfigs}
        {syslogDecode : Decodable SyslogConfig}
        {waitDecode : Decodable WaitConfig}
        {stringDecode : Decodable string}
        {signalDecode : Decodable Signal}
        {durationDecode : Decodable Duration}.
Context {consulSchema : Schema ConsulConfig}
        {excludesSchema : Schema ExcludeConfigs}
        {prefixesSchema : Schema PrefixConfigs}
        {syslogSchema : Schema SyslogConfig}
        {waitSchema : Schema WaitConfig}.
Variable TrimSpace : string → string.
Variable EqualFold : string → string → bool.

Abbreviation fieldSchema :=
  (@fieldSchema ConsulConfig ExcludeConfigs PrefixConfigs SyslogConfig
     WaitConfig consulSchema excludesSchema prefixesSchema syslogSchema
     waitSchema).
Abbreviation configSchema :=
  (@configSchema ConsulConfig ExcludeConfigs PrefixConfigs SyslogConfig
     WaitConfig consulSchema excludesSchema prefixesSchema syslogSchema
     waitSchema).
Abbreviation nestedErrors :=
  (@nestedErrors ConsulConfig ExcludeConfigs PrefixConfigs SyslogConfig
     WaitConfig consulSchema excludesSchema prefixesSchema syslogSchema
     waitSchema).

(** ** The weakest-precondition rules *)

Lemma wp_elim {A} (m : M A) h Q :
  wp m h Q → ∃ a h', m h = Done a h' ∧ Q a h'.
Proof. unfold wp. destruct (m h); naive_solver. Qed.

Lemma wp_intro {A} (m : M A) h a h' (Q : A → heap → Prop) :
  m h = Done a h' → Q a h' → wp m h Q.
Proof. unfold wp. by intros ->. Qed.

Lemma wp_ret {A} (a : A) (h : heap) (Q : A → heap → Prop) :
  Q a h → wp (mret a) h Q.
Proof. done. Qed.

Lemma wp_bind {A B} (m : M A) (f : A → M B) h Q :
  wp m h (λ a h', wp (f a) h' Q) → wp (m ≫= f) h Q.
Proof. unfold wp, mbind, M_bind. by destruct (m h). Qed.

Lemma wp_mono {A} (m : M A) h (Q Q' : A → heap → Prop) :
  wp m h Q → (∀ a h', Q a h' → Q' a h') → wp m h Q'.
Proof. unfold wp. destruct (m h); naive_solver. Qed.

Lemma wp_load {V} {RV : Region V} (l : loc) (v : V) h Q :
  region h !! l = Some v → Q v h → wp (load (addr l)) h Q.
Proof. unfold wp, load. by intros ->. Qed.

Lemma wp_store {V} {RV : Region V} (l : loc) (v : V) h Q :
  is_Some (region h !! l) →
  Q tt (set_region (<[l:=v]> (region h)) h) →
  wp (store (addr l) v) h Q.
Proof. unfold wp, store. by intros [? ->]. Qed.

Lemma wp_new {V} {RV : Region V} (v : V) h (Q : ptr V → heap → Prop) :
  (∀ l, region h !! l = None → Q (addr l) (set_region (<[l:=v]> (region h)) h)) →
  wp (new v) h Q.
Proof.
  intros HQ. unfold wp, new. apply HQ.
  apply (not_elem_of_dom (D:=gset loc)), is_fresh.
Qed.

Lemma heap_incl_refl (h : heap) : heap_incl h h.
Proof. by repeat split. Qed.

Lemma heap_incl_trans (h1 h2 h3 : heap) :
  heap_incl h1 h2 → heap_incl h2 h3 → heap_incl h1 h3.
Proof.
  intros (?&?&?&?&?&?&?&?&?) (?&?&?&?&?&?&?&?&?).
  repeat split; by etrans.
Qed.

Lemma heap_incl_lookup {V} {RV : Region V} (h h' : heap) l (v : V) :
  heap_incl h h' → region h !! l = Some v → region h' !! l = Some v.
Proof. intros Hi Hl. eapply lookup_weaken; [exact Hl|]. by apply region_incl. Qed.

Lemma heap_incl_deref {V} {RV : Region V} (h h' : heap) (p : ptr V) v :
  heap_incl h h' → deref h p = Some v → deref h' p = Some v.
Proof. destruct p; [done|]. apply heap_incl_lookup. Qed.

Lemma heap_incl_alloc {V} {RV : Region V} (h : heap) l (v : V) :
  region h !! l = None → heap_incl h (set_region (<[l:=v]> (region h)) h).
Proof.
  intros. apply set_region_incl; [by repeat split|by apply insert_subseteq].
Qed.

Lemma valid_deref {V} {RV : Region V} (h : heap) (p : ptr V) :
  valid h p → p = nil ∨ ∃ l v, p = addr l ∧ region h !! l = Some v.
Proof.
  destruct p as [|l]; [by left|]. cbn. intros [v Hv]%bool_decide_unpack.
  right. eauto.
Qed.

Lemma valid_incl {V} {RV : Region V} (h h' : heap) (p : ptr V) :
  heap_incl h h' → valid h p → valid h' p.
Proof.
  intros Hi [->|(l&v&->&Hl)]%valid_deref; [done|].
  cbn. apply bool_decide_pack. exists v. by eapply heap_incl_lookup.
Qed.

Lemma closed_incl (h h' : heap) (cv : Config) :
  heap_incl h h' → closed h cv → closed h' cv.
Proof.
  unfold closed. intros Hi.
  rewrite !andb_True. intros ((((?&?)&?)&?)&?).
  repeat split; by eapply valid_incl.
Qed.

Lemma fresh_in_incl {V} {RV : Region V} (h h' : heap) (p : ptr V) :
  heap_incl h h' → fresh_in h' p → fresh_in h p.
Proof.
  destruct p as [|l]; [done|]. cbn. intros Hi Hl.
  destruct (region h !! l) as [v|] eqn:E; [|done].
  by rewrite (heap_incl_lookup _ _ _ _ Hi E) in Hl.
Qed.

Lemma deref_valid_incl {V} {RV : Region V} (h h' : heap) (p : ptr V) :
  heap_incl h h' → valid h p → deref h' p = deref h p.
Proof.
  intros Hi [->|(l&v&->&Hl)]%valid_deref; [done|].
  cbn. rewrite Hl. by eapply heap_incl_lookup.
Qed.

Lemma fresh_in_valid_ne {V} {RV : Region V} (h : heap) (p r : ptr V) :
  valid h p → fresh_in h r → is_nil r = false → r ≠ p.
Proof.
  intros [->|(l&v&->&Hl)]%valid_deref; destruct r as [|q]; try done.
  cbn. intros Hq _ [= ->]. congruence.
Qed.

(** ** The nested entities' operations *)

Lemma wp_stanzaCopy {V} {RV : Region V} (p : ptr V) (h : heap) :
  valid h p →
  wp (stanzaCopy p) h (λ r h', heap_incl h h' ∧ copy_of h h' p r).
Proof.
  intros [->|(l&v&->&Hl)]%valid_deref.
  - apply wp_ret. split; [apply heap_incl_refl|done].
  - cbn. apply wp_bind. eapply wp_load; [done|]. apply wp_new.
    intros q Hq. split; [by apply heap_incl_alloc|].
    split_and!; [|done..]. cbn. by rewrite region_set, lookup_insert_eq.
Qed.

Lemma wp_stanzaMerge {V} {RV : Region V} {SV : Stanza V} (c o : ptr V) (h : heap) :
  valid h c → valid h o →
  wp (stanzaMerge c o) h (λ r h', heap_incl h h' ∧ merge_of h h' c o r).
Proof.
  intros Hc Ho.
  destruct (valid_deref _ _ Hc) as [->|(lc&vc&->&Hlc)];
    destruct (valid_deref _ _ Ho) as [->|(lo&vo&->&Hlo)].
  - apply wp_ret. split; [apply heap_incl_refl|done].
  - eapply wp_mono; [by apply (wp_stanzaCopy (addr lo))|].
    intros r h' (?&Hd&?&?). split; [done|]. split_and!; try done.
  - eapply wp_mono; [by apply (wp_stanzaCopy (addr lc))|].
    intros r h' (?&Hd&?&?). split; [done|]. split_and!; try done.
    rewrite Hd. cbn. by rewrite Hlc.
  - unfold stanzaMerge, stanzaCopy.
    apply wp_bind, wp_bind. eapply wp_load; [done|]. apply wp_new.
    intros q Hq. assert (q ≠ lo) by congruence.
    apply wp_bind. eapply wp_load; [by rewrite region_set, lookup_insert_eq|].
    apply wp_bind. eapply wp_load; [by rewrite region_set, lookup_insert_ne|].
    apply wp_bind. apply wp_store; [by rewrite region_set, lookup_insert_eq|].
    apply wp_ret. rewrite region_set, set_region_set, insert_insert_eq.
    split; [by apply heap_incl_alloc|]. split_and!; [|done..].
    cbn. by rewrite region_set, lookup_insert_eq, Hlc, Hlo.
Qed.

Lemma copy_of_frame {V} {RV : Region V} (h0 h h' h'' : heap) (p r : ptr V) :
  heap_incl h0 h → heap_incl h' h'' → valid h0 p →
  copy_of h h' p r → copy_of h0 h'' p r.
Proof.
  intros H0 H2 Hp (Hd&Hf&Hn). split_and!; [|by eapply fresh_in_incl|done].
  rewrite (deref_valid_incl _ _ _ H0 Hp) in Hd.
  destruct (valid_deref _ _ Hp) as [->|(l&v&->&Hl)].
  - by destruct r.
  - cbn in Hd. rewrite Hl in Hd. cbn. rewrite Hl. by eapply heap_incl_deref.
Qed.

(** ** [Copy] *)

Lemma wp_copyInto {V} {RV : Region V} (p : ptr V)
    (with_F : ptr V → Config → Config) (o : Config) (h : heap) :
  valid h p → with_F nil o = o →
  wp (copyInto p with_F o) h
     (λ o' h', heap_incl h h' ∧ ∃ r, o' = with_F r o ∧ copy_of h h' p r).
Proof.
  intros Hp Hid. unfold copyInto. destruct p as [|l]; cbn [is_nil].
  - apply wp_ret. split; [apply heap_incl_refl|]. by exists nil.
  - apply wp_bind. eapply wp_mono; [by apply wp_stanzaCopy|].
    intros r h' (?&?). apply wp_ret. eauto.
Qed.

Local Ltac fields :=
  cbn [DestinationConsul KillSignal LogLevel MaxStale PidFile
       ReloadSignal StatusDir Consul Excludes Prefixes Syslog Wait
       with_Consul with_Excludes with_KillSignal with_LogLevel with_MaxStale
       with_PidFile with_Prefixes with_ReloadSignal with_StatusDir with_Syslog
       with_Wait zeroConfig] in *.

Lemma wp_Copy (l : loc) (cv : Config) (h : heap) :
  configs h !! l = Some cv → closed h cv →
  wp (Copy (addr l)) h (λ r h',
    ∃ l' o, r = addr l' ∧ configs h !! l' = None ∧
      configs h' !! l' = Some o ∧ heap_incl h h' ∧
      DestinationConsul o = nil ∧ copied h h' cv o).
Proof.
  intros Hl Hcl. unfold closed in Hcl.
  rewrite !andb_True in Hcl. destruct Hcl as ((((V1&V2)&V3)&V4)&V5).
  unfold Copy. apply wp_bind. eapply (wp_load (RV:=configRegion)); [exact Hl|].
  destruct cv as [c1 c2 c3 c4 c5 c6 c7 c8 c9 c10 c11 c12]. fields.
  apply wp_bind. eapply wp_mono; [apply wp_copyInto; [exact V1|reflexivity]|].
  intros ? h1 (I1&r1&->&C1). fields.
  apply wp_bind. eapply wp_mono;
    [apply wp_copyInto; [exact (valid_incl _ _ _ I1 V2)|reflexivity]|].
  intros ? h2 (I2&r2&->&C2). fields.
  pose proof (heap_incl_trans _ _ _ I1 I2) as J2.
  apply wp_bind. eapply wp_mono;
    [apply wp_copyInto; [exact (valid_incl _ _ _ J2 V3)|reflexivity]|].
  intros ? h3 (I3&r3&->&C3). fields.
  pose proof (heap_incl_trans _ _ _ J2 I3) as J3.
  apply wp_bind. eapply wp_mono;
    [apply wp_copyInto; [exact (valid_incl _ _ _ J3 V4)|reflexivity]|].
  intros ? h4 (I4&r4&->&C4). fields.
  pose proof (heap_incl_trans _ _ _ J3 I4) as J4.
  apply wp_bind. eapply wp_mono;
    [apply wp_copyInto; [exact (valid_incl _ _ _ J4 V5)|reflexivity]|].
  intros ? h5 (I5&r5&->&C5). fields.
  pose proof (heap_incl_trans _ _ _ J4 I5) as J5.
  apply (wp_new (RV:=configRegion)). intros l' Hl'.
  match goal with |- context [set_region ?m h5] =>
    assert (heap_incl h5 (set_region m h5)) as K5
      by (by apply (heap_incl_alloc (RV:=configRegion)))
  end.
  pose proof (heap_incl_trans _ _ _ I5 K5) as K4.
  pose proof (heap_incl_trans _ _ _ I4 K4) as K3.
  pose proof (heap_incl_trans _ _ _ I3 K3) as K2.
  pose proof (heap_incl_trans _ _ _ I2 K2) as K1.
  eexists l', _. split_and!; [reflexivity| | | | |].
  - destruct (configs h !! l') eqn:E; [|reflexivity].
    by rewrite (heap_incl_lookup (RV:=configRegion) _ _ _ _ J5 E) in Hl'.
  - cbn. apply lookup_insert_eq.
  - exact (heap_incl_trans _ _ _ J5 K5).
  - reflexivity.
  - unfold copied. fields. split_and!; try reflexivity.
    + exact (copy_of_frame _ _ _ _ _ _ (heap_incl_refl h) K1 V1 C1).
    + exact (copy_of_frame _ _ _ _ _ _ I1 K2 V2 C2).
    + exact (copy_of_frame _ _ _ _ _ _ J2 K3 V3 C3).
    + exact (copy_of_frame _ _ _ _ _ _ J3 K4 V4 C4).
    + exact (copy_of_frame _ _ _ _ _ _ J4 K5 V5 C5).
Qed.

(** ** [Merge] *)

Lemma heap_step_refl l (h : heap) : heap_step l h h.
Proof. by repeat split. Qed.

Lemma heap_step_trans l (h1 h2 h3 : heap) :
  heap_step l h1 h2 → heap_step l h2 h3 → heap_step l h1 h3.
Proof.
  intros (C1&?&?&?&?&?&?&?&?) (C2&?&?&?&?&?&?&?&?).
  split; [by eauto|]. repeat split; by etrans.
Qed.

Lemma heap_incl_step l (h h' : heap) : heap_incl h h' → heap_step l h h'.
Proof.
  intros (C&?&?&?&?&?&?&?&?). split; [|done].
  intros l' cv _ Hl'. by eapply lookup_weaken.
Qed.

Lemma heap_step_assign l (cv : Config) (h : heap) :
  heap_step l h (set_region (<[l:=cv]> (configs h)) h).
Proof.
  split; [|by repeat split]. intros l' cv' Hne Hl'. cbn.
  by rewrite lookup_insert_ne.
Qed.

Lemma heap_incl_of_step l (h0 h h' : heap) :
  configs h0 !! l = None → heap_incl h0 h → heap_step l h h' →
  heap_incl h0 h'.
Proof.
  intros Hl (C&?&?&?&?&?&?&?&?) (C'&?&?&?&?&?&?&?&?).
  split; [|repeat split; by etrans].
  apply map_subseteq_spec. intros l' cv Hl'. apply C'.
  - intros ->. congruence.
  - by eapply lookup_weaken.
Qed.

Lemma wp_field {A} (l : loc) (cv : Config) (F : Config → A) (h : heap)
    (Q : A → heap → Prop) :
  configs h !! l = Some cv → Q (F cv) h → wp (field (addr l) F) h Q.
Proof.
  intros Hl HQ. unfold field. apply wp_bind.
  eapply (wp_load (RV:=configRegion)); [exact Hl|]. by apply wp_ret.
Qed.

Lemma wp_assign {A} (l : loc) (cv : Config) (with_F : A → Config → Config)
    (p : A) (h : heap) (Q : unit → heap → Prop) :
  configs h !! l = Some cv →
  Q tt (set_region (<[l:=with_F p cv]> (configs h)) h) →
  wp (assign (addr l) with_F p) h Q.
Proof.
  intros Hl HQ. unfold assign. apply wp_bind.
  eapply (wp_load (RV:=configRegion)); [exact Hl|].
  by apply (wp_store (RV:=configRegion)).
Qed.

Lemma wp_overwriteField {V} (lr lo : loc) (rv ov : Config)
    (F : Config → ptr V) (with_F : ptr V → Config → Config) (h : heap) :
  configs h !! lr = Some rv → configs h !! lo = Some ov →
  with_F (F rv) rv = rv →
  wp (overwriteField (addr lr) (addr lo) F with_F) h (λ _ h',
    heap_step lr h h' ∧
    configs h' !! lr = Some (with_F (pick (F rv) (F ov)) rv)).
Proof.
  intros Hr Ho Hid. unfold overwriteField, pick.
  apply wp_bind. eapply wp_field; [exact Ho|].
  destruct (is_nil (F ov)).
  - apply wp_ret. split; [apply heap_step_refl|]. by rewrite Hid.
  - eapply wp_assign; [exact Hr|]. split; [apply heap_step_assign|].
    cbn. apply lookup_insert_eq.
Qed.

Lemma merged_None_r {V} {SV : Stanza V} (x : option V) : merged x None = x.
Proof. by destruct x. Qed.

Lemma wp_mergeField {V} {RV : Region V} {PV : Pointee V} {SV : Stanza V}
    (lr lo : loc) (rv ov : Config)
    (F : Config → ptr V) (with_F : ptr V → Config → Config) (h : heap) :
  configs h !! lr = Some rv → configs h !! lo = Some ov →
  with_F (F rv) rv = rv → valid h (F rv) → valid h (F ov) →
  wp (mergeField (addr lr) (addr lo) F with_F) h (λ _ h',
    heap_step lr h h' ∧ ∃ m,
      configs h' !! lr = Some (with_F m rv) ∧
      deref h' m = merged (deref h (F rv)) (deref h (F ov)) ∧
      (m = F rv ∨ fresh_in h m) ∧
      is_nil m = is_nil (F rv) && is_nil (F ov)).
Proof.
  intros Hr Ho Hid Vr Vo. unfold mergeField.
  apply wp_bind. eapply wp_field; [exact Ho|].
  destruct (F ov) as [|po] eqn:EF; cbn [is_nil].
  - apply wp_ret. split; [apply heap_step_refl|]. exists (F rv).
    rewrite Hid, andb_true_r. split_and!; try done; [|by left].
    cbn. by rewrite merged_None_r.
  - apply wp_bind. eapply wp_field; [exact Hr|].
    apply wp_bind. eapply wp_mono; [by apply wp_stanzaMerge|].
    intros m hm (Im&Hd&Hf&Hn).
    eapply wp_assign; [by eapply (heap_incl_lookup (RV:=configRegion))|].
    split.
    { eapply heap_step_trans; [by apply heap_incl_step|].
      apply heap_step_assign. }
    exists m. split_and!; [cbn; apply lookup_insert_eq| |by right|done].
    destruct m as [|q]; [done|]. cbn [deref]. by rewrite config_frame.
Qed.

Lemma valid_copy {V} {RV : Region V} (h0 h1 hi : heap) (c rc : ptr V) :
  valid h0 c → heap_incl h0 h1 → copy_of h0 h1 c rc →
  region h1 ⊆ region hi → valid hi rc.
Proof.
  intros [->|(l&v&->&Hl)]%valid_deref I01 (Hd&_&Hn) Hi;
    destruct rc as [|q]; try done.
  cbn in Hd. rewrite Hl in Hd. cbn. apply bool_decide_pack. exists v.
  by eapply lookup_weaken.
Qed.

Lemma valid_later {V} {RV : Region V} (h0 h1 hi : heap) (o : ptr V) :
  valid h0 o → heap_incl h0 h1 → region h1 ⊆ region hi → valid hi o.
Proof.
  intros [->|(l&v&->&Hl)]%valid_deref I01 Hi; [done|].
  cbn. apply bool_decide_pack. exists v.
  eapply lookup_weaken; [|exact Hi]. by eapply heap_incl_lookup.
Qed.

Lemma merge_of_final {V} {RV : Region V} {SV : Stanza V}
    (h0 h1 hi hi' hf : heap) (c o rc m : ptr V) :
  heap_incl h0 h1 → region h1 ⊆ region hi → region hi' ⊆ region hf →
  valid h0 c → valid h0 o → copy_of h0 h1 c rc →
  deref hi' m = merged (deref hi rc) (deref hi o) →
  (m = rc ∨ fresh_in hi m) →
  is_nil m = is_nil rc && is_nil o →
  merge_of h0 hf c o m.
Proof.
  intros I01 H1i Hif Vc Vo (Hd&Hfr&Hn) Dm Fm Nm.
  assert (region h0 ⊆ region hi) as H0i by (etrans; [by apply region_incl|done]).
  assert (deref hi rc = deref h0 c) as Erc.
  { destruct (valid_deref _ _ Vc) as [->|(l&v&->&Hl)];
      destruct rc as [|q]; try done.
    cbn in Hd |- *. rewrite Hl in Hd |- *. by eapply lookup_weaken. }
  assert (deref hi o = deref h0 o) as Eo.
  { destruct (valid_deref _ _ Vo) as [->|(l&v&->&Hl)]; [done|].
    cbn. rewrite Hl. by eapply lookup_weaken. }
  rewrite Erc, Eo in Dm. split_and!.
  - destruct m as [|q].
    + by rewrite <-Dm.
    + cbn in Dm |- *. rewrite <-Dm.
      destruct (region hi' !! q) as [v|] eqn:E.
      * by eapply lookup_weaken.
      * exfalso. symmetry in Dm.
        destruct (valid_deref _ _ Vc) as [->|(l&v&->&Hl)];
          destruct (valid_deref _ _ Vo) as [->|(l'&v'&->&Hl')];
          cbn in Dm; rewrite ?Hl, ?Hl' in Dm; try done.
        by destruct rc.
  - destruct Fm as [->|Fm]; [done|].
    destruct m as [|q]; [done|]. cbn in Fm |- *.
    destruct (region h0 !! q) as [v|] eqn:E; [|done].
    by rewrite (lookup_weaken _ _ _ _ E H0i) in Fm.
  - by rewrite Nm, Hn.
Qed.

Lemma wp_Merge (lc lo : loc) (cv ov : Config) (h : heap) :
  configs h !! lc = Some cv → configs h !! lo = Some ov →
  closed h cv → closed h ov →
  wp (Merge (addr lc) (addr lo)) h (λ r h',
    ∃ l' rv, r = addr l' ∧ configs h !! l' = None ∧
      configs h' !! l' = Some rv ∧ heap_incl h h' ∧
      DestinationConsul rv = nil ∧ merged_config h h' cv ov rv).
Proof.
  intros Hc Ho Hcc Hco. pose proof Hcc as Hcc0. unfold closed in Hcc, Hco.
  rewrite !andb_True in Hcc, Hco.
  destruct Hcc as ((((Vc1&Vc2)&Vc3)&Vc4)&Vc5).
  destruct Hco as ((((Vo1&Vo2)&Vo3)&Vo4)&Vo5).
  cbn [Merge]. apply wp_bind. eapply wp_mono; [by apply wp_Copy|].
  intros ? h1 (lr&o&->&Hfr&R1&I01&Hdc&Hcop).
  assert (lo ≠ lr) as Hne by (intros ->; congruence).
  pose proof (heap_incl_lookup (RV:=configRegion) _ _ _ _ I01 Ho) as O1.
  pose proof (heap_step_refl lr h1) as P1.
  destruct cv as [c1 c2 c3 c4 c5 c6 c7 c8 c9 c10 c11 c12].
  destruct ov as [o1 o2 o3 o4 o5 o6 o7 o8 o9 o10 o11 o12].
  destruct o as [r1 r2 r3 r4 r5 r6 r7 r8 r9 r10 r11 r12].
  unfold copied in Hcop. fields. subst r2.
  destruct Hcop as (->&->&->&->&->&->&C1&C2&C3&C4&C5).
  apply wp_bind. eapply wp_mono;
    [eapply (wp_mergeField lr lo _ _ Consul with_Consul);
       [exact R1|exact O1|reflexivity
       |exact (valid_copy _ _ _ _ _ Vc1 I01 C1 (region_step _ _ _ P1))
       |exact (valid_later _ _ _ _ Vo1 I01 (region_step _ _ _ P1))]|].
  intros [] h2 (S1&m1&R2&D1&F1&N1). fields.
  pose proof (heap_step_trans _ _ _ _ P1 S1) as P2.
  pose proof (proj1 S1 lo _ Hne O1) as O2.
  apply wp_bind. eapply wp_mono;
    [eapply (wp_mergeField lr lo _ _ Excludes with_Excludes);
       [exact R2|exact O2|reflexivity
       |exact (valid_copy _ _ _ _ _ Vc2 I01 C2 (region_step _ _ _ P2))
       |exact (valid_later _ _ _ _ Vo2 I01 (region_step _ _ _ P2))]|].
  intros [] h3 (S2&m2&R3&D2&F2&N2). fields.
  pose proof (heap_step_trans _ _ _ _ P2 S2) as P3.
  pose proof (proj1 S2 lo _ Hne O2) as O3.
  apply wp_bind. eapply wp_mono;
    [eapply (wp_overwriteField lr lo _ _ KillSignal with_KillSignal);
       [exact R3|exact O3|reflexivity]|].
  intros [] h4 (S3&R4). fields.
  pose proof (heap_step_trans _ _ _ _ P3 S3) as P4.
  pose proof (proj1 S3 lo _ Hne O3) as O4.
  apply wp_bind. eapply wp_mono;
    [eapply (wp_overwriteField lr lo _ _ LogLevel with_LogLevel);
       [exact R4|exact O4|reflexivity]|].
  intros [] h5 (S4&R5). fields.
  pose proof (heap_step_trans _ _ _ _ P4 S4) as P5.
  pose proof (proj1 S4 lo _ Hne O4) as O5.
  apply wp_bind. eapply wp_mono;
    [eapply (wp_overwriteField lr lo _ _ MaxStale with_MaxStale);
       [exact R5|exact O5|reflexivity]|].
  intros [] h6 (S5&R6). fields.
  pose proof (heap_step_trans _ _ _ _ P5 S5) as P6.
  pose proof (proj1 S5 lo _ Hne O5) as O6.
  apply wp_bind. eapply wp_mono;
    [eapply (wp_overwriteField lr lo _ _ PidFile with_PidFile);
       [exact R6|exact O6|reflexivity]|].
  intros [] h7 (S6&R7). fields.
  pose proof (heap_step_trans _ _ _ _ P6 S6) as P7.
  pose proof (proj1 S6 lo _ Hne O6) as O7.
  apply wp_bind. eapply wp_mono;
    [eapply (wp_mergeField lr lo _ _ Prefixes with_Prefixes);
       [exact R7|exact O7|reflexivity
       |exact (valid_copy _ _ _ _ _ Vc3 I01 C3 (region_step _ _ _ P7))
       |exact (valid_later _ _ _ _ Vo3 I01 (region_step _ _ _ P7))]|].
  intros [] h8 (S7&m3&R8&D3&F3&N3). fields.
  pose proof (heap_step_trans _ _ _ _ P7 S7) as P8.
  pose proof (proj1 S7 lo _ Hne O7) as O8.
  apply wp_bind. eapply wp_mono;
    [eapply (wp_overwriteField lr lo _ _ ReloadSignal with_ReloadSignal);
       [exact R8|exact O8|reflexivity]|].
  intros [] h9 (S8&R9). fields.
  pose proof (heap_step_trans _ _ _ _ P8 S8) as P9.
  pose proof (proj1 S8 lo _ Hne O8) as O9.
  apply wp_bind. eapply wp_mono;
    [eapply (wp_overwriteField lr lo _ _ StatusDir with_StatusDir);
       [exact R9|exact O9|reflexivity]|].
  intros [] h10 (S9&R10). fields.
  pose proof (heap_step_trans _ _ _ _ P9 S9) as P10.
  pose proof (proj1 S9 lo _ Hne O9) as O10.
  apply wp_bind. eapply wp_mono;
    [eapply (wp_mergeField lr lo _ _ Syslog with_Syslog);
       [exact R10|exact O10|reflexivity
       |exact (valid_copy _ _ _ _ _ Vc4 I01 C4 (region_step _ _ _ P10))
       |exact (valid_later _ _ _ _ Vo4 I01 (region_step _ _ _ P10))]|].
  intros [] h11 (S10&m4&R11&D4&F4&N4). fields.
  pose proof (heap_step_trans _ _ _ _ P10 S10) as P11.
  pose proof (proj1 S10 lo _ Hne O10) as O11.
  apply wp_bind. eapply wp_mono;
    [eapply (wp_mergeField lr lo _ _ Wait with_Wait);
       [exact R11|exact O11|reflexivity
       |exact (valid_copy _ _ _ _ _ Vc5 I01 C5 (region_step _ _ _ P11))
       |exact (valid_later _ _ _ _ Vo5 I01 (region_step _ _ _ P11))]|].
  intros [] h12 (S11&m5&R12&D5&F5&N5). fields.
  pose proof (heap_step_trans _ _ _ _ P11 S11) as P12.
  pose proof (proj1 S11 lo _ Hne O11) as O12.
  apply wp_ret.
  pose proof (heap_step_refl lr h12) as Q12.
  pose proof (heap_step_trans _ _ _ _ S11 Q12) as Q11.
  pose proof (heap_step_trans _ _ _ _ S10 Q11) as Q10.
  pose proof (heap_step_trans _ _ _ _ S9 Q10) as Q9.
  pose proof (heap_step_trans _ _ _ _ S8 Q9) as Q8.
  pose proof (heap_step_trans _ _ _ _ S7 Q8) as Q7.
  pose proof (heap_step_trans _ _ _ _ S6 Q7) as Q6.
  pose proof (heap_step_trans _ _ _ _ S5 Q6) as Q5.
  pose proof (heap_step_trans _ _ _ _ S4 Q5) as Q4.
  pose proof (heap_step_trans _ _ _ _ S3 Q4) as Q3.
  pose proof (heap_step_trans _ _ _ _ S2 Q3) as Q2.
  pose proof (heap_step_trans _ _ _ _ S1 Q2) as Q1.
  eexists lr, _. split_and!; [reflexivity|exact Hfr|exact R12| | |].
  - exact (heap_incl_of_step _ _ _ _ Hfr I01 P12).
  - reflexivity.
  - unfold merged_config. fields. split_and!; try reflexivity.
    + exact (merge_of_final _ _ _ _ _ _ _ _ _ I01 (region_step _ _ _ P1)
        (region_step _ _ _ Q2) Vc1 Vo1 C1 D1 F1 N1).
    + exact (merge_of_final _ _ _ _ _ _ _ _ _ I01 (region_step _ _ _ P2)
        (region_step _ _ _ Q3) Vc2 Vo2 C2 D2 F2 N2).
    + exact (merge_of_final _ _ _ _ _ _ _ _ _ I01 (region_step _ _ _ P7)
        (region_step _ _ _ Q8) Vc3 Vo3 C3 D3 F3 N3).
    + exact (merge_of_final _ _ _ _ _ _ _ _ _ I01 (region_step _ _ _ P10)
        (region_step _ _ _ Q11) Vc4 Vo4 C4 D4 F4 N4).
    + exact (merge_of_final _ _ _ _ _ _ _ _ _ I01 (region_step _ _ _ P11)
        (region_step _ _ _ Q12) Vc5 Vo5 C5 D5 F5 N5).
Qed.

(** ** [Finalize] *)

Lemma heap_grow_refl l (h : heap) : heap_grow l h h.
Proof. by repeat split. Qed.

Lemma heap_grow_trans l (h1 h2 h3 : heap) :
  heap_grow l h1 h2 → heap_grow l h2 h3 → heap_grow l h1 h3.
Proof.
  intros (C1&?&?&?&?&?&?&?&?) (C2&?&?&?&?&?&?&?&?).
  split; [by eauto|]. repeat split; by etrans.
Qed.

Lemma heap_step_grow l (h h' : heap) : heap_step l h h' → heap_grow l h h'.
Proof.
  intros (C&?&?&?&?&?&?&?&?). split; [done|].
  repeat split; try done; by apply subseteq_dom.
Qed.

Lemma valid_grow {V} {RV : Region V} {SR : StanzaRegion V} l (h h' : heap)
    (p : ptr V) :
  heap_grow l h h' → valid h p → valid h' p.
Proof.
  intros Hg. destruct p as [|q]; [done|]. cbn.
  intros Hq%bool_decide_unpack. apply bool_decide_pack.
  apply elem_of_dom, (grow_dom _ _ _ Hg), elem_of_dom, Hq.
Qed.

Lemma stringFromEnv_new Getenv list def :
  (stringFromEnv TrimSpace Getenv list def : M (ptr string))
  = config_String (envString TrimSpace Getenv list def).
Proof.
  induction list as [|s rest IH]; [done|]. cbn. by case_decide.
Qed.

Lemma wp_defaultField {V} {RV : Region V} {PV : Pointee V}
    (l : loc) (cv : Config) (F : Config → ptr V)
    (with_F : ptr V → Config → Config) (d : V) (h : heap) :
  configs h !! l = Some cv → with_F (F cv) cv = cv →
  wp (defaultField (addr l) F with_F (new d)) h (λ _ h',
    heap_step l h h' ∧ ∃ p,
      configs h' !! l = Some (with_F p cv) ∧ is_nil p = false ∧
      if is_nil (F cv) then fresh_in h p ∧ deref h' p = Some d
      else p = F cv).
Proof.
  intros Hl Hid. unfold defaultField.
  apply wp_bind. eapply wp_field; [exact Hl|].
  destruct (F cv) as [|q] eqn:EF; cbn [is_nil].
  - apply wp_bind, wp_new. intros q Hq.
    eapply wp_assign; [by rewrite pointee_frame|].
    split.
    { eapply heap_step_trans; [|apply heap_step_assign].
      by apply heap_incl_step, heap_incl_alloc. }
    exists (addr q). split_and!; [cbn; by rewrite lookup_insert_eq|done..|].
    cbn [deref]. by rewrite config_frame, region_set, lookup_insert_eq.
  - apply wp_ret. split; [apply heap_step_refl|]. exists (addr q).
    by rewrite Hid.
Qed.

Lemma wp_finalizeField {V} {RV : Region V} {PV : Pointee V}
    {SR : StanzaRegion V} {SV : Stanza V}
    (l : loc) (cv : Config) (F : Config → ptr V)
    (with_F : ptr V → Config → Config) (h : heap) :
  configs h !! l = Some cv → with_F (F cv) cv = cv →
  (∀ p, F (with_F p cv) = p) → valid h (F cv) →
  wp (finalizeField (addr l) F with_F) h (λ _ h',
    heap_grow l h h' ∧ ∃ p,
      configs h' !! l = Some (with_F p cv) ∧ kept (F cv) p ∧ valid h' p).
Proof.
  intros Hl Hid Hget Hv. unfold finalizeField, stanzaDefault.
  apply wp_bind. eapply wp_mono; [by apply wp_defaultField|].
  intros [] h1 (S1&p&Hl1&Hn&Hp).
  apply wp_bind. eapply wp_field; [exact Hl1|]. rewrite Hget.
  assert (∃ q v, p = addr q ∧ region h1 !! q = Some v) as (q&v&->&Hq).
  { destruct (F cv) as [|q0] eqn:EF; cbn [is_nil] in Hp.
    - destruct Hp as [_ Hd]. destruct p as [|q]; [done|]. eauto.
    - subst p. cbn in Hv. apply bool_decide_unpack in Hv as [v Hv].
      exists q0, v. split; [done|].
      eapply lookup_weaken; [exact Hv|]. by eapply region_step. }
  unfold stanzaFinalize. apply wp_bind. eapply wp_load; [exact Hq|].
  apply wp_store; [by eauto|].
  assert (dom (region h1) ⊆ dom (<[q:=stanza_finalize v]> (region h1))) as Hd.
  { rewrite dom_insert. set_solver. }
  split.
  { eapply heap_grow_trans; [by apply heap_step_grow|].
    by apply set_region_grow. }
  exists (addr q). split_and!.
  - by rewrite pointee_frame.
  - split; [done|]. intros EF. by rewrite EF in Hp.
  - cbn. apply bool_decide_pack. rewrite region_set, lookup_insert_eq. eauto.
Qed.

Lemma defaulted_final {V} {RV : Region V} {SR : ScalarRegion V} l
    (h0 hi hi' hf : heap) (d : V) (p r : ptr V) :
  heap_grow l h0 hi → heap_grow l hi' hf →
  (is_nil r = false ∧
   if is_nil p then fresh_in hi r ∧ deref hi' r = Some d else r = p) →
  defaulted h0 hf d p r.
Proof.
  intros P Q (Hn&Hr). split; [split; [done|]|].
  - intros E. by rewrite E in Hr.
  - intros E. rewrite E in Hr. destruct Hr as [Hf Hd].
    destruct r as [|q]; [done|]. cbn in *. split.
    + destruct (region h0 !! q) eqn:E0; [|done].
      by rewrite (lookup_weaken _ _ _ _ E0 (grow_incl _ _ _ P)) in Hf.
    + eapply lookup_weaken; [exact Hd|]. by eapply grow_incl.
Qed.

Lemma wp_Finalize Getenv (l : loc) (cv : Config) (h : heap) :
  configs h !! l = Some cv → closed h cv →
  wp (Finalize TrimSpace Getenv (addr l)) h (λ _ h',
    heap_grow l h h' ∧ ∃ cv',
      configs h' !! l = Some cv' ∧ finalized TrimSpace Getenv h h' cv cv').
Proof.
  intros R0 Hcl. unfold closed in Hcl.
  rewrite !andb_True in Hcl. destruct Hcl as ((((V1&V2)&V3)&V4)&V5).
  pose proof (heap_grow_refl l h) as P0.
  destruct cv as [c1 c2 c3 c4 c5 c6 c7 c8 c9 c10 c11 c12]. fields.
  cbn [Finalize]. unfold config_Signal, config_TimeDuration, config_String.
  apply wp_bind. eapply wp_mono;
    [eapply (wp_finalizeField l _ Consul with_Consul);
       [exact R0|reflexivity|reflexivity
       |exact (valid_grow _ _ _ _ P0 V1)]|].
  intros [] h1 (S0&p1&R1&K1). fields.
  pose proof (heap_grow_trans _ _ _ _ P0 S0) as P1.
  apply wp_bind. eapply wp_mono;
    [eapply (wp_finalizeField l _ Excludes with_Excludes);
       [exact R1|reflexivity|reflexivity
       |exact (valid_grow _ _ _ _ P1 V2)]|].
  intros [] h2 (S1&p2&R2&K2). fields.
  pose proof (heap_grow_trans _ _ _ _ P1 S1) as P2.
  apply wp_bind. eapply wp_mono;
    [eapply (wp_defaultField l _ KillSignal with_KillSignal); [exact R2|reflexivity]|].
  intros [] h3 (S2%heap_step_grow&p3&R3&K3). fields.
  pose proof (heap_grow_trans _ _ _ _ P2 S2) as P3.
  rewrite stringFromEnv_new. unfold config_String.
  apply wp_bind. eapply wp_mono;
    [eapply (wp_defaultField l _ LogLevel with_LogLevel); [exact R3|reflexivity]|].
  intros [] h4 (S3%heap_step_grow&p4&R4&K4). fields.
  pose proof (heap_grow_trans _ _ _ _ P3 S3) as P4.
  apply wp_bind. eapply wp_mono;
    [eapply (wp_defaultField l _ MaxStale with_MaxStale); [exact R4|reflexivity]|].
  intros [] h5 (S4%heap_step_grow&p5&R5&K5). fields.
  pose proof (heap_grow_trans _ _ _ _ P4 S4) as P5.
  apply wp_bind. eapply wp_mono;
    [eapply (wp_finalizeField l _ Prefixes with_Prefixes);
       [exact R5|reflexivity|reflexivity
       |exact (valid_grow _ _ _ _ P5 V3)]|].
  intros [] h6 (S5&p6&R6&K6). fields.
  pose proof (heap_grow_trans _ _ _ _ P5 S5) as P6.
  apply wp_bind. eapply wp_mono;
    [eapply (wp_defaultField l _ PidFile with_PidFile ""); [exact R6|reflexivity]|].
  intros [] h7 (S6%heap_step_grow&p7&R7&K7). fields.
  pose proof (heap_grow_trans _ _ _ _ P6 S6) as P7.
  apply wp_bind. eapply wp_mono;
    [eapply (wp_defaultField l _ ReloadSignal with_ReloadSignal); [exact R7|reflexivity]|].
  intros [] h8 (S7%heap_step_grow&p8&R8&K8). fields.
  pose proof (heap_grow_trans _ _ _ _ P7 S7) as P8.
  apply wp_bind. eapply wp_mono;
    [eapply (wp_defaultField l _ StatusDir with_StatusDir); [exact R8|reflexivity]|].
  intros [] h9 (S8%heap_step_grow&p9&R9&K9). fields.
  pose proof (heap_grow_trans _ _ _ _ P8 S8) as P9.
  apply wp_bind. eapply wp_mono;
    [eapply (wp_finalizeField l _ Syslog with_Syslog);
       [exact R9|reflexivity|reflexivity
       |exact (valid_grow _ _ _ _ P9 V4)]|].
  intros [] h10 (S9&p10&R10&K10). fields.
  pose proof (heap_grow_trans _ _ _ _ P9 S9) as P10.
  eapply wp_mono;
    [eapply (wp_finalizeField l _ Wait with_Wait);
       [exact R10|reflexivity|reflexivity
       |exact (valid_grow _ _ _ _ P10 V5)]|].
  intros [] h11 (S10&p11&R11&K11). fields.
  pose proof (heap_grow_trans _ _ _ _ P10 S10) as P11.
  pose proof (heap_grow_refl l h11) as Q11.
  pose proof (heap_grow_trans _ _ _ _ S10 Q11) as Q10.
  pose proof (heap_grow_trans _ _ _ _ S9 Q10) as Q9.
  pose proof (heap_grow_trans _ _ _ _ S8 Q9) as Q8.
  pose proof (heap_grow_trans _ _ _ _ S7 Q8) as Q7.
  pose proof (heap_grow_trans _ _ _ _ S6 Q7) as Q6.
  pose proof (heap_grow_trans _ _ _ _ S5 Q6) as Q5.
  pose proof (heap_grow_trans _ _ _ _ S4 Q5) as Q4.
  pose proof (heap_grow_trans _ _ _ _ S3 Q4) as Q3.
  pose proof (heap_grow_trans _ _ _ _ S2 Q3) as Q2.
  pose proof (heap_grow_trans _ _ _ _ S1 Q2) as Q1.
  pose proof (heap_grow_trans _ _ _ _ S0 Q1) as Q0.
  rename h into h0.
  split; [exact P11|]. eexists. split; [exact R11|].
  unfold finalized. fields. split_and!; [reflexivity|..].
    + exact (proj1 K1).
    + exact (proj1 K2).
    + exact (proj1 K6).
    + exact (proj1 K10).
    + exact (proj1 K11).
    + exact (defaulted_final _ _ _ _ _ _ _ _ P2 Q3 K3).
    + exact (defaulted_final _ _ _ _ _ _ _ _ P3 Q4 K4).
    + exact (defaulted_final _ _ _ _ _ _ _ _ P4 Q5 K5).
    + exact (defaulted_final _ _ _ _ _ _ _ _ P6 Q7 K7).
    + exact (defaulted_final _ _ _ _ _ _ _ _ P7 Q8 K8).
    + exact (defaulted_final _ _ _ _ _ _ _ _ P8 Q9 K9).
Qed.

(** ** The claims about [Copy], [Merge] and [Finalize] *)

Lemma independent_fresh {V} {RV : Region V} (h h' : heap) (p : ptr V) :
  heap_incl h h' → fresh_in h p → independent h h' p.
Proof.
  intros Hi Hf x h'' Hs. destruct p as [|q]; [done|]. cbn in Hf, Hs.
  destruct (region h' !! q) eqn:E; [|done]. injection Hs as <-.
  apply set_region_incl; [done|].
  apply insert_subseteq_r; [exact Hf|by apply region_incl].
Qed.

Lemma copy_of_independent {V} {RV : Region V} (h h' : heap) (p r : ptr V) :
  heap_incl h h' → copy_of h h' p r → independent h h' r.
Proof. intros Hi (_&Hf&_). by apply independent_fresh. Qed.

Lemma copy_of_ne {V} {RV : Region V} (h h' : heap) (p r : ptr V) :
  valid h p → copy_of h h' p r → is_nil p = false → r ≠ p.
Proof.
  intros Hv (_&Hf&Hn) Hp. eapply fresh_in_valid_ne; [done..|]. congruence.
Qed.

(** C5: [Copy] called on a nil receiver does not return nil.
    Its first statement reads [c.Consul] through the receiver, so the
    call stops with Go's nil-pointer-dereference panic, unlike [Merge]
    and [Finalize], which test the receiver first. *)
Theorem Copy_nil_receiver_panics (h : heap) : Copy nil h = NilDeref.
Proof. reflexivity. Qed.

(** C1: on the zero [Config], [Finalize] returns with the
    eleven fields it handles non-nil, but [DestinationConsul] is still
    nil: not every field is present afterwards. *)
Theorem Finalize_zero_leaves_DestinationConsul_nil
    (Getenv : string → string) (h : heap) (l : loc) :
  ∃ h' cv',
    Finalize TrimSpace Getenv (addr l)
      (set_region (<[l:=zeroConfig]> (configs h)) h) = Done tt h' ∧
    configs h' !! l = Some cv' ∧
    DestinationConsul cv' = nil ∧
    is_nil (Consul cv') = false ∧ is_nil (Excludes cv') = false ∧
    is_nil (KillSignal cv') = false ∧ is_nil (LogLevel cv') = false ∧
    is_nil (MaxStale cv') = false ∧ is_nil (PidFile cv') = false ∧
    is_nil (Prefixes cv') = false ∧ is_nil (ReloadSignal cv') = false ∧
    is_nil (StatusDir cv') = false ∧ is_nil (Syslog cv') = false ∧
    is_nil (Wait cv') = false.
Proof.
  destruct (wp_elim _ _ _
    (wp_Finalize Getenv l zeroConfig
       (set_region (<[l:=zeroConfig]> (configs h)) h)
       (lookup_insert_eq _ _ _) I))
    as ([]&h'&Hrun&_&cv'&Hcv'&Hfin).
  exists h', cv'. unfold finalized, defaulted, kept in Hfin.
  destruct Hfin as (?&(?&_)&(?&_)&(?&_)&(?&_)&(?&_)&((?&_)&_)&((?&_)&_)&
    ((?&_)&_)&((?&_)&_)&((?&_)&_)&((?&_)&_)).
  by split_and!.
Qed.

(** C3: [Merge] is not right-biased on every field.  With
    the zero [Config] as receiver and an argument whose only present field
    is [DestinationConsul], the result's [DestinationConsul] is nil,
    neither the argument's value nor a copy of it. *)
Theorem Merge_drops_present_DestinationConsul (v : ConsulConfig) :
  let b : Config := with_DestinationConsul (addr 1) zeroConfig in
  let h : heap :=
    mkHeap {[ 1%positive := zeroConfig; 2%positive := b ]} {[ 1%positive := v ]}
           ∅ ∅ ∅ ∅ ∅ ∅ ∅ in
  ∃ l' r h',
    Merge (addr 1) (addr 2) h = Done (addr l') h' ∧
    configs h' !! l' = Some r ∧
    DestinationConsul b = addr 1 ∧ DestinationConsul r = nil.
Proof.
  intros b h.
  destruct (wp_elim _ _ _
    (wp_Merge 1%positive 2%positive zeroConfig b h eq_refl eq_refl I I))
    as (?&h'&Hrun&l'&r&->&_&Hr&_&Hd&_).
  by exists l', r, h'.
Qed.

(** C2: for a non-nil [Config] whose nested entities are
    objects of the heap, [Copy] returns a new [Config] and changes no
    existing object; each nested entity of the copy (Consul, Excludes,
    Prefixes, Syslog, Wait) is a new object with the contents of the
    original's, so assigning through it changes no object of the original;
    the scalar pointer fields (KillSignal, LogLevel, MaxStale, PidFile,
    ReloadSignal, StatusDir) of the copy are the original's pointers. *)
Theorem Copy_copies_stanzas_shares_scalars (h : heap) (l : loc) (cv : Config) :
  configs h !! l = Some cv → closed h cv →
  ∃ l' o h',
    Copy (addr l) h = Done (addr l') h' ∧
    configs h !! l' = None ∧ configs h' !! l' = Some o ∧ heap_incl h h' ∧
    (KillSignal o = KillSignal cv ∧ LogLevel o = LogLevel cv ∧
     MaxStale o = MaxStale cv ∧ PidFile o = PidFile cv ∧
     ReloadSignal o = ReloadSignal cv ∧ StatusDir o = StatusDir cv) ∧
    (copy_of h h' (Consul cv) (Consul o) ∧
     copy_of h h' (Excludes cv) (Excludes o) ∧
     copy_of h h' (Prefixes cv) (Prefixes o) ∧
     copy_of h h' (Syslog cv) (Syslog o) ∧
     copy_of h h' (Wait cv) (Wait o)) ∧
    (independent h h' (Consul o) ∧ independent h h' (Excludes o) ∧
     independent h h' (Prefixes o) ∧ independent h h' (Syslog o) ∧
     independent h h' (Wait o)).
Proof.
  intros Hl Hcl.
  destruct (wp_elim _ _ _ (wp_Copy l cv h Hl Hcl))
    as (?&h'&Hrun&l'&o&->&Hfr&Ho&Hi&_&Hcop).
  exists l', o, h'. unfold copied in Hcop.
  destruct Hcop as (?&?&?&?&?&?&C1&C2&C3&C4&C5).
  split_and!; try done; by eapply copy_of_independent.
Qed.

(** C4: [Merge] of nil with nil returns nil; with a nil
    receiver it is the argument's [Copy], a new [Config] at an address
    other than the argument's; with a nil argument it is the receiver's
    [Copy]; otherwise it returns a new [Config], changing no existing
    object (the receiver is not mutated), in which each of Consul,
    Excludes, Prefixes, Syslog and Wait is a new object holding the
    receiver's contents merged with the argument's and each of KillSignal,
    LogLevel, MaxStale, PidFile, ReloadSignal and StatusDir is the
    argument's pointer when that is present and the receiver's otherwise. *)
Theorem Merge_nil_and_overwrite (h : heap) (la lb : loc) (a b : Config) :
  configs h !! la = Some a → configs h !! lb = Some b →
  closed h a → closed h b →
  Merge nil nil h = Done nil h ∧
  (Merge nil (addr lb) h = Copy (addr lb) h ∧
   ∃ l' o h', Copy (addr lb) h = Done (addr l') h' ∧ l' ≠ lb ∧
     configs h' !! l' = Some o ∧ heap_incl h h' ∧ copied h h' b o) ∧
  Merge (addr la) nil h = Copy (addr la) h ∧
  (∃ l' r h', Merge (addr la) (addr lb) h = Done (addr l') h' ∧
     l' ≠ la ∧ l' ≠ lb ∧
     configs h' !! l' = Some r ∧ heap_incl h h' ∧ merged_config h h' a b r).
Proof.
  intros Ha Hb Hca Hcb. split_and!; try reflexivity.
  - destruct (wp_elim _ _ _ (wp_Copy lb b h Hb Hcb))
      as (?&h'&Hrun&l'&o&->&Hfr&Ho&Hi&_&Hcop).
    exists l', o, h'. split_and!; try done. intros ->. congruence.
  - destruct (wp_elim _ _ _ (wp_Merge la lb a b h Ha Hb Hca Hcb))
      as (?&h'&Hrun&l'&r&->&Hfr&Hr&Hi&_&Hm).
    exists l', r, h'. split_and!; try done; intros ->; congruence.
Qed.

Lemma bind_wp_ext {A B} (m : M A) (f g : A → M B) (h : heap)
    (Q : A → heap → Prop) :
  wp m h Q → (∀ a h', Q a h' → f a h' = g a h') →
  (m ≫= f) h = (m ≫= g) h.
Proof. unfold wp, mbind, M_bind. destruct (m h); naive_solver. Qed.

Lemma bind_run_ext {A B} (m m' : M A) (f : A → M B) (h : heap) :
  m h = m' h → (m ≫= f) h = (m' ≫= f) h.
Proof. unfold mbind, M_bind. by intros ->. Qed.

Lemma defaultField_present {V} (l : loc) (cv : Config) (F : Config → ptr V)
    (with_F : ptr V → Config → Config) (mk : M (ptr V)) (h : heap) :
  configs h !! l = Some cv → is_nil (F cv) = false →
  defaultField (addr l) F with_F mk h = Done tt h.
Proof.
  intros Hl Hn. unfold defaultField, field, mbind, M_bind, load. cbn.
  rewrite Hl. cbn. by rewrite Hn.
Qed.

Lemma Finalize_env_irrelevant (G G' : string → string) (l : loc)
    (cv : Config) (h : heap) :
  configs h !! l = Some cv → closed h cv → is_nil (LogLevel cv) = false →
  Finalize TrimSpace G' (addr l) h = Finalize TrimSpace G (addr l) h.
Proof.
  intros R0 Hcl Hn. unfold closed in Hcl.
  rewrite !andb_True in Hcl. destruct Hcl as ((((V1&V2)&V3)&V4)&V5).
  destruct cv as [c1 c2 c3 c4 c5 c6 c7 c8 c9 c10 c11 c12]. fields.
  cbn [Finalize].
  eapply bind_wp_ext;
    [eapply (wp_finalizeField l _ Consul with_Consul);
       [exact R0|reflexivity|reflexivity|exact V1]|].
  intros [] h1 (S0&p1&R1&K1). fields.
  eapply bind_wp_ext;
    [eapply (wp_finalizeField l _ Excludes with_Excludes);
       [exact R1|reflexivity|reflexivity|exact (valid_grow _ _ _ _ S0 V2)]|].
  intros [] h2 (S1&p2&R2&K2). fields.
  eapply bind_wp_ext;
    [eapply (wp_defaultField l _ KillSignal with_KillSignal);
       [exact R2|reflexivity]|].
  intros [] h3 (S2&p3&R3&K3). fields.
  apply bind_run_ext.
  by rewrite !(defaultField_present l _ LogLevel with_LogLevel _ h3 R3 Hn).
Qed.

(** C9: when [LogLevel] is nil, [Finalize] sets it to a new
    string holding the whitespace-trimmed value of the first non-empty
    variable among CR_LOG and CONSUL_REPLICATE_LOG (so "DEBUG" when that
    variable holds "DEBUG"), and "WARN" when neither is set; when
    [LogLevel] is present it keeps the pointer and the string, and the
    run does not depend on the environment. *)
Theorem Finalize_LogLevel_from_env (Getenv : string → string) (h : heap)
    (l : loc) (cv : Config) :
  configs h !! l = Some cv → closed h cv →
  ∃ h' cv',
    Finalize TrimSpace Getenv (addr l) h = Done tt h' ∧
    configs h' !! l = Some cv' ∧
    (LogLevel cv = nil →
     ∃ q level, LogLevel cv' = addr q ∧ strings h !! q = None ∧
       strings h' !! q = Some level ∧
       level =
         (if decide (Getenv "CR_LOG" ≠ "")
          then TrimSpace (Getenv "CR_LOG")
          else if decide (Getenv "CONSUL_REPLICATE_LOG" ≠ "")
          then TrimSpace (Getenv "CONSUL_REPLICATE_LOG")
          else DefaultLogLevel) ∧
       (TrimSpace "DEBUG" = "DEBUG" →
        Getenv "CR_LOG" = "DEBUG" ∨
        Getenv "CR_LOG" = "" ∧ Getenv "CONSUL_REPLICATE_LOG" = "DEBUG" →
        level = "DEBUG") ∧
       (Getenv "CR_LOG" = "" → Getenv "CONSUL_REPLICATE_LOG" = "" →
        level = "WARN")) ∧
    (LogLevel cv ≠ nil →
     LogLevel cv' = LogLevel cv ∧ strings h ⊆ strings h' ∧
     ∀ Getenv', Finalize TrimSpace Getenv' (addr l) h
                = Finalize TrimSpace Getenv (addr l) h).
Proof.
  intros Hl Hcl.
  destruct (wp_elim _ _ _ (wp_Finalize Getenv l cv h Hl Hcl))
    as ([]&h'&Hrun&Hg&cv'&Hcv'&Hfin).
  exists h', cv'. split_and!; [done..| |].
  - intros Hnil. unfold finalized in Hfin.
    destruct Hfin as (_&_&_&_&_&_&_&((Hn&_)&Hd)&_).
    rewrite Hnil in Hd. destruct (Hd eq_refl) as [Hf Hv].
    destruct (LogLevel cv') as [|q]; [done|]. cbn in Hf, Hv.
    eexists q, _. split_and!; [done|done|exact Hv|reflexivity| |].
    + intros HT [E|[E1 E2]].
      * rewrite E. by rewrite decide_True.
      * rewrite E1, E2. rewrite decide_False by (by intros ?).
        by rewrite decide_True.
    + intros E1 E2. rewrite E1, E2.
      by rewrite !decide_False by (by intros ?).
  - intros Hne. assert (is_nil (LogLevel cv) = false) as Hn
      by (by destruct (LogLevel cv)).
    unfold finalized in Hfin.
    destruct Hfin as (_&_&_&_&_&_&_&((_&Hk)&_)&_).
    split_and!; [by apply Hk|apply Hg|].
    intros G'. by eapply Finalize_env_irrelevant.
Qed.

(** ** The normalizer *)

Lemma flattenValue_flattened keyMap mapKey v :
  flattenValue keyMap mapKey v = flattened keyMap mapKey v.
Proof.
  destruct v as [| | | | | |typed|typed]; try reflexivity.
  cbn [flattenValue flattened]. fold (flatten keyMap).
  change (λ m, map_imap _ m) with (λ m, flatten keyMap m mapKey).
  generalize VNil. induction typed as [|m l IH]; intros acc; [done|].
  rewrite IH. destruct l as [|g l]; [reflexivity|].
  change (last (m :: g :: l)) with (last (g :: l)).
  destruct (last (g :: l)) eqn:E; [reflexivity|]. by apply last_None in E.
Qed.

Lemma flatten_lookup keyMap (m : gmap string value) parent k :
  flatten keyMap m parent !! k =
  (λ v, if decide (mapKeyOf parent k ∈ keyMap)
        then flattened keyMap (mapKeyOf parent k) v else v) <$> m !! k.
Proof.
  unfold flatten. rewrite map_lookup_imap.
  destruct (m !! k) as [v|]; [|done]. cbn.
  by rewrite flattenValue_flattened.
Qed.

(** C6: under a key whose dotted path is in the fixed set,
    a non-empty sequence of mappings is replaced by its last element,
    flattened with the dotted path as parent; an empty one by nil, the key
    staying in the map; a single mapping is flattened in place with the
    dotted path as parent; every other value, and every value under a key
    outside the set, is unchanged.  No key is added or removed. *)
Theorem flatten_rewrites_stanza_keys (keyMap : gset string)
    (m : gmap string value) (parent k : string) :
  flatten keyMap m parent !! k =
    match m !! k with
    | None => None
    | Some v =>
        Some (if decide (mapKeyOf parent k ∈ keyMap)
              then match v with
                   | VMaps typed =>
                       match last typed with
                       | Some x => VMap (flatten keyMap x (mapKeyOf parent k))
                       | None => VNil
                       end
                   | VMap typed =>
                       VMap (flatten keyMap typed (mapKeyOf parent k))
                   | _ => v
                   end
              else v)
    end
  ∧ flattenKeys m stanzaKeys = flatten (list_to_set stanzaKeys) m ""
  ∧ mapKeyOf "" k = k
  ∧ mapKeyOf "consul" "retry" = "consul.retry".
Proof.
  split_and!; try reflexivity.
  rewrite flatten_lookup. by destruct (m !! k) as [[]|].
Qed.

Lemma flattenKeys_lookup_other (m : gmap string value) keys k :
  k ∉ keys → flattenKeys m keys !! k = m !! k.
Proof.
  intros Hk. unfold flattenKeys. rewrite flatten_lookup.
  destruct (m !! k) as [v|]; [|done]. cbn.
  change (mapKeyOf "" k) with k.
  by rewrite decide_False by (by rewrite elem_of_list_to_set).
Qed.

Lemma relocate_lookup_other key w wrap (st : gmap string value * list warning) k :
  k ≠ key → k ≠ "consul" → (relocate key w wrap st).1 !! k = st.1 !! k.
Proof.
  intros ??. unfold relocate. destruct (st.1 !! key); [|done]. cbn.
  by rewrite lookup_delete_ne, lookup_insert_ne.
Qed.

Lemma relocate_log key w wrap (st : gmap string value * list warning) :
  w ≠ WarnRetry →
  filter (λ w, w = WarnRetry) (relocate key w wrap st).2
  = filter (λ w, w = WarnRetry) st.2.
Proof.
  intros ?. unfold relocate. destruct (st.1 !! key); [|done]. cbn.
  rewrite filter_app, filter_cons_False by done. apply app_nil_r.
Qed.

Lemma relocate_keeps_retry key w (st : gmap string value * list warning) r :
  key ≠ "retry" → key ≠ "consul" →
  (st.1 !! "retry" = None ∧ ∃ consul,
     st.1 !! "consul" = Some (VMap consul) ∧ consul !! "retry" = Some r) →
  (relocate key w id st).1 !! "retry" = None ∧ ∃ consul,
     (relocate key w id st).1 !! "consul" = Some (VMap consul) ∧
     consul !! "retry" = Some r.
Proof.
  intros ?? (Hr&consul&Hc&Hcr). unfold relocate.
  destruct (st.1 !! key) as [x|]; [|by eauto]. cbn. split.
  - by rewrite lookup_delete_ne, lookup_insert_ne.
  - exists (<[key:=x]> (consulOf st.1)).
    rewrite lookup_delete_ne, lookup_insert_eq by done. split; [done|].
    unfold consulOf. rewrite Hc. by rewrite lookup_insert_ne.
Qed.

(** C8: when the parsed mapping has a top-level retry key,
    the mapping handed to the binder has no top-level retry key, its
    consul value is a map whose retry entry is a map with exactly the
    fields backoff and max_backoff, both equal to the legacy value, and
    the log holds exactly one retry warning. *)
Theorem normalize_relocates_retry (parsed : gmap string value) (retry : value) :
  parsed !! "retry" = Some retry →
  (normalize parsed).1 !! "retry" = None ∧
  (∃ consul r,
     (normalize parsed).1 !! "consul" = Some (VMap consul) ∧
     consul !! "retry" = Some (VMap r) ∧
     r !! "backoff" = Some retry ∧ r !! "max_backoff" = Some retry ∧
     dom r = {["backoff"; "max_backoff"]}) ∧
  length (filter (λ w, w = WarnRetry) (normalize parsed).2) = 1.
Proof.
  intros Hretry. unfold normalize.
  set (p2 := flattenKeys (flattenKeys parsed stanzaKeys) deprecatedKeys).
  assert (p2 !! "retry" = Some retry) as H2.
  { unfold p2. rewrite !flattenKeys_lookup_other; [done|..];
      unfold stanzaKeys, deprecatedKeys; rewrite !not_elem_of_cons;
      split_and!; try done; apply not_elem_of_nil. }
  set (st1 := relocate "auth" WarnAuth id (p2, [])).
  assert (st1.1 !! "retry" = Some retry) as H3
    by (unfold st1; by rewrite relocate_lookup_other).
  assert (filter (λ w, w = WarnRetry) st1.2 = []) as L1
    by (unfold st1; by rewrite relocate_log).
  set (st2 := dropPath st1).
  assert (st2.1 !! "retry" = Some retry ∧
          filter (λ w, w = WarnRetry) st2.2 = []) as [H4 L2].
  { unfold st2, dropPath. destruct (st1.1 !! "path"); [|done]. cbn.
    rewrite lookup_delete_ne by done. split; [done|].
    rewrite filter_app, L1. by rewrite filter_cons_False. }
  set (st3 := relocate "retry" WarnRetry retryBlock st2).
  assert (st3.1 !! "retry" = None ∧ ∃ consul,
            st3.1 !! "consul" = Some (VMap consul) ∧
            consul !! "retry" = Some (retryBlock retry)) as H5.
  { unfold st3, relocate. rewrite H4. cbn. split.
    - by rewrite lookup_delete_eq.
    - eexists. rewrite lookup_delete_ne, lookup_insert_eq by done.
      split; [done|]. by rewrite lookup_insert_eq. }
  assert (length (filter (λ w, w = WarnRetry) st3.2) = 1) as L3.
  { unfold st3, relocate. rewrite H4. cbn.
    rewrite filter_app, L2. by rewrite filter_cons_True. }
  set (st4 := relocate "ssl" WarnSsl id st3).
  pose proof (relocate_keeps_retry "ssl" WarnSsl st3 _ ltac:(done) ltac:(done) H5)
    as H6. fold st4 in H6.
  pose proof (relocate_keeps_retry "token" WarnToken st4 _
                ltac:(done) ltac:(done) H6) as (H7&consul&H8&H9).
  split_and!; [exact H7| |].
  - exists consul, (<["backoff":=retry]> (<["max_backoff":=retry]> ∅)).
    split_and!; [exact H8|exact H9|by rewrite lookup_insert_eq| |].
    + by rewrite lookup_insert_ne, lookup_insert_eq.
    + rewrite !dom_insert_L, dom_empty_L. set_solver.
  - unfold st4 in *. by rewrite !relocate_log.
Qed.

(** ** The binder *)

Lemma structFields_all (f : structField) : In f structFields.
Proof. destruct f; cbn; tauto. Qed.

Lemma lookupKey_knownKey (f : structField) (parsed : gmap string value) k v :
  lookupKey EqualFold (mapstructure_tag f) parsed = Some (k, v) →
  knownKey EqualFold k = true.
Proof.
  unfold lookupKey, knownKey. intros Hl. apply existsb_exists.
  exists f. split; [apply structFields_all|].
  destruct (parsed !! mapstructure_tag f).
  - injection Hl as <- <-. by rewrite bool_decide_eq_true_2.
  - apply find_some in Hl as [_ Hl]. cbn in Hl. by rewrite Hl, orb_true_r.
Qed.

Lemma lookupKey_knownField (fields : list (string * schema))
    (f : string * schema) (m : gmap string value) k v :
  f ∈ fields → lookupKey EqualFold f.1 m = Some (k, v) →
  knownField EqualFold fields k = true.
Proof.
  unfold lookupKey, knownField. intros Hf Hl. apply existsb_exists.
  exists f. split; [by apply list_elem_of_In|].
  destruct (m !! f.1).
  - injection Hl as <- <-. by rewrite bool_decide_eq_true_2.
  - apply find_some in Hl as [_ Hl]. cbn in Hl. by rewrite Hl, orb_true_r.
Qed.

Lemma knownField_configSchema (k : string) :
  knownField EqualFold
    ((λ f, (mapstructure_tag f, fieldSchema f)) <$> structFields) k
  = knownKey EqualFold k.
Proof. reflexivity. Qed.

Lemma invalidKeys_VNil (s : schema) (name : string) :
  invalidKeys EqualFold s name VNil = [].
Proof. by destruct s. Qed.

(** The keys taken and the errors gathered by the fields of a struct: every
    key taken matches a field, and the errors hold those of the value of
    every field that took a key. *)
Lemma bound_fields (g : string * schema → value → list bind_error)
    (m : gmap string value) (fields : list (string * schema)) :
  let r := foldr (λ f '(used, errs),
                    match lookupKey EqualFold f.1 m with
                    | Some (k, v') => (k :: used, g f v' ++ errs)
                    | None => (used, errs)
                    end) ([], []) fields in
  (∀ k, k ∈ r.1 → knownField EqualFold fields k = true) ∧
  (∀ f k v e, f ∈ fields → lookupKey EqualFold f.1 m = Some (k, v) →
     e ∈ g f v → e ∈ r.2).
Proof.
  induction fields as [|f0 fields IH]; cbn zeta.
  { split; [intros k Hk|intros f k v e Hf]; cbn in *;
      [by apply elem_of_nil in Hk|by apply elem_of_nil in Hf]. }
  cbn zeta in IH. cbn [foldr].
  destruct (foldr _ _ fields) as [used errs]. cbn [fst snd] in IH.
  destruct IH as [IH1 IH2].
  assert (∀ k, knownField EqualFold fields k = true →
               knownField EqualFold (f0 :: fields) k = true) as Hkn.
  { intros k Hk. unfold knownField in *. cbn [existsb].
    by rewrite Hk, orb_true_r. }
  destruct (lookupKey EqualFold f0.1 m) as [[k0 v0]|] eqn:E; cbn [fst snd].
  - split.
    + intros k [->|Hk]%elem_of_cons; [|by apply Hkn, IH1].
      eapply lookupKey_knownField; [|exact E]. by left.
    + intros f k v e [->|Hf]%elem_of_cons Hl He; apply elem_of_app.
      * rewrite E in Hl. injection Hl as <- <-. by left.
      * right. by eapply IH2.
  - split; [intros k Hk; by apply Hkn, IH1|].
    intros f k v e [->|Hf]%elem_of_cons Hl He; [congruence|by eapply IH2].
Qed.

Lemma offending_Struct_inv (fields : list (string * schema)) (name : string)
    (m : gmap string value) (path : string) :
  offending EqualFold (Struct fields) name (VMap m) path →
  (∃ k, k ∈ dom m ∧ knownField EqualFold fields k = false ∧
        path = mapKeyOf name k) ∨
  (∃ f k v, f ∈ fields ∧ lookupKey EqualFold f.1 m = Some (k, v) ∧
            offending EqualFold f.2 (mapKeyOf name f.1) v path).
Proof. inversion 1; subst; [left|right]; eauto 10. Qed.

(** The binder reports every offending key of a value, at any depth. *)
Lemma invalidKeys_offending (s : schema) (name : string) (v : value)
    (path : string) :
  offending EqualFold s name v path →
  ∃ keys, InvalidKeys keys ∈ invalidKeys EqualFold s name v ∧ path ∈ keys.
Proof.
  induction 1 as [fields name m k Hk Hun
                 |fields name m f k v path Hf Hl _ (keys&IH&Hp)
                 |elem name l v path Hv _ (keys&IH&Hp)
                 |elem name l m path Hm _ (keys&IH&Hp)].
  - cbn [invalidKeys].
    pose proof (bound_fields
                  (λ f v', invalidKeys EqualFold f.2 (mapKeyOf name f.1) v')
                  m fields) as [H1 _]. cbn zeta beta in H1.
    destruct (foldr _ _ fields) as [used errs]. cbn [fst] in H1.
    assert (k ∈ dom m ∖ list_to_set (C:=gset string) used) as Hin.
    { apply elem_of_difference. split; [done|].
      rewrite elem_of_list_to_set. intros Hku. apply H1 in Hku. congruence. }
    rewrite decide_False
      by (intros E; rewrite E in Hin; by apply not_elem_of_empty in Hin).
    eexists. split; [apply elem_of_app; right; constructor|].
    apply elem_of_map. by exists k.
  - cbn [invalidKeys].
    pose proof (bound_fields
                  (λ f v', invalidKeys EqualFold f.2 (mapKeyOf name f.1) v')
                  m fields) as [_ H2]. cbn zeta beta in H2.
    destruct (foldr _ _ fields) as [used errs]. cbn [snd] in H2.
    exists keys. split; [|done].
    assert (InvalidKeys keys ∈ errs) by (by eapply H2).
    destruct (decide _); [done|]. apply elem_of_app. by left.
  - exists keys. split; [|done]. cbn [invalidKeys].
    apply list_elem_of_bind. by exists v.
  - exists keys. split; [|done]. cbn [invalidKeys].
    apply list_elem_of_bind. by exists m.
Qed.

Lemma nestedErrors_mono (parsed : gmap string value) (errs errs' : list bind_error)
    (f : structField) :
  (∀ e, e ∈ errs → e ∈ errs') →
  nestedErrors EqualFold parsed errs f → nestedErrors EqualFold parsed errs' f.
Proof. intros He Hn k v e Hl Hin. by eapply He, Hn. Qed.

Lemma nestedErrors_unbound (parsed : gmap string value) (errs : list bind_error)
    (f : structField) :
  lookupKey EqualFold (mapstructure_tag f) parsed = None →
  nestedErrors EqualFold parsed errs f.
Proof. intros E k v e Hl. congruence. Qed.

Lemma nestedErrors_bound (parsed : gmap string value) (errs : list bind_error)
    (f : structField) k v :
  lookupKey EqualFold (mapstructure_tag f) parsed = Some (k, v) →
  (∀ e, e ∈ invalidKeys EqualFold (fieldSchema f) (mapstructure_tag f) v →
        e ∈ errs) →
  nestedErrors EqualFold parsed errs f.
Proof.
  intros E He k' v' e Hl Hin. rewrite E in Hl. injection Hl as <- <-.
  by apply He.
Qed.

Lemma wp_bindField {V} {RV : Region V} {DV : Decodable V} {SV : Schema V}
    (Inv : Config → Prop) (f : structField) (fs : list structField)
    (with_F : ptr V → Config → Config) (parsed : gmap string value)
    (c : Config) used errs (h : heap) :
  schemaOf V = fieldSchema f →
  Inv c → (∀ p, Inv (with_F p c)) →
  Forall (λ k, knownKey EqualFold k = true) used →
  Forall (nestedErrors EqualFold parsed errs) fs →
  wp (bindField EqualFold f with_F parsed (c, used, errs)) h (λ b _,
    Inv b.1.1 ∧ Forall (λ k, knownKey EqualFold k = true) b.1.2 ∧
    Forall (nestedErrors EqualFold parsed b.2) (f :: fs)).
Proof.
  intros HS HI Hw Hu Hn. unfold bindField.
  destruct (lookupKey EqualFold (mapstructure_tag f) parsed) as [[k v]|] eqn:E.
  2:{ apply wp_ret. split_and!; cbn; [done..|].
      constructor; [by apply nestedErrors_unbound|done]. }
  assert (Forall (λ k, knownKey EqualFold k = true) (k :: used)) as Hu'.
  { constructor; [|done]. by eapply lookupKey_knownKey. }
  assert (∀ errs',
            (∀ e, e ∈ errs → e ∈ errs') →
            (∀ e, e ∈ invalidKeys EqualFold (schemaOf V) (mapstructure_tag f) v
                  → e ∈ errs') →
            Forall (nestedErrors EqualFold parsed errs') (f :: fs)) as Hf.
  { intros errs' H1 H2. constructor.
    - eapply nestedErrors_bound; [exact E|]. by rewrite <-HS.
    - eapply Forall_impl; [exact Hn|]. intros f'. by apply nestedErrors_mono. }
  assert (∀ x, x ∈ errs → x ∈ errs ++ [FieldError (mapstructure_tag f)])
    as Happ by (intros; apply elem_of_app; by left).
  destruct v;
    try (apply wp_ret; split_and!; cbn; [done..|]; apply Hf; [done|];
         rewrite invalidKeys_VNil; by intros ? ?%elem_of_nil);
    (destruct (invalidKeys _ _ _ _) as [|e0 nested] eqn:EI;
     [destruct (decodeValue _);
      [apply wp_bind, wp_new; intros; apply wp_ret
      |apply wp_ret];
      (split_and!; cbn; [done..|]; apply Hf; [done|];
       intros e He; rewrite ?EI in He; by apply elem_of_nil in He)
     |apply wp_ret; split_and!; cbn; [done..|]; apply Hf;
      intros e He; rewrite ?EI in He; apply elem_of_app; by (left + right)]).
Qed.

Lemma wp_bindConsul {B} (parsed : gmap string value) (h : heap)
    (k : Config * list string * list bind_error → M B) (Q : B → heap → Prop) :
  (∀ c used errs h',
     is_nil (DestinationConsul c) = is_nil (Consul c) →
     Forall (λ k, knownKey EqualFold k = true) used →
     Forall (nestedErrors EqualFold parsed errs) [FDestinationConsul; FConsul] →
     wp (k (c, used, errs)) h' Q) →
  wp (b ← bindField EqualFold FConsul with_Consul parsed (zeroConfig, [], []);
      b ← bindField EqualFold FDestinationConsul with_DestinationConsul parsed b;
      k b) h Q.
Proof.
  intros Hk. unfold bindField. cbn [mapstructure_tag].
  destruct (lookupKey EqualFold "consul" parsed) as [[key v]|] eqn:E.
  2:{ apply wp_bind, wp_ret, wp_bind, wp_ret. apply Hk; [done..|].
      repeat constructor; by apply nestedErrors_unbound. }
  assert (Forall (λ k, knownKey EqualFold k = true) [key; key]) as Hu.
  { repeat constructor; by apply (lookupKey_knownKey FConsul parsed key v). }
  assert (∀ errs,
            (∀ e, e ∈ invalidKeys EqualFold (schemaOf ConsulConfig) "consul" v
                  → e ∈ errs) →
            Forall (nestedErrors EqualFold parsed errs)
              [FDestinationConsul; FConsul]) as Hf.
  { intros errs He.
    repeat constructor; by eapply nestedErrors_bound; [exact E|exact He]. }
  destruct v;
    try (apply wp_bind, wp_ret, wp_bind, wp_ret; apply Hk; [done..|];
         apply Hf; rewrite invalidKeys_VNil; by intros ? ?%elem_of_nil);
    (destruct (invalidKeys _ _ _ _) as [|e0 nested] eqn:EI;
     [destruct (decodeValue _);
      [apply wp_bind, wp_bind, wp_new; intros; apply wp_ret, wp_bind, wp_bind,
         wp_new; intros; apply wp_ret
      |apply wp_bind, wp_ret, wp_bind, wp_ret];
      (apply Hk; [done..|]; apply Hf;
       intros e He; rewrite ?EI in He; by apply elem_of_nil in He)
     |apply wp_bind, wp_ret, wp_bind, wp_ret; apply Hk; [done..|]; apply Hf;
      intros e He; rewrite ?EI in He; apply elem_of_app; by right]).
Qed.

Local Ltac bind_next F :=
  apply wp_bind; eapply wp_mono;
  [apply (wp_bindField
            (λ c, is_nil (DestinationConsul c) = is_nil (Consul c)) F);
   [reflexivity
   |eassumption
   |match goal with
    | |- ∀ _, is_nil (DestinationConsul (_ _ ?c)) = _ => by destruct c
    end
   |eassumption
   |eassumption]
  |].

Lemma wp_Decode (parsed : gmap string value) (h : heap) :
  wp (Decode EqualFold parsed) h (λ r h', ∃ c used errs,
    is_nil (DestinationConsul c) = is_nil (Consul c) ∧
    Forall (λ k, knownKey EqualFold k = true) used ∧
    (∀ f, nestedErrors EqualFold parsed errs f) ∧
    let unused : gset string := dom parsed ∖ list_to_set used in
    let errs' := if decide (unused = ∅) then errs
                 else errs ++ [InvalidKeys unused] in
    match errs' with
    | [] => ∃ l, r = inr (addr l) ∧ configs h' !! l = Some c
    | _ => r = inl (BindError errs')
    end).
Proof.
  unfold Decode. apply wp_bindConsul. clear h. intros c used errs h HI Hu Hn.
  bind_next FExcludes. clear c used errs HI Hu Hn h.
  intros [[c used] errs] h (HI&Hu&Hn). cbn [fst snd] in HI, Hu, Hn.
  bind_next FKillSignal. clear c used errs HI Hu Hn h.
  intros [[c used] errs] h (HI&Hu&Hn). cbn [fst snd] in HI, Hu, Hn.
  bind_next FLogLevel. clear c used errs HI Hu Hn h.
  intros [[c used] errs] h (HI&Hu&Hn). cbn [fst snd] in HI, Hu, Hn.
  bind_next FMaxStale. clear c used errs HI Hu Hn h.
  intros [[c used] errs] h (HI&Hu&Hn). cbn [fst snd] in HI, Hu, Hn.
  bind_next FPidFile. clear c used errs HI Hu Hn h.
  intros [[c used] errs] h (HI&Hu&Hn). cbn [fst snd] in HI, Hu, Hn.
  bind_next FPrefixes. clear c used errs HI Hu Hn h.
  intros [[c used] errs] h (HI&Hu&Hn). cbn [fst snd] in HI, Hu, Hn.
  bind_next FReloadSignal. clear c used errs HI Hu Hn h.
  intros [[c used] errs] h (HI&Hu&Hn). cbn [fst snd] in HI, Hu, Hn.
  bind_next FStatusDir. clear c used errs HI Hu Hn h.
  intros [[c used] errs] h (HI&Hu&Hn). cbn [fst snd] in HI, Hu, Hn.
  bind_next FSyslog. clear c used errs HI Hu Hn h.
  intros [[c used] errs] h (HI&Hu&Hn). cbn [fst snd] in HI, Hu, Hn.
  bind_next FWait. clear c used errs HI Hu Hn h.
  intros [[c used] errs] h (HI&Hu&Hn). cbn [fst snd] in HI, Hu, Hn.
  assert (∀ f, nestedErrors EqualFold parsed errs f) as Hall.
  { intros f.
    rewrite Forall_forall in Hn. apply Hn.
    destruct f; rewrite !elem_of_cons; tauto. }
  cbn zeta.
  set (errs' := if decide (dom parsed ∖ list_to_set used = ∅) then errs
                else errs ++ [InvalidKeys (dom parsed ∖ list_to_set used)]).
  destruct errs' as [|e errs''] eqn:E.
  - apply wp_bind, (wp_new (RV:=configRegion)). intros l Hl. apply wp_ret.
    exists c, used, errs. split_and!; [done..|]. cbn zeta. fold errs'.
    rewrite E. exists l. split; [done|]. cbn. apply lookup_insert_eq.
  - apply wp_ret. exists c, used, errs. split_and!; [done..|].
    cbn zeta. fold errs'. by rewrite E.
Qed.

Lemma ParseMap_rejects_unused_key (parsed : gmap string value)
    (k : string) (h : heap) :
  k ∈ dom (normalize parsed).1 → knownKey EqualFold k = false →
  ∃ errs keys h',
    ParseMap EqualFold parsed h
      = Done (inl (BindError errs), (normalize parsed).2) h' ∧
    InvalidKeys keys ∈ errs ∧ k ∈ keys.
Proof.
  intros Hk Hun. unfold ParseMap.
  destruct (normalize parsed) as [m log]. cbn [fst snd] in *.
  destruct (wp_elim _ _ _ (wp_Decode m h))
    as (r&h'&Hrun&c&used&errs&_&Hu&_&Hr). cbn zeta in Hr.
  assert (k ∈ dom m ∖ list_to_set (C:=gset string) used) as Hin.
  { apply elem_of_difference. split; [done|].
    rewrite elem_of_list_to_set. intros Hku.
    rewrite Forall_forall in Hu. apply Hu in Hku. congruence. }
  rewrite decide_False in Hr
    by (intros E; rewrite E in Hin; by apply not_elem_of_empty in Hin).
  exists (errs ++ [InvalidKeys (dom m ∖ list_to_set used)]),
    (dom m ∖ list_to_set used), h'.
  split_and!; [|apply elem_of_app; right; constructor|done].
  unfold mbind, M_bind. rewrite Hrun.
  destruct errs; cbn in Hr |- *; by rewrite Hr.
Qed.

Lemma ParseMap_reports_nested_key (parsed : gmap string value)
    (f : structField) (k : string) (v : value) (keys : gset string)
    (h : heap) :
  lookupKey EqualFold (mapstructure_tag f) (normalize parsed).1 = Some (k, v) →
  InvalidKeys keys
    ∈ invalidKeys EqualFold (fieldSchema f) (mapstructure_tag f) v →
  ∃ errs h',
    ParseMap EqualFold parsed h
      = Done (inl (BindError errs), (normalize parsed).2) h' ∧
    InvalidKeys keys ∈ errs.
Proof.
  intros Hl Hin. unfold ParseMap.
  destruct (normalize parsed) as [m log]. cbn [fst snd] in *.
  destruct (wp_elim _ _ _ (wp_Decode m h))
    as (r&h'&Hrun&c&used&errs&_&_&Hn&Hr). cbn zeta in Hr.
  pose proof (Hn f k v _ Hl Hin) as He.
  set (errs' := if decide (dom m ∖ list_to_set used = ∅) then errs
                else errs ++ [InvalidKeys (dom m ∖ list_to_set used)]) in *.
  assert (InvalidKeys keys ∈ errs') as He'.
  { unfold errs'. destruct (decide _); [done|]. apply elem_of_app. by left. }
  exists errs', h'. split; [|done].
  unfold mbind, M_bind. rewrite Hrun.
  destruct errs' as [|e0 errs'']; [by apply elem_of_nil in He'|].
  cbn. by rewrite Hr.
Qed.

Lemma flattenKeys_dom (m : gmap string value) keys :
  dom (flattenKeys m keys) = dom m.
Proof.
  apply set_eq. intros k. rewrite !elem_of_dom. unfold flattenKeys.
  rewrite flatten_lookup. by rewrite fmap_is_Some.
Qed.

Lemma normalize_keeps_key (parsed : gmap string value) (k : string) :
  k ∈ dom parsed → k ∉ legacyKeys → k ≠ "consul" →
  k ∈ dom (normalize parsed).1.
Proof.
  intros Hk Hl Hc. unfold legacyKeys in Hl.
  rewrite !not_elem_of_cons in Hl. destruct Hl as (?&?&?&?&?&_).
  unfold normalize. apply elem_of_dom.
  rewrite !relocate_lookup_other by done.
  unfold dropPath. destruct (_ !! "path"); cbn;
    rewrite ?lookup_delete_ne, ?relocate_lookup_other by done;
    cbn [fst]; apply elem_of_dom; by rewrite !flattenKeys_dom.
Qed.


(** X21: on the mapping as decoded, before normalization, binding is
    strict on every top-level key but the deprecated ones, which [Parse]
    removes before binding (auth, retry, ssl and token are moved under
    consul, path is dropped): when the decoded mapping has any other
    top-level key that is neither the tag of a [Config] field nor matched
    with one by the decoder's key comparison, [Parse] fails with a bind
    error that names the key among the invalid keys, and returns no
    [Config]. *)
Theorem ParseMap_rejects_unknown_key (parsed : gmap string value)
    (k : string) (h : heap) :
  k ∈ dom parsed → k ∉ legacyKeys → knownKey EqualFold k = false →
  ∃ errs keys h',
    ParseMap EqualFold parsed h
      = Done (inl (BindError errs), (normalize parsed).2) h' ∧
    InvalidKeys keys ∈ errs ∧ k ∈ keys.
Proof.
  intros Hk Hl Hun. apply ParseMap_rejects_unused_key; [|done].
  apply normalize_keeps_key; [done..|]. intros ->.
  unfold knownKey in Hun. cbn in Hun.
  by rewrite bool_decide_eq_true_2 in Hun.
Qed.

(** C10: [Copy], [Merge] and [Finalize] ignore
    [DestinationConsul]: the copy's and the merge result's are nil
    whatever the receiver's and the argument's are, and [Finalize] leaves
    the field as it is (nil when it was nil).  [DestinationConsul] has the
    tag of [Consul], "consul", and the binder fills the two fields from
    the same key: after a successful binding either both are present or
    neither is. *)
Theorem DestinationConsul_is_ignored (Getenv : string → string) (h : heap)
    (la lb : loc) (a b : Config) (parsed : gmap string value) :
  configs h !! la = Some a → configs h !! lb = Some b →
  closed h a → closed h b →
  (∃ l' o h', Copy (addr la) h = Done (addr l') h' ∧
     configs h' !! l' = Some o ∧ DestinationConsul o = nil) ∧
  (∃ l' r h', Merge (addr la) (addr lb) h = Done (addr l') h' ∧
     configs h' !! l' = Some r ∧ DestinationConsul r = nil) ∧
  (∃ h' a', Finalize TrimSpace Getenv (addr la) h = Done tt h' ∧
     configs h' !! la = Some a' ∧
     DestinationConsul a' = DestinationConsul a) ∧
  mapstructure_tag FDestinationConsul = mapstructure_tag FConsul ∧
  mapstructure_tag FConsul = "consul" ∧
  match Decode EqualFold parsed h with
  | Done (inr c) h' =>
      ∃ l cv, c = addr l ∧ configs h' !! l = Some cv ∧
        is_nil (DestinationConsul cv) = is_nil (Consul cv)
  | _ => True
  end.
Proof.
  intros Ha Hb Hca Hcb. split_and!; try reflexivity.
  - destruct (wp_elim _ _ _ (wp_Copy la a h Ha Hca))
      as (?&h'&Hrun&l'&o&->&_&Ho&_&Hd&_).
    by exists l', o, h'.
  - destruct (wp_elim _ _ _ (wp_Merge la lb a b h Ha Hb Hca Hcb))
      as (?&h'&Hrun&l'&r&->&_&Hr&_&Hd&_).
    by exists l', r, h'.
  - destruct (wp_elim _ _ _ (wp_Finalize Getenv la a h Ha Hca))
      as ([]&h'&Hrun&_&a'&Ha'&Hd&_).
    by exists h', a'.
  - destruct (wp_elim _ _ _ (wp_Decode parsed h))
      as (r&h'&Hrun&c&used&errs&HI&_&_&Hr). rewrite Hrun. cbn zeta in Hr.
    destruct r as [e|p]; [done|].
    destruct (if decide _ then _ else _) as [|??]; [|done].
    destruct Hr as (l&[= ->]&Hl). by exists l, c.
Qed.

(** ** More on the normalizer *)

Lemma value_size_lookup (m : gmap string value) k v :
  m !! k = Some v → value_size v < value_size (VMap m).
Proof.
  intros Hk. cbn. rewrite <-(insert_delete_id m k v) by done.
  rewrite map_fold_insert_L; [lia| |by rewrite lookup_delete_eq].
  intros. lia.
Qed.

Lemma value_size_elem (l : list (gmap string value)) m :
  m ∈ l → value_size (VMap m) ≤ value_size (VMaps l).
Proof.
  induction 1 as [m l|m m' l _ IH]; cbn in *; lia.
Qed.

Lemma flatten_idempotent_sized keyMap n :
  ∀ (m : gmap string value) parent, value_size (VMap m) ≤ n →
    flatten keyMap (flatten keyMap m parent) parent = flatten keyMap m parent.
Proof.
  induction n as [|n IH]; intros m parent Hn; [cbn in Hn; lia|].
  assert (∀ k v, m !! k = Some v →
    flattened keyMap (mapKeyOf parent k) (flattened keyMap (mapKeyOf parent k) v)
    = flattened keyMap (mapKeyOf parent k) v) as Hv.
  { intros k v Hk. apply value_size_lookup in Hk.
    destruct v as [| | | | | |typed|typed]; try reflexivity.
    - cbn. f_equal. apply IH. lia.
    - cbn. destruct (last typed) as [x|] eqn:El; [|reflexivity].
      cbn. f_equal. apply IH.
      apply last_Some_elem_of, value_size_elem in El. lia. }
  apply map_eq. intros k. rewrite !flatten_lookup.
  destruct (m !! k) as [v|] eqn:Hk; cbn; [|done].
  case_decide; [|done]. f_equal. eauto.
Qed.

(** X1: [flattenKeys] is idempotent: flattening a mapping that has been
    flattened with the same keys changes nothing. *)
Theorem flattenKeys_idempotent (m : gmap string value) (keys : list string) :
  flattenKeys (flattenKeys m keys) keys = flattenKeys m keys.
Proof. by eapply flatten_idempotent_sized. Qed.

Lemma flatMap_spec keyMap parent (m : gmap string value) :
  flatMap keyMap parent m = true ↔
  ∀ k v, m !! k = Some v → mapKeyOf parent k ∈ keyMap →
    flat keyMap (mapKeyOf parent k) v = true.
Proof.
  unfold flatMap. induction m as [|k v m Hk Hfirst IH] using map_first_key_ind.
  - rewrite map_fold_empty. split; [|done]. intros _ k v Hk.
    by rewrite lookup_empty in Hk.
  - rewrite map_fold_insert_first_key by done.
    rewrite andb_true_iff, IH. split.
    + intros [Hv Hm] k' v' Hk' Hin.
      destruct (decide (k' = k)) as [->|Hne].
      * rewrite lookup_insert_eq in Hk'. injection Hk' as <-.
        by rewrite decide_True in Hv.
      * rewrite lookup_insert_ne in Hk' by done. eauto.
    + intros H. split.
      * case_decide; [|done]. apply H; [|done]. by rewrite lookup_insert_eq.
      * intros k' v' Hk' Hin. apply H; [|done].
        rewrite lookup_insert_ne; [done|]. intros ->. congruence.
Qed.

Lemma flatten_flat_sized keyMap n :
  ∀ (m : gmap string value) parent, value_size (VMap m) ≤ n →
    flatMap keyMap parent (flatten keyMap m parent) = true.
Proof.
  induction n as [|n IH]; intros m parent Hn; [cbn in Hn; lia|].
  apply flatMap_spec. intros k v' Hk Hin.
  rewrite flatten_lookup in Hk.
  destruct (m !! k) as [v|] eqn:Hm; [|done]. cbn in Hk.
  rewrite decide_True in Hk by done. injection Hk as <-.
  apply value_size_lookup in Hm.
  destruct v as [| | | | | |typed|typed]; try reflexivity.
  - apply (IH typed). lia.
  - cbn. destruct (last typed) as [x|] eqn:El; [|reflexivity].
    apply (IH x). apply last_Some_elem_of, value_size_elem in El. lia.
Qed.

(** X2: after [flattenKeys], no sequence of mappings is left under a key
    whose dotted path is in [keys], at any depth that is reached through
    such keys; in particular none is left under a top-level key of
    [keys]. *)
Theorem flattenKeys_leaves_no_block_sequence (m : gmap string value)
    (keys : list string) :
  flatMap (list_to_set keys) "" (flattenKeys m keys) = true ∧
  ∀ k l, k ∈ keys → flattenKeys m keys !! k ≠ Some (VMaps l).
Proof.
  assert (flatMap (list_to_set keys) "" (flattenKeys m keys) = true) as H
    by (by eapply flatten_flat_sized).
  split; [exact H|]. intros k l Hk Hl.
  rewrite flatMap_spec in H. specialize (H k _ Hl).
  change (mapKeyOf "" k) with k in H.
  by specialize (H ltac:(by apply elem_of_list_to_set)).
Qed.

(** ** More on the legacy keys *)

Lemma relocate_log_eq key w wrap (st : gmap string value * list warning) :
  (relocate key w wrap st).2
  = st.2 ++ (if decide (key ∈ dom st.1) then [w] else []).
Proof.
  unfold relocate. destruct (st.1 !! key) as [x|] eqn:E; cbn.
  - by rewrite decide_True by (apply elem_of_dom; eauto).
  - rewrite decide_False by (by apply not_elem_of_dom). by rewrite app_nil_r.
Qed.

Lemma dropPath_log_eq (st : gmap string value * list warning) :
  (dropPath st).2
  = st.2 ++ (if decide ("path" ∈ dom st.1) then [WarnPath] else []).
Proof.
  unfold dropPath. destruct (st.1 !! "path") as [x|] eqn:E; cbn.
  - by rewrite decide_True by (apply elem_of_dom; eauto).
  - rewrite decide_False by (by apply not_elem_of_dom). by rewrite app_nil_r.
Qed.

Lemma dropPath_lookup_other (st : gmap string value * list warning) k :
  k ≠ "path" → (dropPath st).1 !! k = st.1 !! k.
Proof.
  intros ?. unfold dropPath. destruct (st.1 !! "path"); [|done]. cbn.
  by rewrite lookup_delete_ne.
Qed.

Lemma relocate_lookup_key key w wrap (st : gmap string value * list warning) :
  (relocate key w wrap st).1 !! key = None.
Proof.
  unfold relocate. destruct (st.1 !! key) eqn:E; [|done]. cbn.
  by rewrite lookup_delete_eq.
Qed.

Lemma dropPath_lookup_path (st : gmap string value * list warning) :
  (dropPath st).1 !! "path" = None.
Proof.
  unfold dropPath. destruct (st.1 !! "path") eqn:E; [|done]. cbn.
  by rewrite lookup_delete_eq.
Qed.

Lemma relocate_dom_other key w wrap (st : gmap string value * list warning) k :
  k ≠ key → k ≠ "consul" → k ∈ dom (relocate key w wrap st).1 ↔ k ∈ dom st.1.
Proof. intros ??. by rewrite !elem_of_dom, relocate_lookup_other. Qed.

Lemma dropPath_dom_other (st : gmap string value * list warning) k :
  k ≠ "path" → k ∈ dom (dropPath st).1 ↔ k ∈ dom st.1.
Proof. intros ?. by rewrite !elem_of_dom, dropPath_lookup_other. Qed.

Lemma relocate_absent key w wrap (st : gmap string value * list warning) :
  st.1 !! key = None → relocate key w wrap st = st.
Proof. intros E. unfold relocate. by rewrite E. Qed.

Lemma dropPath_absent (st : gmap string value * list warning) :
  st.1 !! "path" = None → dropPath st = st.
Proof. intros E. unfold dropPath. by rewrite E. Qed.

(** X3: the mapping that [Parse] hands to the binder has none of the
    deprecated top-level keys auth, path, retry, ssl and token. *)
Theorem normalize_removes_legacy_keys (parsed : gmap string value) :
  Forall (λ k, (normalize parsed).1 !! k = None) legacyKeys.
Proof.
  unfold normalize, legacyKeys. repeat apply Forall_cons_2; [..|done].
  - rewrite !relocate_lookup_other, dropPath_lookup_other by done.
    apply relocate_lookup_key.
  - rewrite !relocate_lookup_other by done. apply dropPath_lookup_path.
  - rewrite !relocate_lookup_other by done. apply relocate_lookup_key.
  - rewrite !relocate_lookup_other by done. apply relocate_lookup_key.
  - apply relocate_lookup_key.
Qed.

(** X4: [Parse] logs exactly one warning for each deprecated top-level
    key of the decoded mapping, in the order auth, path, retry, ssl, token,
    and no other warning. *)
Theorem normalize_warns_once_per_legacy_key (parsed : gmap string value) :
  (normalize parsed).2
  = (filter (λ kw, kw.1 ∈ dom parsed) legacyWarnings).*2.
Proof.
  unfold normalize.
  set (p2 := flattenKeys (flattenKeys parsed stanzaKeys) deprecatedKeys).
  assert (dom p2 = dom parsed) as Hd by (unfold p2; by rewrite !flattenKeys_dom).
  rewrite !relocate_log_eq, dropPath_log_eq, !relocate_log_eq. cbn [fst snd].
  rewrite (decide_ext ("token" ∈ dom _) ("token" ∈ dom parsed)).
  2:{ rewrite !relocate_dom_other, dropPath_dom_other, relocate_dom_other by done.
      cbn. by rewrite Hd. }
  rewrite (decide_ext ("ssl" ∈ dom _) ("ssl" ∈ dom parsed)).
  2:{ rewrite !relocate_dom_other, dropPath_dom_other, relocate_dom_other by done.
      cbn. by rewrite Hd. }
  rewrite (decide_ext ("retry" ∈ dom _) ("retry" ∈ dom parsed)).
  2:{ rewrite dropPath_dom_other, relocate_dom_other by done.
      cbn. by rewrite Hd. }
  rewrite (decide_ext ("path" ∈ dom _) ("path" ∈ dom parsed)).
  2:{ rewrite relocate_dom_other by done. cbn. by rewrite Hd. }
  rewrite (decide_ext ("auth" ∈ dom p2) ("auth" ∈ dom parsed)) by (by rewrite Hd).
  unfold legacyWarnings.
  rewrite !filter_cons, filter_nil. cbn [fst snd].
  repeat case_decide; reflexivity.
Qed.

(** X5: on a mapping without deprecated top-level keys, the part of
    [Parse] before the binder is the flattening of the nested-stanza keys
    alone: the second flattening and the legacy handling change nothing,
    and nothing is logged. *)
Theorem normalize_without_legacy_keys (parsed : gmap string value) :
  Forall (λ k, parsed !! k = None) legacyKeys →
  normalize parsed = (flattenKeys parsed stanzaKeys, []).
Proof.
  unfold legacyKeys. rewrite !Forall_cons.
  intros (Ha&Hp&Hr&Hs&Ht&_). unfold normalize.
  assert (flattenKeys (flattenKeys parsed stanzaKeys) deprecatedKeys
          = flattenKeys parsed stanzaKeys) as ->.
  { apply map_eq. intros k. unfold flattenKeys at 1. rewrite flatten_lookup.
    destruct (flattenKeys parsed stanzaKeys !! k) as [v|] eqn:E; [|done]. cbn.
    case_decide as Hk; [|done]. exfalso.
    change (mapKeyOf "" k) with k in Hk.
    assert (parsed !! k = None) as Hn.
    { rewrite !elem_of_union, !elem_of_singleton in Hk.
      destruct Hk as [->|[->|Hk]]; [done..|].
      by apply not_elem_of_empty in Hk. }
    assert (k ∈ dom (flattenKeys parsed stanzaKeys)) as Hin
      by (apply elem_of_dom; eauto).
    rewrite flattenKeys_dom in Hin. by apply not_elem_of_dom in Hn. }
  assert (∀ k, parsed !! k = None → k ∉ stanzaKeys →
            flattenKeys parsed stanzaKeys !! k = None) as Hf.
  { intros k Hk Hn. by rewrite flattenKeys_lookup_other. }
  assert (∀ k, k ∈ legacyKeys → k ∉ stanzaKeys) as Hl.
  { intros k Hk. unfold legacyKeys in Hk. unfold stanzaKeys.
    rewrite !elem_of_cons in Hk.
    destruct Hk as [->|[->|[->|[->|[->|H]]]]];
      [rewrite !not_elem_of_cons; split_and!; try done; apply not_elem_of_nil..|].
    by apply elem_of_nil in H. }
  rewrite (relocate_absent "auth");
    [|cbn; apply Hf; [done|apply Hl; unfold legacyKeys; rewrite !elem_of_cons; tauto]].
  rewrite dropPath_absent;
    [|cbn; apply Hf; [done|apply Hl; unfold legacyKeys; rewrite !elem_of_cons; tauto]].
  rewrite (relocate_absent "retry");
    [|cbn; apply Hf; [done|apply Hl; unfold legacyKeys; rewrite !elem_of_cons; tauto]].
  rewrite (relocate_absent "ssl");
    [|cbn; apply Hf; [done|apply Hl; unfold legacyKeys; rewrite !elem_of_cons; tauto]].
  rewrite (relocate_absent "token");
    [|cbn; apply Hf; [done|apply Hl; unfold legacyKeys; rewrite !elem_of_cons; tauto]].
  done.
Qed.

Lemma relocate_keeps_entry key w wrap (st : gmap string value * list warning)
    name r :
  key ≠ name → key ≠ "consul" →
  hasConsul st name r → hasConsul (relocate key w wrap st) name r.
Proof.
  intros ?? (consul&Hc&Hcr). unfold relocate.
  destruct (st.1 !! key) as [x|]; [|by exists consul].
  exists (<[key:=wrap x]> (consulOf st.1)). cbn.
  rewrite lookup_delete_ne, lookup_insert_eq by done. split; [done|].
  unfold consulOf. rewrite Hc. by rewrite lookup_insert_ne.
Qed.

Lemma dropPath_keeps_entry (st : gmap string value * list warning) name r :
  hasConsul st name r → hasConsul (dropPath st) name r.
Proof.
  intros (consul&Hc&Hcr). exists consul.
  by rewrite dropPath_lookup_other.
Qed.

Lemma relocate_sets_entry key w wrap (st : gmap string value * list warning) x :
  key ≠ "consul" → st.1 !! key = Some x →
  hasConsul (relocate key w wrap st) key (wrap x).
Proof.
  intros ? E. unfold relocate. rewrite E. eexists. cbn.
  rewrite lookup_delete_ne, lookup_insert_eq by done. split; [done|].
  by rewrite lookup_insert_eq.
Qed.

Lemma flattenKeys_deprecated_lookup (parsed : gmap string value) key x :
  key ∈ deprecatedKeys → parsed !! key = Some x →
  flattenKeys (flattenKeys parsed stanzaKeys) deprecatedKeys !! key
  = Some (flattenValue (list_to_set deprecatedKeys) key x).
Proof.
  intros Hk Hx. unfold flattenKeys at 1. rewrite flatten_lookup.
  rewrite flattenKeys_lookup_other, Hx.
  - cbn [fmap option_fmap option_map]. change (mapKeyOf "" key) with key.
    rewrite decide_True by (by apply elem_of_list_to_set).
    by rewrite flattenValue_flattened.
  - unfold deprecatedKeys in Hk. unfold stanzaKeys.
    rewrite !elem_of_cons in Hk.
    destruct Hk as [->|[->|Hk]]; [| |by apply elem_of_nil in Hk];
      rewrite !not_elem_of_cons; split_and!; try done; apply not_elem_of_nil.
Qed.

(** X6: a deprecated top-level auth, ssl or token wins over the entry of
    the same name inside consul: after [Parse]'s legacy handling the consul
    value is a mapping that holds, under that name, the top-level value
    (flattened, for the blocks auth and ssl), whatever consul held there
    before. *)
Theorem normalize_legacy_key_wins (parsed : gmap string value)
    (key : string) (x : value) :
  key ∈ ["auth"; "ssl"; "token"] → parsed !! key = Some x →
  ∃ consul,
    (normalize parsed).1 !! "consul" = Some (VMap consul) ∧
    consul !! key =
      Some (if decide (key ∈ deprecatedKeys)
            then flattenValue (list_to_set deprecatedKeys) key x else x).
Proof.
  intros Hk Hx. unfold normalize.
  set (p2 := flattenKeys (flattenKeys parsed stanzaKeys) deprecatedKeys).
  rewrite !elem_of_cons in Hk. destruct Hk as [->|[->|[->|Hk]]];
    [| | |by apply elem_of_nil in Hk].
  - rewrite decide_True by (unfold deprecatedKeys; rewrite !elem_of_cons; tauto).
    do 2 (apply relocate_keeps_entry; [done..|]).
    apply relocate_keeps_entry; [done..|]. apply dropPath_keeps_entry.
    apply (relocate_sets_entry "auth" WarnAuth id); [done|].
    apply flattenKeys_deprecated_lookup;
      [unfold deprecatedKeys; rewrite !elem_of_cons; tauto|done].
  - rewrite decide_True by (unfold deprecatedKeys; rewrite !elem_of_cons; tauto).
    apply relocate_keeps_entry; [done..|].
    apply (relocate_sets_entry "ssl" WarnSsl id); [done|].
    rewrite relocate_lookup_other, dropPath_lookup_other, relocate_lookup_other
      by done.
    apply flattenKeys_deprecated_lookup;
      [unfold deprecatedKeys; rewrite !elem_of_cons; tauto|done].
  - rewrite decide_False.
    2:{ unfold deprecatedKeys. rewrite !not_elem_of_cons.
        split_and!; try done. apply not_elem_of_nil. }
    apply (relocate_sets_entry "token" WarnToken id); [done|].
    rewrite !relocate_lookup_other, dropPath_lookup_other, relocate_lookup_other
      by done.
    cbn [fst]. unfold p2. rewrite !flattenKeys_lookup_other; [done|..];
      unfold stanzaKeys, deprecatedKeys; rewrite !not_elem_of_cons;
      split_and!; try done; apply not_elem_of_nil.
Qed.

Lemma relocate_consulOf key w wrap (st : gmap string value * list warning) x :
  key ≠ "consul" → st.1 !! key = Some x →
  (relocate key w wrap st).1 !! "consul"
  = Some (VMap (<[key:=wrap x]> (consulOf st.1))).
Proof.
  intros ? E. unfold relocate. rewrite E. cbn.
  by rewrite lookup_delete_ne, lookup_insert_eq.
Qed.

Lemma relocate_consulAgrees c0 key w wrap st :
  key ∈ relocatedKeys → key ≠ "consul" →
  consulAgrees c0 st → consulAgrees c0 (relocate key w wrap st).
Proof.
  intros Hk ? J k Hn. destruct (st.1 !! key) as [x|] eqn:E.
  - unfold consulOf at 1. rewrite (relocate_consulOf _ _ _ _ x) by done.
    rewrite lookup_insert_ne by (by intros ->). by apply J.
  - rewrite relocate_absent by done. by apply J.
Qed.

Lemma dropPath_consulAgrees c0 st :
  consulAgrees c0 st → consulAgrees c0 (dropPath st).
Proof.
  intros J k Hn. unfold consulOf. rewrite dropPath_lookup_other by done.
  by apply J.
Qed.

Lemma relocate_consulIsMap key w wrap st :
  key ≠ "consul" → consulIsMap st ∨ key ∈ dom st.1 →
  consulIsMap (relocate key w wrap st).
Proof.
  intros ? HK. destruct (st.1 !! key) as [x|] eqn:E.
  - eexists. by apply relocate_consulOf.
  - rewrite relocate_absent by done. destruct HK as [HK|HK]; [done|].
    by apply not_elem_of_dom in E.
Qed.

Lemma dropPath_consulIsMap st : consulIsMap st → consulIsMap (dropPath st).
Proof. intros [c Hc]. exists c. by rewrite dropPath_lookup_other. Qed.

Lemma normalize_consul_entries (parsed : gmap string value) (key : string) :
  key ∈ relocatedKeys → key ∈ dom parsed →
  ∃ consul,
    (normalize parsed).1 !! "consul" = Some (VMap consul) ∧
    ∀ k, k ∉ relocatedKeys →
      consul !! k = consulOf (flattenKeys parsed stanzaKeys) !! k.
Proof.
  clear TrimSpace EqualFold.
  intros Hk Hd. unfold normalize.
  set (c0 := consulOf (flattenKeys parsed stanzaKeys)).
  set (p2 := flattenKeys (flattenKeys parsed stanzaKeys) deprecatedKeys).
  assert (dom p2 = dom parsed) as Hp2
    by (unfold p2; by rewrite !flattenKeys_dom).
  assert (consulAgrees c0 (p2, [])) as J0.
  { intros k _. unfold c0, consulOf. cbn [fst]. unfold p2.
    rewrite (flattenKeys_lookup_other _ deprecatedKeys); [done|].
    unfold deprecatedKeys. rewrite !not_elem_of_cons.
    split_and!; try done. apply not_elem_of_nil. }
  set (st1 := relocate "auth" WarnAuth id (p2, [])).
  set (st2 := dropPath st1).
  set (st3 := relocate "retry" WarnRetry retryBlock st2).
  set (st4 := relocate "ssl" WarnSsl id st3).
  set (st5 := relocate "token" WarnToken id st4).
  assert (consulAgrees c0 st5) as J5.
  { unfold st5, st4, st3, st2, st1.
    repeat first
      [ apply dropPath_consulAgrees
      | apply relocate_consulAgrees;
          [unfold relocatedKeys; rewrite !elem_of_cons; tauto|done|] ].
    exact J0. }
  assert (consulIsMap st5) as [consul Hc].
  { unfold relocatedKeys in Hk. rewrite !elem_of_cons in Hk.
    destruct Hk as [->|[->|[->|[->|Hk]]]]; [..|by apply elem_of_nil in Hk].
    - do 3 (apply relocate_consulIsMap; [done|left]).
      apply dropPath_consulIsMap, relocate_consulIsMap; [done|right].
      cbn [fst]. by rewrite Hp2.
    - do 2 (apply relocate_consulIsMap; [done|left]).
      apply relocate_consulIsMap; [done|right].
      unfold st2, st1. apply dropPath_dom_other; [done|].
      apply relocate_dom_other; [done..|]. cbn [fst]. by rewrite Hp2.
    - apply relocate_consulIsMap; [done|left].
      apply relocate_consulIsMap; [done|right].
      unfold st3, st2, st1. apply relocate_dom_other; [done..|].
      apply dropPath_dom_other; [done|].
      apply relocate_dom_other; [done..|]. cbn [fst]. by rewrite Hp2.
    - apply relocate_consulIsMap; [done|right].
      unfold st4, st3, st2, st1. do 2 (apply relocate_dom_other; [done..|]).
      apply dropPath_dom_other; [done|].
      apply relocate_dom_other; [done..|]. cbn [fst]. by rewrite Hp2. }
  exists consul. split; [exact Hc|]. intros k Hn.
  specialize (J5 k Hn). unfold consulOf at 1 in J5. by rewrite Hc in J5.
Qed.

(** X7: when the decoded mapping has one of the deprecated keys auth,
    retry, ssl and token, the consul value handed to the binder is a
    mapping, and under every other name it holds what the (flattened)
    consul mapping of the input held: relocation adds to the consul stanza
    and keeps its other entries. *)
Theorem normalize_keeps_consul_entries (parsed : gmap string value)
    (key : string) :
  key ∈ relocatedKeys → key ∈ dom parsed →
  ∃ consul,
    (normalize parsed).1 !! "consul" = Some (VMap consul) ∧
    ∀ k, k ∉ relocatedKeys →
      consul !! k = consulOf (flattenKeys parsed stanzaKeys) !! k.
Proof. apply normalize_consul_entries. Qed.

(** X8: when consul is given as a scalar (such as an address string)
    beside one of the deprecated keys auth, retry, ssl and token, the
    relocation replaces it by a new mapping: the consul value handed to the
    binder holds relocated entries only, and the scalar is lost. *)
Theorem normalize_discards_scalar_consul (parsed : gmap string value)
    (key : string) (v : value) :
  parsed !! "consul" = Some v → (∀ m, v ≠ VMap m) → (∀ l, v ≠ VMaps l) →
  key ∈ relocatedKeys → key ∈ dom parsed →
  ∃ consul,
    (normalize parsed).1 !! "consul" = Some (VMap consul) ∧
    dom consul ⊆ list_to_set relocatedKeys.
Proof.
  intros Hv Hm Hl Hk Hd.
  destruct (normalize_consul_entries parsed key Hk Hd) as (consul&Hc&He).
  exists consul. split; [done|]. intros k Hkc.
  apply elem_of_list_to_set. destruct (decide (k ∈ relocatedKeys)) as [|Hn]; [done|].
  apply He in Hn. apply elem_of_dom in Hkc as [x Hx]. rewrite Hx in Hn.
  unfold consulOf, flattenKeys in Hn. rewrite flatten_lookup, Hv in Hn.
  cbn [fmap option_fmap option_map] in Hn.
  destruct v as [| | | | | |m|l];
    [..|by destruct (Hm m)|by destruct (Hl l)];
    by destruct (decide _) in Hn.
Qed.

(** X20: the legacy handling of [Parse] touches nothing else: under every
    top-level key that is not deprecated, the mapping handed to the binder
    holds what the flattening of the nested-stanza keys left there; for
    consul this holds when none of auth, retry, ssl and token is
    present. *)
Theorem normalize_leaves_other_keys (parsed : gmap string value) (k : string) :
  k ∉ legacyKeys →
  (k = "consul" → Forall (λ key, parsed !! key = None) relocatedKeys) →
  (normalize parsed).1 !! k = flattenKeys parsed stanzaKeys !! k.
Proof.
  clear TrimSpace EqualFold.
  intros Hl Hc. unfold legacyKeys in Hl.
  rewrite !not_elem_of_cons in Hl. destruct Hl as (?&?&?&?&?&_).
  assert (flattenKeys (flattenKeys parsed stanzaKeys) deprecatedKeys !! k
          = flattenKeys parsed stanzaKeys !! k) as HF.
  { apply flattenKeys_lookup_other. unfold deprecatedKeys.
    rewrite !not_elem_of_cons. split_and!; try done. apply not_elem_of_nil. }
  unfold normalize. destruct (decide (k = "consul")) as [->|Hne].
  - specialize (Hc eq_refl). unfold relocatedKeys in Hc.
    rewrite !Forall_cons in Hc. destruct Hc as (Ha&Hr&Hs&Ht&_).
    assert (∀ key, parsed !! key = None →
      flattenKeys (flattenKeys parsed stanzaKeys) deprecatedKeys !! key = None)
      as Hn.
    { intros key Hk. apply not_elem_of_dom.
      rewrite !flattenKeys_dom. by apply not_elem_of_dom. }
    rewrite (relocate_absent "auth") by (cbn; by apply Hn).
    rewrite (relocate_absent "retry")
      by (rewrite dropPath_lookup_other by done; by apply Hn).
    rewrite (relocate_absent "ssl")
      by (rewrite dropPath_lookup_other by done; by apply Hn).
    rewrite (relocate_absent "token")
      by (rewrite dropPath_lookup_other by done; by apply Hn).
    rewrite dropPath_lookup_other by done. exact HF.
  - rewrite !relocate_lookup_other, dropPath_lookup_other,
      relocate_lookup_other by done.
    exact HF.
Qed.

(** ** [regexpMatch] *)

Lemma regexpGroups_closed_form names i groups m :
  i + length groups ≤ length names →
  regexpGroups names i groups m
  = Some (list_to_map (reverse (namedGroups (drop i names) groups)) ∪ m).
Proof.
  revert i m. induction groups as [|n rest IH]; intros i m Hlen; cbn in *.
  - unfold namedGroups. rewrite zip_with_nil_r. cbn.
    by rewrite (left_id_L ∅ (∪)).
  - destruct (names !! i) as [name|] eqn:E.
    2:{ apply lookup_ge_None in E. lia. }
    rewrite IH by lia. f_equal.
    rewrite (drop_S _ _ _ E). unfold namedGroups. cbn [zip zip_with].
    rewrite filter_cons. cbn [fst]. case_decide; [|done].
    rewrite reverse_cons, list_to_map_app, <-(assoc_L (∪)). f_equal.
    cbn [list_to_map foldr uncurry fst snd].
    by rewrite insert_empty, <-insert_union_singleton_l.
Qed.

(** X9: when the expression matches, [regexpMatch] returns the named
    groups of the first match only: each non-empty group name is mapped to
    the text of its group, a later group winning over an earlier one of
    the same name; the unnamed groups (the whole match among them) are
    left out, so the empty string is never a key, and the other matches
    are ignored. *)
Theorem regexpMatch_named_groups {Regexp : Type}
    (SubexpNames : Regexp → list string)
    (FindAllStringSubmatch : Regexp → string → Z → list (list string))
    (re : Regexp) (q : string) (first : list string)
    (rest : list (list string)) :
  FindAllStringSubmatch re q (-1)%Z = first :: rest →
  length first ≤ length (SubexpNames re) →
  ∃ m, regexpMatch SubexpNames FindAllStringSubmatch re q = Some m ∧
    m = list_to_map (reverse (namedGroups (SubexpNames re) first)) ∧
    m !! "" = None.
Proof.
  intros Hm Hlen. unfold regexpMatch. rewrite Hm.
  rewrite regexpGroups_closed_form by (cbn; lia).
  rewrite (right_id_L ∅ (∪)). eexists. split_and!; [reflexivity..|].
  apply not_elem_of_list_to_map_1. rewrite list_elem_of_fmap.
  intros ([n s]&Hn&Hin). cbn in Hn. subst n.
  rewrite elem_of_reverse in Hin. unfold namedGroups in Hin.
  by apply list_elem_of_filter in Hin as [Hne _].
Qed.

(** ** More on [Finalize], [Merge], [DefaultConfig] and [TestConfig] *)
Lemma set_configs_id (h : heap) : set_region (configs h) h = h.
Proof. by destruct h. Qed.

Lemma wp_defaultField_exact {V} {RV : Region V} {PV : Pointee V}
    {FV : RegionFrame V}
    (l : loc) (cv : Config) (F : Config → ptr V)
    (with_F : ptr V → Config → Config) (d : V) (h : heap) :
  configs h !! l = Some cv → with_F (F cv) cv = cv →
  wp (defaultField (addr l) F with_F (new d)) h (λ _ h', ∃ p m',
    defaultedScalar d (region h) m' (F cv) p ∧
    h' = set_region m' (set_region (<[l := with_F p cv]> (configs h)) h)).
Proof.
  intros Hl Hid. unfold defaultField.
  apply wp_bind. eapply wp_field; [exact Hl|].
  destruct (F cv) as [|q] eqn:EF; cbn [is_nil].
  - apply wp_bind, wp_new. intros q Hq.
    eapply wp_assign; [by rewrite pointee_frame|].
    exists (addr q), (<[q:=d]> (region h)). split; [by exists q|].
    by rewrite pointee_frame, set_region_comm.
  - apply wp_ret. exists (addr q), (region h). split; [done|].
    by rewrite Hid, insert_id, set_configs_id, set_region_id.
Qed.

Lemma wp_finalizeField_exact {V} {RV : Region V} {PV : Pointee V}
    {FV : RegionFrame V} {SV : Stanza V}
    (l : loc) (cv : Config) (F : Config → ptr V)
    (with_F : ptr V → Config → Config) (h : heap) :
  configs h !! l = Some cv → with_F (F cv) cv = cv →
  (∀ p, F (with_F p cv) = p) → valid h (F cv) →
  wp (finalizeField (addr l) F with_F) h (λ _ h', ∃ p m',
    finalizedStanza (region h) m' (F cv) p ∧
    h' = set_region m' (set_region (<[l := with_F p cv]> (configs h)) h)).
Proof.
  intros Hl Hid Hget Hv. unfold finalizeField, stanzaDefault.
  apply wp_bind. eapply wp_mono; [by apply wp_defaultField_exact|].
  intros [] h1 (p&m1&Hp&->).
  apply wp_bind. eapply wp_field.
  { rewrite pointee_frame. cbn. apply lookup_insert_eq. }
  rewrite Hget. unfold stanzaFinalize.
  destruct (F cv) as [|q0] eqn:EF; cbn [defaultedScalar] in Hp.
  - destruct Hp as (q&->&Hq&->).
    apply wp_bind. eapply wp_load.
    { rewrite region_set. apply lookup_insert_eq. }
    apply wp_store; [rewrite region_set, lookup_insert_eq; by eauto|].
    exists (addr q), (<[q:=stanza_finalize stanza_default]> (region h)).
    split; [by exists q, stanza_default|].
    by rewrite region_set, set_region_set, insert_insert_eq.
  - destruct Hp as [-> ->]. cbn in Hv.
    apply bool_decide_unpack in Hv as [v Hv].
    rewrite Hid, insert_id, set_configs_id, set_region_id by done.
    apply wp_bind. eapply wp_load; [exact Hv|].
    apply wp_store; [by eauto|].
    exists (addr q0), (<[q0:=stanza_finalize v]> (region h)).
    split; [by exists q0, v|].
    by rewrite Hid, (insert_id (configs h) l cv), set_configs_id.
Qed.

Local Ltac heaps :=
  cbn [set_region region configRegion consulRegion excludesRegion
       prefixesRegion syslogRegion waitRegion stringRegion signalRegion
       durationRegion configs consuls excludes prefixes syslogs waits
       strings signals durations] in *.

Lemma wp_Finalize_exact Getenv (l : loc) (cv : Config) (h : heap) :
  configs h !! l = Some cv → closed h cv →
  wp (Finalize TrimSpace Getenv (addr l)) h (λ _ h',
    ∃ cv', finalizeEffect TrimSpace Getenv l h h' cv cv').
Proof.
  intros R0 Hcl. unfold closed in Hcl.
  rewrite !andb_True in Hcl. destruct Hcl as ((((V1&V2)&V3)&V4)&V5).
  destruct cv as [c1 c2 c3 c4 c5 c6 c7 c8 c9 c10 c11 c12].
  destruct h as [cf cs ex pr sy wa st sg du]. fields. heaps.
  cbn [Finalize]. unfold config_Signal, config_TimeDuration, config_String.
  apply wp_bind. eapply wp_mono;
    [eapply (wp_finalizeField_exact l _ Consul with_Consul);
       [exact R0|reflexivity|reflexivity|exact V1]|].
  intros [] ? (p1&m1&K1&->). fields. heaps.
  apply wp_bind. eapply wp_mono;
    [eapply (wp_finalizeField_exact l _ Excludes with_Excludes);
       [apply lookup_insert_eq|reflexivity|reflexivity|exact V2]|].
  intros [] ? (p2&m2&K2&->). fields. heaps. rewrite insert_insert_eq.
  apply wp_bind. eapply wp_mono;
    [eapply (wp_defaultField_exact l _ KillSignal with_KillSignal);
       [apply lookup_insert_eq|reflexivity]|].
  intros [] ? (p3&m3&K3&->). fields. heaps. rewrite insert_insert_eq.
  rewrite stringFromEnv_new. unfold config_String.
  apply wp_bind. eapply wp_mono;
    [eapply (wp_defaultField_exact l _ LogLevel with_LogLevel);
       [apply lookup_insert_eq|reflexivity]|].
  intros [] ? (p4&m4&K4&->). fields. heaps. rewrite insert_insert_eq.
  apply wp_bind. eapply wp_mono;
    [eapply (wp_defaultField_exact l _ MaxStale with_MaxStale);
       [apply lookup_insert_eq|reflexivity]|].
  intros [] ? (p5&m5&K5&->). fields. heaps. rewrite insert_insert_eq.
  apply wp_bind. eapply wp_mono;
    [eapply (wp_finalizeField_exact l _ Prefixes with_Prefixes);
       [apply lookup_insert_eq|reflexivity|reflexivity|exact V3]|].
  intros [] ? (p6&m6&K6&->). fields. heaps. rewrite insert_insert_eq.
  apply wp_bind. eapply wp_mono;
    [eapply (wp_defaultField_exact l _ PidFile with_PidFile "");
       [apply lookup_insert_eq|reflexivity]|].
  intros [] ? (p7&m7&K7&->). fields. heaps. rewrite insert_insert_eq.
  apply wp_bind. eapply wp_mono;
    [eapply (wp_defaultField_exact l _ ReloadSignal with_ReloadSignal);
       [apply lookup_insert_eq|reflexivity]|].
  intros [] ? (p8&m8&K8&->). fields. heaps. rewrite insert_insert_eq.
  apply wp_bind. eapply wp_mono;
    [eapply (wp_defaultField_exact l _ StatusDir with_StatusDir);
       [apply lookup_insert_eq|reflexivity]|].
  intros [] ? (p9&m9&K9&->). fields. heaps. rewrite insert_insert_eq.
  apply wp_bind. eapply wp_mono;
    [eapply (wp_finalizeField_exact l _ Syslog with_Syslog);
       [apply lookup_insert_eq|reflexivity|reflexivity|exact V4]|].
  intros [] ? (p10&m10&K10&->). fields. heaps. rewrite insert_insert_eq.
  eapply wp_mono;
    [eapply (wp_finalizeField_exact l _ Wait with_Wait);
       [apply lookup_insert_eq|reflexivity|reflexivity|exact V5]|].
  intros [] ? (p11&m11&K11&->). fields. heaps. rewrite insert_insert_eq.
  eexists. unfold finalizeEffect. fields. heaps.
  split_and!; [reflexivity|reflexivity|exact K1|exact K2|exact K6|exact K10
              |exact K11| | |exact K5].
  - exists m4, m7. done.
  - exists m3. done.
Qed.

(** X10: the whole effect of [Finalize] on a [Config] whose nested
    entities are objects of the heap: it returns; the [Config] is updated
    in place and no other [Config] changes; each nested field keeps its
    object, or gets a new one with the default contents when it was nil,
    and that one object is finalized while the other objects of its type
    keep their contents; each scalar field keeps its pointer, or gets a
    new object holding the default when it was nil, and no existing scalar
    object changes; DestinationConsul is left as it is. *)
Theorem Finalize_effect (Getenv : string → string) (h : heap) (l : loc)
    (cv : Config) :
  configs h !! l = Some cv → closed h cv →
  ∃ h' cv',
    Finalize TrimSpace Getenv (addr l) h = Done tt h' ∧
    finalizeEffect TrimSpace Getenv l h h' cv cv'.
Proof.
  intros Hl Hc.
  destruct (wp_elim _ _ _ (wp_Finalize_exact Getenv l cv h Hl Hc))
    as ([]&h'&Hrun&cv'&E).
  by exists h', cv'.
Qed.
Lemma valid_deref_Some {V} {RV : Region V} (h : heap) (p : ptr V) :
  valid h p → is_nil p = false → is_Some (deref h p).
Proof.
  destruct p as [|q]; [done|]. cbn. by intros ?%bool_decide_unpack _.
Qed.

Lemma deref_Some_valid {V} {RV : Region V} (h : heap) (p : ptr V) :
  (is_nil p = false → is_Some (deref h p)) → valid h p.
Proof.
  destruct p as [|q]; [done|]. cbn. intros H. apply bool_decide_pack. by apply H.
Qed.

Lemma copy_of_valid {V} {RV : Region V} (h h' : heap) (p r : ptr V) :
  valid h p → copy_of h h' p r → valid h' r.
Proof.
  intros Hv (Hd&_&Hn). apply deref_Some_valid. intros Hr.
  rewrite Hd. apply valid_deref_Some; [done|congruence].
Qed.

Lemma copied_closed (h h' : heap) (cv o : Config) :
  closed h cv → copied h h' cv o → closed h' o.
Proof.
  unfold closed. rewrite !andb_True.
  intros ((((V1&V2)&V3)&V4)&V5) (_&_&_&_&_&_&C1&C2&C3&C4&C5).
  split_and!;
    [exact (copy_of_valid _ _ _ _ V1 C1)|exact (copy_of_valid _ _ _ _ V2 C2)
    |exact (copy_of_valid _ _ _ _ V3 C3)|exact (copy_of_valid _ _ _ _ V4 C4)
    |exact (copy_of_valid _ _ _ _ V5 C5)].
Qed.

Lemma merge_of_valid {V} {RV : Region V} {SV : Stanza V} (h h' : heap)
    (c o r : ptr V) :
  valid h c → valid h o → merge_of h h' c o r → valid h' r.
Proof.
  intros Hc Ho (Hd&_&Hn). apply deref_Some_valid. intros Hr.
  rewrite Hd. rewrite Hr in Hn. symmetry in Hn.
  apply andb_false_iff in Hn as [Hn|Hn].
  - destruct (valid_deref_Some _ _ Hc Hn) as [a ->].
    destruct (deref h o); cbn; eauto.
  - destruct (valid_deref_Some _ _ Ho Hn) as [b ->].
    destruct (deref h c); cbn; eauto.
Qed.

Lemma merged_config_closed (h h' : heap) (cv ov r : Config) :
  closed h cv → closed h ov → merged_config h h' cv ov r → closed h' r.
Proof.
  unfold closed. rewrite !andb_True.
  intros ((((V1&V2)&V3)&V4)&V5) ((((W1&W2)&W3)&W4)&W5)
    (_&_&_&_&_&_&C1&C2&C3&C4&C5).
  split_and!;
    [exact (merge_of_valid _ _ _ _ _ V1 W1 C1)
    |exact (merge_of_valid _ _ _ _ _ V2 W2 C2)
    |exact (merge_of_valid _ _ _ _ _ V3 W3 C3)
    |exact (merge_of_valid _ _ _ _ _ V4 W4 C4)
    |exact (merge_of_valid _ _ _ _ _ V5 W5 C5)].
Qed.

Lemma pick_nil_r {V} (p : ptr V) : pick p nil = p.
Proof. done. Qed.

Lemma pick_nil_l {V} (p : ptr V) : pick nil p = p.
Proof. by destruct p. Qed.

Lemma copy_of_merge_of_r {V} {RV : Region V} {SV : Stanza V} (h h' : heap)
    (c r : ptr V) :
  copy_of h h' c r ↔ merge_of h h' c nil r.
Proof.
  unfold copy_of, merge_of. cbn [deref is_nil].
  by rewrite merged_None_r, andb_true_r.
Qed.

Lemma copy_of_merge_of_l {V} {RV : Region V} {SV : Stanza V} (h h' : heap)
    (o r : ptr V) :
  copy_of h h' o r ↔ merge_of h h' nil o r.
Proof. done. Qed.

Lemma copied_merged_zero_r (h h' : heap) (cv r : Config) :
  copied h h' cv r ↔ merged_config h h' cv zeroConfig r.
Proof.
  unfold copied, merged_config. fields. rewrite !pick_nil_r.
  by rewrite <-!copy_of_merge_of_r.
Qed.

Lemma copied_merged_zero_l (h h' : heap) (cv r : Config) :
  copied h h' cv r ↔ merged_config h h' zeroConfig cv r.
Proof.
  unfold copied, merged_config. fields. rewrite !pick_nil_l.
  by rewrite <-!copy_of_merge_of_l.
Qed.

Lemma wp_Merge_configOf (l : loc) (cv : Config) (o : ptr Config)
    (ov : Config) (h : heap) :
  configs h !! l = Some cv → closed h cv →
  configOf h o = Some ov → closed h ov →
  wp (Merge (addr l) o) h (λ r h',
    ∃ l' rv, r = addr l' ∧ configs h !! l' = None ∧
      configs h' !! l' = Some rv ∧ heap_incl h h' ∧
      DestinationConsul rv = nil ∧ merged_config h h' cv ov rv).
Proof.
  intros Hl Hc Ho Hoc. destruct o as [|lo]; cbn in Ho.
  - injection Ho as <-. cbn [Merge].
    eapply wp_mono; [by apply wp_Copy|].
    intros r h' (l'&rv&->&?&?&?&?&?). exists l', rv.
    split_and!; try done. by apply copied_merged_zero_r.
  - by apply wp_Merge.
Qed.

(** X13: the empty [Config] is a left and a right identity of [Merge], up
    to copying: merging a [Config] with the zero [Config], on either side,
    returns a new [Config] with what [Copy] returns for it, and changes no
    existing object. *)
Theorem Merge_zero_identity (h : heap) (la lz : loc) (a : Config) :
  configs h !! la = Some a → closed h a →
  configs h !! lz = Some zeroConfig →
  (∃ l' r h', Merge (addr la) (addr lz) h = Done (addr l') h' ∧
     configs h' !! l' = Some r ∧ heap_incl h h' ∧ copied h h' a r) ∧
  (∃ l' r h', Merge (addr lz) (addr la) h = Done (addr l') h' ∧
     configs h' !! l' = Some r ∧ heap_incl h h' ∧ copied h h' a r).
Proof.
  intros Ha Hc Hz. split.
  - destruct (wp_elim _ _ _ (wp_Merge la lz a zeroConfig h Ha Hz Hc I))
      as (?&h'&Hrun&l'&r&->&_&Hr&Hi&_&Hm).
    exists l', r, h'. split_and!; try done. by apply copied_merged_zero_r.
  - destruct (wp_elim _ _ _ (wp_Merge lz la zeroConfig a h Hz Ha I Hc))
      as (?&h'&Hrun&l'&r&->&_&Hr&Hi&_&Hm).
    exists l', r, h'. split_and!; try done. by apply copied_merged_zero_l.
Qed.

Lemma merge_of_after_copy {V} {RV : Region V} {SV : Stanza V}
    (h h1 h' : heap) (a b a1 r : ptr V) :
  heap_incl h h1 → valid h a → valid h b →
  copy_of h h1 a a1 → merge_of h1 h' a1 b r → merge_of h h' a b r.
Proof.
  intros Hi Va Vb (Hd&Hf&Hn) (Md&Mf&Mn). split_and!.
  - by rewrite Md, Hd, (deref_valid_incl h h1 b).
  - by eapply fresh_in_incl.
  - by rewrite Mn, Hn.
Qed.

(** X14: folding from a nil accumulator, as [FromPath] does over the files
    of a directory: [(nil.Merge(a)).Merge(b)] returns what [a.Merge(b)]
    returns, the fields of [a] overwritten by those present in [b], and
    changes no existing object. *)
Theorem Merge_fold_from_nil (h : heap) (la lb : loc) (a b : Config) :
  configs h !! la = Some a → configs h !! lb = Some b →
  closed h a → closed h b →
  ∃ l1 h1 l' r h',
    Merge nil (addr la) h = Done (addr l1) h1 ∧
    Merge (addr l1) (addr lb) h1 = Done (addr l') h' ∧
    configs h' !! l' = Some r ∧ heap_incl h h' ∧
    DestinationConsul r = nil ∧ merged_config h h' a b r.
Proof.
  intros Ha Hb Hca Hcb.
  destruct (wp_elim _ _ _ (wp_Copy la a h Ha Hca))
    as (?&h1&Hrun1&l1&a1&->&_&Ha1&Hi1&_&Hcp).
  pose proof (copied_closed _ _ _ _ Hca Hcp) as Hca1.
  pose proof (heap_incl_lookup (RV:=configRegion) _ _ _ _ Hi1 Hb) as Hb1.
  pose proof (closed_incl _ _ _ Hi1 Hcb) as Hcb1.
  destruct (wp_elim _ _ _ (wp_Merge l1 lb a1 b h1 Ha1 Hb1 Hca1 Hcb1))
    as (?&h'&Hrun2&l'&r&->&_&Hr&Hi2&Hd&Hm).
  exists l1, h1, l', r, h'. split_and!; try done.
  { by eapply heap_incl_trans. }
  unfold closed in Hca, Hcb. rewrite !andb_True in Hca, Hcb.
  destruct Hca as ((((V1&V2)&V3)&V4)&V5).
  destruct Hcb as ((((W1&W2)&W3)&W4)&W5).
  destruct Hcp as (E1&E2&E3&E4&E5&E6&C1&C2&C3&C4&C5).
  destruct Hm as (M1&M2&M3&M4&M5&M6&G1&G2&G3&G4&G5).
  unfold merged_config.
  rewrite M1, M2, M3, M4, M5, M6, E1, E2, E3, E4, E5, E6.
  split_and!; try done;
    [exact (merge_of_after_copy _ _ _ _ _ _ _ Hi1 V1 W1 C1 G1)
    |exact (merge_of_after_copy _ _ _ _ _ _ _ Hi1 V2 W2 C2 G2)
    |exact (merge_of_after_copy _ _ _ _ _ _ _ Hi1 V3 W3 C3 G3)
    |exact (merge_of_after_copy _ _ _ _ _ _ _ Hi1 V4 W4 C4 G4)
    |exact (merge_of_after_copy _ _ _ _ _ _ _ Hi1 V5 W5 C5 G5)].
Qed.

Lemma wp_DefaultConfig (h : heap) :
  wp DefaultConfig h (λ r h', ∃ l0 d0,
    r = addr l0 ∧ configs h !! l0 = None ∧ configs h' !! l0 = Some d0 ∧
    heap_incl h h' ∧ closed h' d0 ∧
    KillSignal d0 = nil ∧ LogLevel d0 = nil ∧ MaxStale d0 = nil ∧
    PidFile d0 = nil ∧ ReloadSignal d0 = nil ∧
    newObject h h' stanza_default (Consul d0) ∧
    newObject h h' stanza_default (DestinationConsul d0) ∧
    Consul d0 ≠ DestinationConsul d0 ∧
    newObject h h' stanza_default (Excludes d0) ∧
    newObject h h' stanza_default (Prefixes d0) ∧
    newObject h h' DefaultStatusDir (StatusDir d0) ∧
    newObject h h' stanza_default (Syslog d0) ∧
    newObject h h' stanza_default (Wait d0)).
Proof.
  destruct h as [cf cs ex pr sy wa st sg du].
  unfold DefaultConfig, stanzaDefault, config_String.
  apply wp_bind, wp_new. intros q1 H1. heaps.
  apply wp_bind, wp_new. intros q2 H2. heaps.
  apply wp_bind, wp_new. intros q3 H3. heaps.
  apply wp_bind, wp_new. intros q4 H4. heaps.
  apply wp_bind, wp_new. intros q5 H5. heaps.
  apply wp_bind, wp_new. intros q6 H6. heaps.
  apply wp_bind, wp_new. intros q7 H7. heaps.
  apply (wp_new (RV:=configRegion)). intros l0 H0. heaps.
  assert (q2 ≠ q1) as Hne by (intros ->; by rewrite lookup_insert_eq in H2).
  rewrite lookup_insert_ne in H2 by done.
  eexists l0, _. split_and!; [reflexivity|exact H0|apply lookup_insert_eq|..];
    fields; try reflexivity.
  - repeat split; heaps; try done; try (by apply insert_subseteq).
    etrans; [|apply insert_subseteq; by rewrite lookup_insert_ne].
    by apply insert_subseteq.
  - unfold closed. fields. cbn. rewrite !lookup_insert_eq.
    rewrite lookup_insert_ne, lookup_insert_eq by done.
    rewrite !bool_decide_eq_true_2 by eauto. done.
  - split_and!; [done|exact H1|]. cbn.
    by rewrite lookup_insert_ne, lookup_insert_eq.
  - split_and!; [done|exact H2|]. cbn. by rewrite lookup_insert_eq.
  - congruence.
  - split_and!; [done|exact H3|]. cbn. by rewrite lookup_insert_eq.
  - split_and!; [done|exact H4|]. cbn. by rewrite lookup_insert_eq.
  - split_and!; [done|exact H5|]. cbn. by rewrite lookup_insert_eq.
  - split_and!; [done|exact H6|]. cbn. by rewrite lookup_insert_eq.
  - split_and!; [done|exact H7|]. cbn. by rewrite lookup_insert_eq.
Qed.

(** X15: [DefaultConfig] returns a new [Config] and changes no existing
    object: Consul, DestinationConsul, Excludes, Prefixes, Syslog and Wait
    are new objects with the default contents (DestinationConsul an object
    of its own, not the one of Consul), StatusDir is a new string holding
    the default status directory, and KillSignal, LogLevel, MaxStale,
    PidFile and ReloadSignal are nil. *)
Theorem DefaultConfig_new_objects (h : heap) :
  ∃ l0 d0 h',
    DefaultConfig h = Done (addr l0) h' ∧
    configs h !! l0 = None ∧ configs h' !! l0 = Some d0 ∧
    heap_incl h h' ∧
    KillSignal d0 = nil ∧ LogLevel d0 = nil ∧ MaxStale d0 = nil ∧
    PidFile d0 = nil ∧ ReloadSignal d0 = nil ∧
    newObject h h' stanza_default (Consul d0) ∧
    newObject h h' stanza_default (DestinationConsul d0) ∧
    Consul d0 ≠ DestinationConsul d0 ∧
    newObject h h' stanza_default (Excludes d0) ∧
    newObject h h' stanza_default (Prefixes d0) ∧
    newObject h h' DefaultStatusDir (StatusDir d0) ∧
    newObject h h' stanza_default (Syslog d0) ∧
    newObject h h' stanza_default (Wait d0).
Proof.
  destruct (wp_elim _ _ _ (wp_DefaultConfig h))
    as (?&h'&Hrun&l0&d0&->&?&?&?&_&?).
  by exists l0, d0, h'.
Qed.

Lemma defaultedScalar_subseteq {V} (d : V) (m m' : gmap loc V) (p r : ptr V) :
  defaultedScalar d m m' p r → m ⊆ m'.
Proof.
  destruct p as [|q0]; cbn.
  - intros (q&_&Hq&->). by apply insert_subseteq.
  - by intros [_ ->].
Qed.

Lemma defaulted_of_scalar {V} {RV : Region V} (h h2 : heap) (d : V)
    (m m' : gmap loc V) (p r : ptr V) :
  region h ⊆ m → m' ⊆ region h2 →
  defaultedScalar d m m' p r → defaulted h h2 d p r.
Proof.
  intros Hm Hm'. destruct p as [|q0]; cbn.
  - intros (q&->&Hq&->). split; [by split|]. intros _. split.
    + cbn. by eapply lookup_weaken_None.
    + cbn. eapply lookup_weaken; [|exact Hm']. apply lookup_insert_eq.
  - intros [-> _]. by split.
Qed.

Lemma defaulted_of_default {V} {RV : Region V} (h h0 h2 : heap) (d : V)
    (m m' : gmap loc V) (p0 pc r : ptr V) :
  region h0 ⊆ m → m' ⊆ region h2 → newObject h h0 d p0 →
  defaultedScalar d m m' (pick p0 pc) r → defaulted h h2 d pc r.
Proof.
  intros Hm Hm' (Hn&Hf&Hd) Hs. pose proof (defaultedScalar_subseteq _ _ _ _ _ Hs).
  destruct p0 as [|q0]; [done|]. unfold pick in Hs.
  destruct pc as [|qc]; cbn [is_nil] in Hs; cbn in Hs; destruct Hs as [-> ->].
  - split; [by split|]. intros _. split; [exact Hf|]. cbn in *.
    eapply lookup_weaken; [exact Hd|]. by etrans.
  - by split.
Qed.

Lemma overDefault_of_stanza {V} {RV : Region V} {SV : Stanza V}
    (h h0 h1 h2 : heap) (p0 pc pr pd : ptr V) :
  heap_incl h h0 → region h ⊆ region h1 → valid h pc →
  newObject h h0 stanza_default p0 → merge_of h0 h1 p0 pc pr →
  finalizedStanza (region h1) (region h2) pr pd →
  overDefault h h2 pc pd ∧ region h ⊆ region h2.
Proof.
  intros Hi H1 Vc (Hn&Hf&Hd) (Md&Mf&Mn) (q&v&->&E2&Hp).
  rewrite Hn in Mn. cbn in Mn. destruct pr as [|qr]; [done|].
  destruct Hp as [-> Hv]. cbn in Md, Mf. rewrite Hv, Hd in Md.
  rewrite (deref_valid_incl h h0 pc) in Md by done.
  assert (region h !! qr = None) as Hq.
  { by eapply lookup_weaken_None; [|by apply region_incl]. }
  split.
  - split_and!; [done|exact Hq|]. cbn. rewrite E2, lookup_insert_eq.
    f_equal. f_equal. destruct (deref h pc); cbn in Md; congruence.
  - rewrite E2. by apply insert_subseteq_r.
Qed.

Lemma wp_TestConfig Getenv (c : ptr Config) (cv : Config) (h : heap) :
  configOf h c = Some cv → closed h cv →
  wp (TestConfig TrimSpace Getenv c) h (λ r h', ∃ l' d,
    r = addr l' ∧ configs h !! l' = None ∧ configs h' !! l' = Some d ∧
    heap_incl h h' ∧ DestinationConsul d = nil ∧
    overDefault h h' (Consul cv) (Consul d) ∧
    overDefault h h' (Excludes cv) (Excludes d) ∧
    overDefault h h' (Prefixes cv) (Prefixes d) ∧
    overDefault h h' (Syslog cv) (Syslog d) ∧
    overDefault h h' (Wait cv) (Wait d) ∧
    defaulted h h' DefaultKillSignal (KillSignal cv) (KillSignal d) ∧
    defaulted h h'
      (envString TrimSpace Getenv ["CR_LOG"; "CONSUL_REPLICATE_LOG"]
         DefaultLogLevel)
      (LogLevel cv) (LogLevel d) ∧
    defaulted h h' DefaultMaxStale (MaxStale cv) (MaxStale d) ∧
    defaulted h h' "" (PidFile cv) (PidFile d) ∧
    defaulted h h' DefaultReloadSignal (ReloadSignal cv) (ReloadSignal d) ∧
    defaulted h h' DefaultStatusDir (StatusDir cv) (StatusDir d)).
Proof.
  intros Hc Hcl. unfold TestConfig.
  apply wp_bind. eapply wp_mono; [apply wp_DefaultConfig|].
  intros ? h0 (l0&d0&->&N0&L0&I0&C0&Z1&Z2&Z3&Z4&Z5&D1&_&_&D2&D3&D4&D5&D6).
  assert (configOf h0 c = Some cv) as Hc0.
  { destruct c as [|lc]; [done|]. cbn in *.
    by eapply (heap_incl_lookup (RV:=configRegion)). }
  pose proof (closed_incl _ _ _ I0 Hcl) as Hcl0.
  apply wp_bind. eapply wp_mono; [by apply (wp_Merge_configOf l0 d0 c cv)|].
  intros ? h1 (l1&rv&->&N1&L1&I1&DC&Hm).
  pose proof (merged_config_closed _ _ _ _ _ C0 Hcl0 Hm) as C1.
  apply wp_bind. eapply wp_mono; [by apply (wp_Finalize_exact Getenv l1 rv)|].
  intros [] h2 (d&E0&ED&F1&F2&F3&F4&F5&(s1&s2&S1&S2&S3)&(g1&G1&G2)&U1).
  apply wp_ret. exists l1, d.
  pose proof (heap_incl_trans _ _ _ I0 I1) as I01.
  destruct Hm as (M1&M2&M3&M4&M5&M6&X1&X2&X3&X4&X5).
  rewrite Z1, pick_nil_l in M1. rewrite Z2, pick_nil_l in M2.
  rewrite Z3, pick_nil_l in M3. rewrite Z4, pick_nil_l in M4.
  rewrite Z5, pick_nil_l in M5.
  rewrite M1 in G1. rewrite M2 in S1. rewrite M3 in U1. rewrite M4 in S2.
  rewrite M5 in G2. rewrite M6 in S3.
  unfold closed in Hcl. rewrite !andb_True in Hcl.
  destruct Hcl as ((((V1&V2)&V3)&V4)&V5).
  destruct (overDefault_of_stanza h h0 h1 h2 _ _ _ _ I0
              (region_incl _ _ I01) V1 D1 X1 F1) as [O1 R1].
  destruct (overDefault_of_stanza h h0 h1 h2 _ _ _ _ I0
              (region_incl _ _ I01) V2 D2 X2 F2) as [O2 R2].
  destruct (overDefault_of_stanza h h0 h1 h2 _ _ _ _ I0
              (region_incl _ _ I01) V3 D3 X3 F3) as [O3 R3].
  destruct (overDefault_of_stanza h h0 h1 h2 _ _ _ _ I0
              (region_incl _ _ I01) V4 D5 X4 F4) as [O4 R4].
  destruct (overDefault_of_stanza h h0 h1 h2 _ _ _ _ I0
              (region_incl _ _ I01) V5 D6 X5 F5) as [O5 R5].
  pose proof (defaultedScalar_subseteq _ _ _ _ _ S1) as T1.
  pose proof (defaultedScalar_subseteq _ _ _ _ _ S2) as T2.
  pose proof (defaultedScalar_subseteq _ _ _ _ _ S3) as T3.
  pose proof (defaultedScalar_subseteq _ _ _ _ _ G1) as T4.
  pose proof (defaultedScalar_subseteq _ _ _ _ _ G2) as T5.
  pose proof (defaultedScalar_subseteq _ _ _ _ _ U1) as T6.
  destruct I01 as (J1&J2&J3&J4&J5&J6&J7&J8&J9).
  assert (configs h !! l1 = None) as N.
  { destruct I0 as (J0&_). by eapply lookup_weaken_None. }
  split_and!; [done|exact N|by rewrite E0, lookup_insert_eq| |congruence
              |exact O1|exact O2|exact O3|exact O4|exact O5|..].
  - repeat split; try done.
    + rewrite E0. by apply insert_subseteq_r.
    + by etrans; [|etrans; [|etrans]].
    + by etrans; [|etrans].
    + by etrans.
  - exact (defaulted_of_scalar (RV:=signalRegion) h h2 _ _ _ _ _ J8 T5 G1).
  - refine (defaulted_of_scalar (RV:=stringRegion) h h2 _ _ _ _ _ J7 _ S1).
    by etrans.
  - refine (defaulted_of_scalar (RV:=durationRegion) h h2 _ _ _ _ _ J9 _ U1).
    done.
  - refine (defaulted_of_scalar (RV:=stringRegion) h h2 _ _ _ _ _ _ T3 S2).
    cbn. by etrans.
  - refine (defaulted_of_scalar (RV:=signalRegion) h h2 _ _ _ _ _ _ _ G2);
      [cbn; by etrans|done].
  - refine (defaulted_of_default (RV:=stringRegion) h h0 h2 _ _ _ _ _ _ _ _ D4 S3);
      [|done].
    destruct I1 as (_&_&_&_&_&_&K7&_). cbn. by etrans; [|etrans].
Qed.

(** X16: for an argument that is nil, or a [Config] whose nested entities
    are objects of the heap, [TestConfig] returns a new [Config] and
    changes no existing object, the argument included.  Every field of the
    result but DestinationConsul is present: each nested entity is a new
    object holding the finalized merge of the default contents with the
    argument's; each scalar is the argument's own pointer when the
    argument has the field, and otherwise a new object holding the
    default.  DestinationConsul is nil, although [DefaultConfig] fills
    it. *)
Theorem TestConfig_over_defaults (Getenv : string → string)
    (c : ptr Config) (cv : Config) (h : heap) :
  configOf h c = Some cv → closed h cv →
  ∃ l' d h',
    TestConfig TrimSpace Getenv c h = Done (addr l') h' ∧
    configs h !! l' = None ∧ configs h' !! l' = Some d ∧
    heap_incl h h' ∧ DestinationConsul d = nil ∧
    overDefault h h' (Consul cv) (Consul d) ∧
    overDefault h h' (Excludes cv) (Excludes d) ∧
    overDefault h h' (Prefixes cv) (Prefixes d) ∧
    overDefault h h' (Syslog cv) (Syslog d) ∧
    overDefault h h' (Wait cv) (Wait d) ∧
    defaulted h h' DefaultKillSignal (KillSignal cv) (KillSignal d) ∧
    defaulted h h'
      (envString TrimSpace Getenv ["CR_LOG"; "CONSUL_REPLICATE_LOG"]
         DefaultLogLevel)
      (LogLevel cv) (LogLevel d) ∧
    defaulted h h' DefaultMaxStale (MaxStale cv) (MaxStale d) ∧
    defaulted h h' "" (PidFile cv) (PidFile d) ∧
    defaulted h h' DefaultReloadSignal (ReloadSignal cv) (ReloadSignal d) ∧
    defaulted h h' DefaultStatusDir (StatusDir cv) (StatusDir d).
Proof.
  intros Hc Hcl.
  destruct (wp_elim _ _ _ (wp_TestConfig Getenv c cv h Hc Hcl))
    as (?&h'&Hrun&l'&d&->&?).
  by exists l', d, h'.
Qed.

Lemma finalizedStanza_valid {V} {RV : Region V} {SV : Stanza V} (h' : heap)
    (m : gmap loc V) (p p' : ptr V) :
  finalizedStanza m (region h') p p' → valid h' p'.
Proof.
  intros (q&v&->&E&_). cbn. apply bool_decide_pack.
  rewrite E, lookup_insert_eq. eauto.
Qed.

Lemma finalizeEffect_closed Getenv l (h h' : heap) (cv cv' : Config) :
  finalizeEffect TrimSpace Getenv l h h' cv cv' →
  configs h' !! l = Some cv' ∧ closed h' cv'.
Proof.
  intros (E0&_&F1&F2&F3&F4&F5&_). split; [by rewrite E0, lookup_insert_eq|].
  unfold closed. rewrite !andb_True. split_and!.
  - exact (finalizedStanza_valid (RV:=consulRegion) _ _ _ _ F1).
  - exact (finalizedStanza_valid (RV:=excludesRegion) _ _ _ _ F2).
  - exact (finalizedStanza_valid (RV:=prefixesRegion) _ _ _ _ F3).
  - exact (finalizedStanza_valid (RV:=syslogRegion) _ _ _ _ F4).
  - exact (finalizedStanza_valid (RV:=waitRegion) _ _ _ _ F5).
Qed.

Lemma finalizedStanza_present {V} {SV : Stanza V} (m0 m m' : gmap loc V)
    (p0 p p' : ptr V) :
  finalizedStanza m0 m p0 p → finalizedStanza m m' p p' → p' = p.
Proof. intros (q&v&->&_&_) (q'&v'&->&_&[-> _]). done. Qed.

Lemma defaultedScalar_present {V} (d0 d : V) (m0 m1 m m' : gmap loc V)
    (p0 p p' : ptr V) :
  defaultedScalar d0 m0 m1 p0 p → defaultedScalar d m m' p p' →
  p' = p ∧ m' = m.
Proof.
  intros H0 H. destruct p as [|q]; [|done].
  destruct p0; cbn in H0; [by destruct H0 as (?&?&_)|by destruct H0].
Qed.

(** X11: [Finalize] is idempotent on the [Config]: a second call, with
    any environment, returns, leaves the [Config] and every [Config] of the
    heap as the first call left them, allocates no string, signal or
    duration and changes none, and only finalizes again, in place, the five
    nested entities of the [Config]. *)
Theorem Finalize_twice (Getenv Getenv' : string → string) (h : heap)
    (l : loc) (cv : Config) :
  configs h !! l = Some cv → closed h cv →
  ∃ h1 cv1 h2,
    Finalize TrimSpace Getenv (addr l) h = Done tt h1 ∧
    configs h1 !! l = Some cv1 ∧
    Finalize TrimSpace Getenv' (addr l) h1 = Done tt h2 ∧
    configs h2 = configs h1 ∧ strings h2 = strings h1 ∧
    signals h2 = signals h1 ∧ durations h2 = durations h1 ∧
    finalizedStanza (consuls h1) (consuls h2) (Consul cv1) (Consul cv1) ∧
    finalizedStanza (excludes h1) (excludes h2) (Excludes cv1) (Excludes cv1) ∧
    finalizedStanza (prefixes h1) (prefixes h2) (Prefixes cv1) (Prefixes cv1) ∧
    finalizedStanza (syslogs h1) (syslogs h2) (Syslog cv1) (Syslog cv1) ∧
    finalizedStanza (waits h1) (waits h2) (Wait cv1) (Wait cv1).
Proof.
  intros Hl Hc.
  destruct (wp_elim _ _ _ (wp_Finalize_exact Getenv l cv h Hl Hc))
    as ([]&h1&Hrun1&cv1&E1).
  destruct (finalizeEffect_closed _ _ _ _ _ _ E1) as [Hl1 Hc1].
  destruct (wp_elim _ _ _ (wp_Finalize_exact Getenv' l cv1 h1 Hl1 Hc1))
    as ([]&h2&Hrun2&cv2&E2).
  exists h1, cv1, h2. split_and!; [exact Hrun1|exact Hl1|exact Hrun2|..].
  all: destruct E1 as (A0&AD&A1&A2&A3&A4&A5&(s1&s2&AS1&AS2&AS3)&(g1&AG1&AG2)&AU).
  all: destruct E2 as (B0&BD&B1&B2&B3&B4&B5&(t1&t2&BS1&BS2&BS3)&(k1&BG1&BG2)&BU).
  all: pose proof (finalizedStanza_present _ _ _ _ _ _ A1 B1) as P1.
  all: pose proof (finalizedStanza_present _ _ _ _ _ _ A2 B2) as P2.
  all: pose proof (finalizedStanza_present _ _ _ _ _ _ A3 B3) as P3.
  all: pose proof (finalizedStanza_present _ _ _ _ _ _ A4 B4) as P4.
  all: pose proof (finalizedStanza_present _ _ _ _ _ _ A5 B5) as P5.
  all: destruct (defaultedScalar_present _ _ _ _ _ _ _ _ _ AS1 BS1) as [Q1 ->].
  all: destruct (defaultedScalar_present _ _ _ _ _ _ _ _ _ AS2 BS2) as [Q2 ->].
  all: destruct (defaultedScalar_present _ _ _ _ _ _ _ _ _ AS3 BS3) as [Q3 R3].
  all: destruct (defaultedScalar_present _ _ _ _ _ _ _ _ _ AG1 BG1) as [Q4 ->].
  all: destruct (defaultedScalar_present _ _ _ _ _ _ _ _ _ AG2 BG2) as [Q5 R5].
  all: destruct (defaultedScalar_present _ _ _ _ _ _ _ _ _ AU BU) as [Q6 R6].
  all: try congruence.
  rewrite B0. apply insert_id.
  destruct cv1, cv2; fields; congruence.
Qed.

Lemma wp_stringFromEnv Getenv list def (h : heap) :
  wp (stringFromEnv TrimSpace Getenv list def) h (λ r h', ∃ q,
    r = addr q ∧ strings h !! q = None ∧
    h' = set_region (<[q := envString TrimSpace Getenv list def]> (strings h)) h).
Proof.
  rewrite stringFromEnv_new. unfold config_String.
  apply wp_new. intros q Hq. by exists q.
Qed.

Lemma envString_first Getenv pre s post def :
  Forall (λ x, Getenv x = "") pre → Getenv s ≠ "" →
  envString TrimSpace Getenv (pre ++ s :: post) def = TrimSpace (Getenv s).
Proof.
  intros Hpre Hs. induction Hpre as [|x pre Hx _ IH]; cbn.
  - by rewrite decide_True.
  - by rewrite decide_False by (by intros ?).
Qed.

Lemma envString_default Getenv list def :
  Forall (λ x, Getenv x = "") list →
  envString TrimSpace Getenv list def = def.
Proof.
  induction 1 as [|x l Hx _ IH]; cbn; [done|].
  by rewrite decide_False by (by intros ?).
Qed.

(** X12: [stringFromEnv] returns the address of a new string and changes
    no existing object; the string is the trimmed value of the first
    variable of the list whose value is not empty (also when trimming
    leaves nothing of it: the later variables and the default are not
    used then), and the default when every variable of the list is
    empty. *)
Theorem stringFromEnv_first_set (Getenv : string → string)
    (list : list string) (def : string) (h : heap) :
  ∃ q v h',
    stringFromEnv TrimSpace Getenv list def h = Done (addr q) h' ∧
    strings h !! q = None ∧ strings h' = <[q := v]> (strings h) ∧
    heap_incl h h' ∧
    (∀ pre s post, list = pre ++ s :: post →
       Forall (λ x, Getenv x = "") pre → Getenv s ≠ "" →
       v = TrimSpace (Getenv s)) ∧
    (Forall (λ x, Getenv x = "") list → v = def).
Proof.
  destruct (wp_elim _ _ _ (wp_stringFromEnv Getenv list def h))
    as (?&h'&Hrun&q&->&Hq&->).
  eexists q, (envString TrimSpace Getenv list def), _.
  split_and!; [exact Hrun|exact Hq|done| | |].
  - by apply (heap_incl_alloc (RV:=stringRegion)).
  - intros pre s post -> ??. by apply envString_first.
  - apply envString_default.
Qed.

(** ** [FromFile] and [FromPath] *)

Context {oserror FileMode : Type}.
Variable hclDecode : string → option value.
Variable IsNotExist : oserror → bool.
Variable Stat : string → oserror + FileMode.
Variable IsDir : FileMode → bool.
Variable IsRegular : FileMode → bool.
Variable modeString : FileMode → string.
Variable ReadDir : string → option oserror.
Variable ReadFile : string → oserror + string.
Variable walkVisits : string → list (visit oserror).

Lemma Walk_directories (visits : list (visit oserror)) (c : ptr Config)
    (log : list warning) (h : heap) :
  Forall (λ v, visit_info v = inr true) visits →
  Walk EqualFold hclDecode ReadFile visits c log h = Done (None, c, log) h.
Proof.
  intros Hv. revert log. induction Hv as [|v visits Hd _ IH]; intros log; [done|].
  cbn [Walk walkFn]. rewrite Hd. unfold walkFn, mbind, M_bind, mret, M_ret. cbv beta iota.
  rewrite app_nil_r. apply IH.
Qed.

Lemma Walk_app_directories (pre rest : list (visit oserror)) (c : ptr Config)
    (log : list warning) (h : heap) :
  Forall (λ v, visit_info v = inr true) pre →
  Walk EqualFold hclDecode ReadFile (pre ++ rest) c log h
  = Walk EqualFold hclDecode ReadFile rest c log h.
Proof.
  intros Hv. revert log. induction Hv as [|v visits Hd _ IH]; intros log; [done|].
  cbn [Walk walkFn app]. rewrite Hd. unfold walkFn, mbind, M_bind, mret, M_ret. cbv beta iota.
  rewrite app_nil_r. apply IH.
Qed.

(** X17: on a directory under which the walk finds no file (an empty
    directory, or directories only), [FromPath] returns a nil [Config] and
    no error, and leaves the heap as it is. *)
Theorem FromPath_directory_without_files (path : string) (stat : FileMode)
    (h : heap) :
  Stat path = inr stat → IsDir stat = true → ReadDir path = None →
  Forall (λ v, visit_info v = inr true) (walkVisits path) →
  FromPath EqualFold hclDecode IsNotExist Stat IsDir IsRegular modeString
    ReadDir ReadFile walkVisits path h
  = Done (inr nil, []) h.
Proof.
  intros Hs Hd Hr Hv. unfold FromPath. rewrite Hs, Hd, Hr.
  unfold mbind, M_bind. by rewrite Walk_directories.
Qed.

(** X18: when the first file that the walk of a directory finds cannot
    be read, [FromPath] returns no [Config] but the error of the read,
    wrapped in "from file: <file>" and then in "walk error"; the entries
    that the walk would have visited next play no part. *)
Theorem FromPath_stops_at_unreadable_file (path file : string)
    (stat : FileMode) (err : oserror) (pre post : list (visit oserror))
    (h : heap) :
  Stat path = inr stat → IsDir stat = true → ReadDir path = None →
  walkVisits path = pre ++ mkVisit file (inr false) :: post →
  Forall (λ v, visit_info v = inr true) pre →
  ReadFile file = inl err →
  FromPath EqualFold hclDecode IsNotExist Stat IsDir IsRegular modeString
    ReadDir ReadFile walkVisits path h
  = Done (inl (["walk error"; "from file: " +:+ file], OsError err), []) h.
Proof.
  intros Hs Hd Hr Hw Hpre Hf. unfold FromPath. rewrite Hs, Hd, Hr, Hw.
  unfold mbind, M_bind. rewrite Walk_app_directories by done.
  cbn [Walk visit_path visit_info walkFn]. unfold FromFile. rewrite Hf.
  reflexivity.
Qed.

(** X19: loading a file directly returns the [Config] that [Parse] built,
    whereas loading a directory that holds just this file returns a copy
    of it made by [Merge] on the nil accumulator: a new [Config] with what
    [Copy] returns, so without DestinationConsul, and with the same
    warnings. *)
Theorem FromPath_directory_copies_single_file (path file s : string)
    (stat fstat : FileMode) (pre post : list (visit oserror))
    (h h1 : heap) (l : loc) (cv : Config) (log : list warning) :
  Stat path = inr stat → IsDir stat = true → ReadDir path = None →
  walkVisits path = pre ++ mkVisit file (inr false) :: post →
  Forall (λ v, visit_info v = inr true) pre →
  Forall (λ v, visit_info v = inr true) post →
  Stat file = inr fstat → IsDir fstat = false → IsRegular fstat = true →
  ReadFile file = inr s →
  Parse EqualFold hclDecode s h = Done (inr (addr l), log) h1 →
  configs h1 !! l = Some cv → closed h1 cv →
  FromPath EqualFold hclDecode IsNotExist Stat IsDir IsRegular modeString
    ReadDir ReadFile walkVisits file h
  = Done (inr (addr l), log) h1 ∧
  ∃ l' o h',
    FromPath EqualFold hclDecode IsNotExist Stat IsDir IsRegular modeString
      ReadDir ReadFile walkVisits path h
    = Done (inr (addr l'), log) h' ∧
    l' ≠ l ∧ configs h' !! l' = Some o ∧ heap_incl h1 h' ∧
    copied h1 h' cv o ∧ DestinationConsul o = nil.
Proof.
  intros Hs Hd Hr Hw Hpre Hpost Hfs Hfd Hfr Hf Hp Hl Hc. split.
  - unfold FromPath. rewrite Hfs, Hfd, Hfr. unfold FromFile. rewrite Hf.
    unfold mbind, M_bind. by rewrite Hp.
  - destruct (wp_elim _ _ _ (wp_Copy l cv h1 Hl Hc))
      as (?&h'&Hrun&l'&o&->&Hn&Ho&Hi&Hdc&Hcp).
    exists l', o, h'. split_and!; try done.
    + unfold FromPath. rewrite Hs, Hd, Hr, Hw.
      unfold mbind, M_bind. rewrite Walk_app_directories by done.
      cbn [Walk visit_path visit_info walkFn]. unfold FromFile. rewrite Hf.
      unfold mbind, M_bind. rewrite Hp.
      unfold mret, M_ret. cbv beta iota. cbn [Merge].
      rewrite Hrun. cbv beta iota. cbn [app].
      by rewrite Walk_directories.
    + intros ->. congruence.
Qed.

End Properties.

(** * The claims on the concrete instance *)

(** C2: the copy's LogLevel is the original's pointer: the string behind
    the original's LogLevel is "INFO", and after assigning "ERR" through
    the copy's LogLevel the original's LogLevel reads "ERR". *)
Lemma Copy_shares_scalar_pointees :
  deref sample_heap (LogLevel sample_configA) = Some "INFO" ∧
  ∃ h', sample_assign_through_copy sample_heap = Done "ERR" h'.
Proof. split; [reflexivity|]. eexists. vm_compute. reflexivity. Qed.

Lemma Copy_copies_stanzas_shares_scalars_witness :
  configs sample_heap !! 1%positive = Some sample_configA ∧
  closed sample_heap sample_configA ∧
  ∃ l' o h',
    Copy (addr 1) sample_heap = Done (addr l') h' ∧
    configs h' !! l' = Some o ∧
    LogLevel o = LogLevel sample_configA ∧
    copy_of sample_heap h' (Consul sample_configA) (Consul o) ∧
    independent sample_heap h' (Consul o).
Proof.
  assert (configs sample_heap !! 1%positive = Some sample_configA) as H1
    by reflexivity.
  assert (closed sample_heap sample_configA) as H2 by (vm_compute; exact I).
  split; [exact H1|]. split; [exact H2|].
  destruct (Copy_copies_stanzas_shares_scalars sample_heap 1%positive sample_configA
              H1 H2)
    as (l'&o&h'&Hrun&_&Ho&_&(_&HL&_)&(HC&_)&(HI&_)).
  exists l', o, h'. exact (conj Hrun (conj Ho (conj HL (conj HC HI)))).
Defined.

(** C4: the result of [Merge] on a non-nil receiver shares the receiver's
    LogLevel string: assigning "ERR" through the result's LogLevel changes
    what the receiver's LogLevel reads, from "INFO" to "ERR". *)
Lemma Merge_shares_scalar_pointees :
  deref sample_heap (LogLevel sample_configA) = Some "INFO" ∧
  ∃ h', sample_assign_through_merge sample_heap = Done "ERR" h'.
Proof. split; [reflexivity|]. eexists. vm_compute. reflexivity. Qed.

Lemma Merge_nil_and_overwrite_witness :
  configs sample_heap !! 1%positive = Some sample_configA ∧
  configs sample_heap !! 2%positive = Some sample_configB ∧
  closed sample_heap sample_configA ∧ closed sample_heap sample_configB ∧
  ∃ l' r h',
    Merge (addr 1) (addr 2) sample_heap = Done (addr l') h' ∧
    configs h' !! l' = Some r ∧ heap_incl sample_heap h' ∧
    merged_config sample_heap h' sample_configA sample_configB r.
Proof.
  assert (configs sample_heap !! 1%positive = Some sample_configA) as H1
    by reflexivity.
  assert (configs sample_heap !! 2%positive = Some sample_configB) as H2
    by reflexivity.
  assert (closed sample_heap sample_configA) as H3 by (vm_compute; exact I).
  assert (closed sample_heap sample_configB) as H4 by (vm_compute; exact I).
  split; [exact H1|]. split; [exact H2|]. split; [exact H3|].
  split; [exact H4|].
  destruct (Merge_nil_and_overwrite sample_heap 1%positive 2%positive sample_configA
              sample_configB H1 H2 H3 H4)
    as (_&_&_&l'&r&h'&Hrun&_&_&Hr&Hi&Hm).
  exists l', r, h'. exact (conj Hrun (conj Hr (conj Hi Hm))).
Defined.

(** C6: a mapping stored under the key consul is not left unchanged:
    the sequence under its retry key is replaced by its last element. *)
Lemma flattenKeys_rewrites_inside_map :
  ∃ inner, sample_nested !! "consul" = Some (VMap inner) ∧
    flattenKeys sample_nested stanzaKeys !! "consul" ≠ Some (VMap inner).
Proof.
  eexists. split; [vm_compute; reflexivity|]. vm_compute. intros [=].
Qed.

(** The deprecated key path, which corresponds to no field of [Config],
    is not in the mapping that the binder takes: [Parse] drops it with a
    warning and returns a [Config]. *)
Lemma ParseMap_accepts_path :
  knownKey Sample.EqualFold "path" = false ∧
  ∃ l h', ParseMap Sample.EqualFold sample_path (emptyHeap : sampleHeap)
          = Done (inr (addr l), [WarnPath]) h'.
Proof.
  split; [vm_compute; reflexivity|]. eexists _, _. vm_compute. reflexivity.
Qed.


(** X21, on a mapping with the key bogus only. *)
Lemma ParseMap_rejects_unknown_key_witness :
  "bogus" ∈ dom sample_bogus ∧ ("bogus" ∉ legacyKeys) ∧
  knownKey Sample.EqualFold "bogus" = false ∧
  ∃ errs keys h',
    ParseMap Sample.EqualFold sample_bogus (emptyHeap : sampleHeap)
      = Done (inl (BindError errs), (normalize sample_bogus).2) h' ∧
    InvalidKeys keys ∈ errs ∧ "bogus" ∈ keys.
Proof.
  assert ("bogus" ∈ dom sample_bogus) as H1.
  { apply elem_of_dom. eexists. vm_compute. reflexivity. }
  assert ("bogus" ∉ legacyKeys) as H2.
  { unfold legacyKeys. rewrite !not_elem_of_cons.
    repeat split; try discriminate. apply not_elem_of_nil. }
  assert (knownKey Sample.EqualFold "bogus" = false) as H3
    by (vm_compute; reflexivity).
  split; [exact H1|]. split; [exact H2|]. split; [exact H3|].
  exact (ParseMap_rejects_unknown_key Sample.EqualFold sample_bogus "bogus"
           emptyHeap H1 H2 H3).
Defined.

Lemma normalize_relocates_retry_witness :
  sample_retry !! "retry" = Some (VString "10s") ∧
  (normalize sample_retry).1 !! "retry" = None ∧
  (∃ consul r,
     (normalize sample_retry).1 !! "consul" = Some (VMap consul) ∧
     consul !! "retry" = Some (VMap r) ∧
     r !! "backoff" = Some (VString "10s") ∧
     r !! "max_backoff" = Some (VString "10s") ∧
     dom r = {["backoff"; "max_backoff"]}) ∧
  length (filter (λ w, w = WarnRetry) (normalize sample_retry).2) = 1.
Proof.
  assert (sample_retry !! "retry" = Some (VString "10s")) as H
    by (vm_compute; reflexivity).
  split; [exact H|]. exact (normalize_relocates_retry sample_retry _ H).
Defined.

Lemma Finalize_LogLevel_from_env_witness :
  configs sample_heap !! 3%positive = Some zeroConfig ∧
  closed sample_heap zeroConfig ∧
  ∃ h' cv' q,
    Finalize Sample.TrimSpace (Sample.env "CONSUL_REPLICATE_LOG" "DEBUG")
      (addr 3) sample_heap = Done tt h' ∧
    configs h' !! 3%positive = Some cv' ∧
    LogLevel cv' = addr q ∧ strings h' !! q = Some "DEBUG".
Proof.
  assert (configs sample_heap !! 3%positive = Some zeroConfig) as H1
    by reflexivity.
  assert (closed sample_heap zeroConfig) as H2 by exact I.
  split; [exact H1|]. split; [exact H2|].
  destruct (Finalize_LogLevel_from_env Sample.TrimSpace
              (Sample.env "CONSUL_REPLICATE_LOG" "DEBUG") sample_heap 3%positive
              zeroConfig H1 H2)
    as (h'&cv'&Hrun&Hcv&Hnil&_).
  destruct (Hnil eq_refl) as (q&level&Hq&_&Hs&_&Hdebug&_).
  exists h', cv', q. repeat split; try assumption.
  rewrite Hs. f_equal. apply Hdebug; [reflexivity|].
  right. split; reflexivity.
Defined.

Lemma DestinationConsul_is_ignored_witness :
  configs sample_heap !! 1%positive = Some sample_configA ∧
  configs sample_heap !! 2%positive = Some sample_configB ∧
  closed sample_heap sample_configA ∧ closed sample_heap sample_configB ∧
  DestinationConsul sample_configB = addr 1 ∧
  (∃ l' o h', Copy (addr 2) sample_heap = Done (addr l') h' ∧
     configs h' !! l' = Some o ∧ DestinationConsul o = nil) ∧
  (∃ l' r h', Merge (addr 1) (addr 2) sample_heap = Done (addr l') h' ∧
     configs h' !! l' = Some r ∧ DestinationConsul r = nil).
Proof.
  assert (configs sample_heap !! 1%positive = Some sample_configA) as H1
    by reflexivity.
  assert (configs sample_heap !! 2%positive = Some sample_configB) as H2
    by reflexivity.
  assert (closed sample_heap sample_configA) as H3 by (vm_compute; exact I).
  assert (closed sample_heap sample_configB) as H4 by (vm_compute; exact I).
  split; [exact H1|]. split; [exact H2|]. split; [exact H3|].
  split; [exact H4|]. split; [reflexivity|].
  destruct (DestinationConsul_is_ignored Sample.TrimSpace Sample.EqualFold
              (Sample.env "CR_LOG" "DEBUG") sample_heap 2%positive 1%positive
              sample_configB
              sample_configA sample_retry H2 H1 H4 H3)
    as (HC&_).
  destruct (DestinationConsul_is_ignored Sample.TrimSpace Sample.EqualFold
              (Sample.env "CR_LOG" "DEBUG") sample_heap 1%positive 2%positive
              sample_configA
              sample_configB sample_retry H1 H2 H3 H4)
    as (_&HM&_).
  split; assumption.
Defined.

(** * The further properties on the concrete instance *)

(** X5, on a mapping with a consul stanza only. *)
Lemma normalize_without_legacy_keys_witness :
  Forall (λ k, sample_nested !! k = None) legacyKeys ∧
  normalize sample_nested = (flattenKeys sample_nested stanzaKeys, []).
Proof.
  assert (Forall (λ k, sample_nested !! k = None) legacyKeys) as H.
  { unfold legacyKeys.
    repeat (apply Forall_cons_2; [vm_compute; reflexivity|]).
    apply Forall_nil_2. }
  exact (conj H (normalize_without_legacy_keys sample_nested H)).
Defined.

(** X6, on a top-level token beside a consul block that has a token. *)
Lemma normalize_legacy_key_wins_witness :
  "token" ∈ ["auth"; "ssl"; "token"] ∧
  sample_token !! "token" = Some (VString "abc") ∧
  ∃ consul,
    (normalize sample_token).1 !! "consul" = Some (VMap consul) ∧
    consul !! "token" = Some (VString "abc").
Proof.
  assert ("token" ∈ ["auth"; "ssl"; "token"]) as H1
    by (rewrite !elem_of_cons; tauto).
  assert (sample_token !! "token" = Some (VString "abc")) as H2
    by (vm_compute; reflexivity).
  split; [exact H1|]. split; [exact H2|].
  exact (normalize_legacy_key_wins sample_token "token" _ H1 H2).
Defined.

(** X7, on the same mapping. *)
Lemma normalize_keeps_consul_entries_witness :
  "token" ∈ relocatedKeys ∧ "token" ∈ dom sample_token ∧
  ∃ consul,
    (normalize sample_token).1 !! "consul" = Some (VMap consul) ∧
    ∀ k, k ∉ relocatedKeys →
      consul !! k = consulOf (flattenKeys sample_token stanzaKeys) !! k.
Proof.
  assert ("token" ∈ relocatedKeys) as H1
    by (unfold relocatedKeys; rewrite !elem_of_cons; tauto).
  assert ("token" ∈ dom sample_token) as H2.
  { apply elem_of_dom. eexists. vm_compute. reflexivity. }
  split; [exact H1|]. split; [exact H2|].
  exact (normalize_keeps_consul_entries sample_token "token" H1 H2).
Defined.

(** X8, on a top-level token beside a consul address string. *)
Lemma normalize_discards_scalar_consul_witness :
  sample_scalar_consul !! "consul" = Some (VString "consul-a:8500") ∧
  "token" ∈ relocatedKeys ∧ "token" ∈ dom sample_scalar_consul ∧
  ∃ consul,
    (normalize sample_scalar_consul).1 !! "consul" = Some (VMap consul) ∧
    dom consul ⊆ list_to_set relocatedKeys.
Proof.
  assert (sample_scalar_consul !! "consul" = Some (VString "consul-a:8500"))
    as H0 by (vm_compute; reflexivity).
  assert ("token" ∈ relocatedKeys) as H1
    by (unfold relocatedKeys; rewrite !elem_of_cons; tauto).
  assert ("token" ∈ dom sample_scalar_consul) as H2.
  { apply elem_of_dom. eexists. vm_compute. reflexivity. }
  split; [exact H0|]. split; [exact H1|]. split; [exact H2|].
  exact (normalize_discards_scalar_consul sample_scalar_consul "token" _ H0
           ltac:(discriminate) ltac:(discriminate) H1 H2).
Defined.

(** X9, on a key-value expression with one match. *)
Lemma regexpMatch_named_groups_witness :
  Sample.FindAllStringSubmatch tt "pid_file=/run/r.pid" (-1)
    = [["pid_file=/run/r.pid"; "pid_file"; "/run/r.pid"]] ∧
  ∃ m,
    regexpMatch Sample.SubexpNames Sample.FindAllStringSubmatch tt
      "pid_file=/run/r.pid" = Some m ∧
    m = list_to_map (reverse (namedGroups (Sample.SubexpNames tt)
          ["pid_file=/run/r.pid"; "pid_file"; "/run/r.pid"])) ∧
    m !! "" = None.
Proof.
  assert (Sample.FindAllStringSubmatch tt "pid_file=/run/r.pid" (-1)
          = [["pid_file=/run/r.pid"; "pid_file"; "/run/r.pid"]]) as H1
    by (vm_compute; reflexivity).
  split; [exact H1|].
  exact (regexpMatch_named_groups Sample.SubexpNames
           Sample.FindAllStringSubmatch tt _ _ _ H1 ltac:(cbn; lia)).
Defined.

(** X10, on a [Config] with a Consul and a LogLevel. *)
Lemma Finalize_effect_witness :
  configs sample_heap !! 1%positive = Some sample_configA ∧
  closed sample_heap sample_configA ∧
  ∃ h' cv',
    Finalize Sample.TrimSpace (Sample.env "CR_LOG" "DEBUG") (addr 1)
      sample_heap = Done tt h' ∧
    finalizeEffect Sample.TrimSpace (Sample.env "CR_LOG" "DEBUG") 1%positive
      sample_heap h' sample_configA cv'.
Proof.
  assert (configs sample_heap !! 1%positive = Some sample_configA) as H1
    by (vm_compute; reflexivity).
  assert (closed sample_heap sample_configA) as H2 by (vm_compute; exact I).
  split; [exact H1|]. split; [exact H2|].
  exact (Finalize_effect Sample.TrimSpace _ sample_heap 1%positive _ H1 H2).
Defined.

(** X11, on the empty [Config], with two environments. *)
Lemma Finalize_twice_witness :
  configs sample_heap !! 3%positive = Some zeroConfig ∧
  closed sample_heap zeroConfig ∧
  ∃ h1 cv1 h2,
    Finalize Sample.TrimSpace (Sample.env "CR_LOG" "DEBUG") (addr 3)
      sample_heap = Done tt h1 ∧
    configs h1 !! 3%positive = Some cv1 ∧
    Finalize Sample.TrimSpace (Sample.env "CR_LOG" "ERR") (addr 3) h1
      = Done tt h2 ∧
    configs h2 = configs h1 ∧ strings h2 = strings h1.
Proof.
  assert (configs sample_heap !! 3%positive = Some zeroConfig) as H1
    by (vm_compute; reflexivity).
  assert (closed sample_heap zeroConfig) as H2 by (vm_compute; exact I).
  split; [exact H1|]. split; [exact H2|].
  destruct (Finalize_twice Sample.TrimSpace (Sample.env "CR_LOG" "DEBUG")
              (Sample.env "CR_LOG" "ERR") sample_heap 3%positive _ H1 H2)
    as (h1&cv1&h2&R1&L1&R2&E1&E2&_).
  exact (ex_intro _ h1 (ex_intro _ cv1 (ex_intro _ h2
           (conj R1 (conj L1 (conj R2 (conj E1 E2))))))).
Defined.

(** X13, with the empty [Config] as the receiver. *)
Lemma Merge_zero_identity_witness :
  configs sample_heap !! 1%positive = Some sample_configA ∧
  closed sample_heap sample_configA ∧
  configs sample_heap !! 3%positive = Some zeroConfig ∧
  ∃ l' r h', Merge (addr 3) (addr 1) sample_heap = Done (addr l') h' ∧
    configs h' !! l' = Some r ∧ heap_incl sample_heap h' ∧
    copied sample_heap h' sample_configA r.
Proof.
  assert (configs sample_heap !! 1%positive = Some sample_configA) as H1
    by (vm_compute; reflexivity).
  assert (closed sample_heap sample_configA) as H2 by (vm_compute; exact I).
  assert (configs sample_heap !! 3%positive = Some zeroConfig) as H3
    by (vm_compute; reflexivity).
  split; [exact H1|]. split; [exact H2|]. split; [exact H3|].
  exact (proj2 (Merge_zero_identity sample_heap 1%positive 3%positive _ H1 H2 H3)).
Defined.

(** X14, on the two sample configurations. *)
Lemma Merge_fold_from_nil_witness :
  configs sample_heap !! 1%positive = Some sample_configA ∧
  configs sample_heap !! 2%positive = Some sample_configB ∧
  closed sample_heap sample_configA ∧ closed sample_heap sample_configB ∧
  ∃ l1 h1 l' r h',
    Merge nil (addr 1) sample_heap = Done (addr l1) h1 ∧
    Merge (addr l1) (addr 2) h1 = Done (addr l') h' ∧
    configs h' !! l' = Some r ∧ heap_incl sample_heap h' ∧
    DestinationConsul r = nil ∧
    merged_config sample_heap h' sample_configA sample_configB r.
Proof.
  assert (configs sample_heap !! 1%positive = Some sample_configA) as H1
    by (vm_compute; reflexivity).
  assert (configs sample_heap !! 2%positive = Some sample_configB) as H2
    by (vm_compute; reflexivity).
  assert (closed sample_heap sample_configA) as H3 by (vm_compute; exact I).
  assert (closed sample_heap sample_configB) as H4 by (vm_compute; exact I).
  split; [exact H1|]. split; [exact H2|]. split; [exact H3|].
  split; [exact H4|].
  exact (Merge_fold_from_nil sample_heap 1%positive 2%positive _ _ H1 H2 H3 H4).
Defined.

(** X16: the LogLevel of the result is the argument's pointer, and its Consul holds the argument's contents over the defaults. *)
Lemma TestConfig_over_defaults_witness :
  configOf sample_heap (addr 1) = Some sample_configA ∧
  closed sample_heap sample_configA ∧
  ∃ l' d h',
    TestConfig Sample.TrimSpace (Sample.env "CR_LOG" "DEBUG") (addr 1)
      sample_heap = Done (addr l') h' ∧
    configs h' !! l' = Some d ∧ heap_incl sample_heap h' ∧
    DestinationConsul d = nil ∧
    LogLevel d = LogLevel sample_configA ∧
    deref h' (Consul d)
      = Some (stanza_finalize (stanza_merge stanza_default sample_consulA)).
Proof.
  assert (configOf sample_heap (addr 1) = Some sample_configA) as H1
    by (vm_compute; reflexivity).
  assert (closed sample_heap sample_configA) as H2 by (vm_compute; exact I).
  split; [exact H1|]. split; [exact H2|].
  destruct (TestConfig_over_defaults Sample.TrimSpace
              (Sample.env "CR_LOG" "DEBUG") (addr 1) _ sample_heap H1 H2)
    as (l'&d&h'&R&_&L&I1&D&(_&_&O1)&_&_&_&_&_&(K&_)&_).
  exact (ex_intro _ l' (ex_intro _ d (ex_intro _ h'
    (conj R (conj L (conj I1 (conj D (conj (proj2 K eq_refl) O1)))))))).
Defined.

(** X17, on the empty directory. *)
Lemma FromPath_directory_without_files_witness :
  Sample.Stat "/etc/empty.d" = inr Sample.ModeDir ∧
  Sample.IsDir Sample.ModeDir = true ∧
  Sample.ReadDir "/etc/empty.d" = None ∧
  Forall (λ v, visit_info v = inr true) (Sample.walkVisits "/etc/empty.d") ∧
  sampleFromPath "/etc/empty.d" sample_heap = Done (inr nil, []) sample_heap.
Proof.
  assert (Sample.Stat "/etc/empty.d" = inr Sample.ModeDir) as H1
    by (vm_compute; reflexivity).
  assert (Sample.IsDir Sample.ModeDir = true) as H2 by reflexivity.
  assert (Sample.ReadDir "/etc/empty.d" = None) as H3
    by (vm_compute; reflexivity).
  assert (Forall (λ v, visit_info v = inr true)
            (Sample.walkVisits "/etc/empty.d")) as H4.
  { apply Forall_cons_2; [reflexivity|apply Forall_nil_2]. }
  split; [exact H1|]. split; [exact H2|]. split; [exact H3|].
  split; [exact H4|].
  exact (FromPath_directory_without_files Sample.EqualFold Sample.hclDecode
           Sample.IsNotExist Sample.Stat Sample.IsDir Sample.IsRegular
           Sample.modeString Sample.ReadDir Sample.ReadFile Sample.walkVisits
           "/etc/empty.d" Sample.ModeDir sample_heap H1 H2 H3 H4).
Defined.

(** X18, on the directory whose first file cannot be read. *)
Lemma FromPath_stops_at_unreadable_file_witness :
  Sample.Stat "/etc/locked.d" = inr Sample.ModeDir ∧
  Sample.IsDir Sample.ModeDir = true ∧
  Sample.ReadDir "/etc/locked.d" = None ∧
  Sample.walkVisits "/etc/locked.d"
    = [mkVisit "/etc/locked.d" (inr true)]
      ++ mkVisit "/etc/locked.d/a.hcl" (inr false)
      :: [mkVisit "/etc/locked.d/b.hcl" (inr false)] ∧
  Sample.ReadFile "/etc/locked.d/a.hcl" = inl Sample.EACCES ∧
  sampleFromPath "/etc/locked.d" sample_heap
  = Done (inl (["walk error"; "from file: /etc/locked.d/a.hcl"],
               OsError Sample.EACCES), []) sample_heap.
Proof.
  assert (Sample.Stat "/etc/locked.d" = inr Sample.ModeDir) as H1
    by (vm_compute; reflexivity).
  assert (Sample.IsDir Sample.ModeDir = true) as H2 by reflexivity.
  assert (Sample.ReadDir "/etc/locked.d" = None) as H3
    by (vm_compute; reflexivity).
  assert (Sample.walkVisits "/etc/locked.d"
    = [mkVisit "/etc/locked.d" (inr true)]
      ++ mkVisit "/etc/locked.d/a.hcl" (inr false)
      :: [mkVisit "/etc/locked.d/b.hcl" (inr false)]) as H4
    by (vm_compute; reflexivity).
  assert (Forall (λ v : visit Sample.oserror, visit_info v = inr true)
            [mkVisit "/etc/locked.d" (inr true)]) as H5.
  { apply Forall_cons_2; [reflexivity|apply Forall_nil_2]. }
  assert (Sample.ReadFile "/etc/locked.d/a.hcl" = inl Sample.EACCES) as H6
    by (vm_compute; reflexivity).
  split; [exact H1|]. split; [exact H2|]. split; [exact H3|].
  split; [exact H4|]. split; [exact H6|].
  exact (FromPath_stops_at_unreadable_file Sample.EqualFold Sample.hclDecode
           Sample.IsNotExist Sample.Stat Sample.IsDir Sample.IsRegular
           Sample.modeString Sample.ReadDir Sample.ReadFile Sample.walkVisits
           "/etc/locked.d" "/etc/locked.d/a.hcl" Sample.ModeDir Sample.EACCES
           _ _ sample_heap H1 H2 H3 H4 H5 H6).
Defined.

(** X19: loaded directly, base.hcl gives a [Config] with a DestinationConsul; loaded through its directory, a copy without. *)
Lemma FromPath_directory_copies_single_file_witness :
  Parse Sample.EqualFold Sample.hclDecode Sample.baseText emptyHeap
    = Done (inr (addr 1), []) sample_parsed_heap ∧
  configs sample_parsed_heap !! 1%positive = Some sample_parsed_config ∧
  closed sample_parsed_heap sample_parsed_config ∧
  DestinationConsul sample_parsed_config = addr 2 ∧
  sampleFromPath "/etc/replicate.d/base.hcl" emptyHeap
    = Done (inr (addr 1), []) sample_parsed_heap ∧
  ∃ l' o h',
    sampleFromPath "/etc/replicate.d" emptyHeap = Done (inr (addr l'), []) h' ∧
    l' ≠ 1%positive ∧ configs h' !! l' = Some o ∧
    heap_incl sample_parsed_heap h' ∧
    copied sample_parsed_heap h' sample_parsed_config o ∧
    DestinationConsul o = nil.
Proof.
  assert (Parse Sample.EqualFold Sample.hclDecode Sample.baseText emptyHeap
    = Done (inr (addr 1), []) sample_parsed_heap) as HP
    by (vm_compute; reflexivity).
  assert (configs sample_parsed_heap !! 1%positive = Some sample_parsed_config)
    as HL by (vm_compute; reflexivity).
  assert (closed sample_parsed_heap sample_parsed_config) as HC
    by (vm_compute; exact I).
  split; [exact HP|]. split; [exact HL|]. split; [exact HC|].
  split; [reflexivity|].
  refine (FromPath_directory_copies_single_file Sample.EqualFold
           Sample.hclDecode Sample.IsNotExist Sample.Stat Sample.IsDir
           Sample.IsRegular Sample.modeString Sample.ReadDir Sample.ReadFile
           Sample.walkVisits "/etc/replicate.d" "/etc/replicate.d/base.hcl"
           Sample.baseText Sample.ModeDir Sample.ModeRegular
           [mkVisit "/etc/replicate.d" (inr true)] [] emptyHeap
           sample_parsed_heap 1%positive sample_parsed_config []
           _ _ _ _ _ _ _ _ _ _ HP HL HC);
    try (vm_compute; reflexivity).
  - apply Forall_cons_2; [reflexivity|apply Forall_nil_2].
  - apply Forall_nil_2.
Defined.

(** X20, on the consul key of a mapping with a consul stanza only. *)
Lemma normalize_leaves_other_keys_witness :
  ("consul" ∉ legacyKeys) ∧
  Forall (λ key, sample_nested !! key = None) relocatedKeys ∧
  (normalize sample_nested).1 !! "consul"
  = flattenKeys sample_nested stanzaKeys !! "consul".
Proof.
  assert ("consul" ∉ legacyKeys) as H1.
  { unfold legacyKeys. rewrite !not_elem_of_cons.
    repeat split; try discriminate. apply not_elem_of_nil. }
  assert (Forall (λ key, sample_nested !! key = None) relocatedKeys) as H2.
  { unfold relocatedKeys.
    repeat (apply Forall_cons_2; [vm_compute; reflexivity|]).
    apply Forall_nil_2. }
  split; [exact H1|]. split; [exact H2|].
  exact (normalize_leaves_other_keys sample_nested "consul" H1 (λ _, H2)).
Defined.
